(** * Neighbor stencils and many-body pair styles of LAMMPS: a shallow embedding

    The development follows the C++ sources function by function:
    - [PairSMATB]  (pair_smatb.cpp, src/unnamed/part_003): [settings],
      [allocate], [coeff], [init_one], [compute] with its three loops, its
      energy tallies and the two ghost exchanges, the four pack/unpack
      callbacks, [write_restart] / [read_restart];
    - [CPairPOD]   (pair_pod.cpp, src/unnamed/part_000): [settings], [init_one],
      [lammpsNeighPairs];
    - [NStencilFullMultiOld3d] (src/src/nstencil_full_multi_old_3d.cpp):
      [create];
    - the sub-models of the two granular packages: the damping models and the
      SDS rolling model of src/unnamed/part_002 ([Granular_NS]), the damping
      models of src/unnamed/part_006 and the SDS rolling model of
      src/src/GRANULAR/contact_rolling_models.cpp ([Contact]).
    Line numbers in the comments are those of the source file of the section.

    Conventions.  A C++ [double] is a real number and arithmetic is exact, so
    every statement below is about the formulas the code evaluates, not about
    their rounding.  A C array is a total map from indices; which indices a
    routine touches is stated where it matters.  Storage that a routine
    obtains from [memory->create] is uninitialised: it is an argument of the
    routine, and nothing is assumed about what it contains.  [error->all] ends
    the run and is the [Fatal] result.

    The first part holds the models and the vocabulary of the statements, the
    second and the third part the proofs. *)

From Stdlib Require Import Reals Lra Lia ZArith List String Bool Arith Sorting.Sorted.
Import ListNotations.

Set Implicit Arguments.

(** ** Numeric and control-flow vocabulary shared by all models *)

Module Num.
Local Open Scope R_scope.

(** [a < b] on doubles, as a branch condition. *)
Definition Rltb (a b : R) : bool := if Rlt_dec a b then true else false.

(** [a != 0.0] is [negb (Reqb a 0)]. *)
Definition Reqb (a b : R) : bool := if Req_dec_T a b then true else false.

Definition vec3 : Type := (R * R * R)%type.
Definition c0 (v : vec3) : R := fst (fst v).
Definition c1 (v : vec3) : R := snd (fst v).
Definition c2 (v : vec3) : R := snd v.
Definition vzero : vec3 := (0, 0, 0).
Definition vadd (u v : vec3) : vec3 := (c0 u + c0 v, c1 u + c1 v, c2 u + c2 v).
Definition vsub (u v : vec3) : vec3 := (c0 u - c0 v, c1 u - c1 v, c2 u - c2 v).
Definition vopp (u : vec3) : vec3 := (- c0 u, - c1 u, - c2 u).
Definition vscale (u : vec3) (s : R) : vec3 := (c0 u * s, c1 u * s, c2 u * s).
Definition normsq (u : vec3) : R := c0 u * c0 u + c1 u * c1 u + c2 u * c2 u.

(** [for (k = 0; k < n; k++) body] on an explicit state. *)
Definition for_loop (St : Type) (n : nat) (body : nat -> St -> St) (s : St) : St :=
  fold_left (fun acc k => body k acc) (seq 0 n) s.

(** [for (k = lo; k <= hi; k++) body] with the bounds as they are in the code. *)
Definition for_range (St : Type) (lo hi : nat) (body : nat -> St -> St) (s : St) : St :=
  fold_left (fun acc k => body k acc) (seq lo (S hi - lo)) s.

(** One-dimensional array store [a[i] = v] and accumulate [a[i] += v]. *)
Definition store1 (A : Type) (a : nat -> A) (i : nat) (v : A) : nat -> A :=
  fun k => if Nat.eqb k i then v else a k.

Definition store2 (A : Type) (a : nat -> nat -> A) (i j : nat) (v : A)
  : nat -> nat -> A :=
  fun k l => if Nat.eqb k i && Nat.eqb l j then v else a k l.

(** What a routine that may call [error->all] produces. *)
Inductive result (A : Type) : Type :=
| OK (a : A)
| Fatal (msg : string).
Arguments Fatal {A} msg.

Definition is_fatal (A : Type) (r : result A) : bool :=
  match r with OK _ => false | Fatal _ => true end.

End Num.
Import Num.

(** ** pair_smatb.cpp *)

Module PairSMATB.
Local Open Scope R_scope.

(** The fourteen [double **] members, one name per array. *)
Inductive param : Set :=
| r0 | p | q | A | QSI | cutOffStart | cutOffEnd | cutOffEnd2
| a3 | a4 | a5 | x3 | x4 | x5.

Definition param_eqb (s t : param) : bool :=
  match s, t with
  | r0, r0 | p, p | q, q | A, A | QSI, QSI
  | cutOffStart, cutOffStart | cutOffEnd, cutOffEnd | cutOffEnd2, cutOffEnd2
  | a3, a3 | a4, a4 | a5, a5 | x3, x3 | x4, x4 | x5, x5 => true
  | _, _ => false
  end.

(** The members of the class that survive between calls: the [setflag]
    matrix of the base class, the coefficient arrays, and the three flags
    that the restart settings carry. *)
Record pair : Type := mkPair {
  setflag : nat -> nat -> Z;
  tab : param -> nat -> nat -> R;
  offset_flag : Z;
  mix_flag : Z;
  tail_flag : Z
}.

(** [t[i][j] = v]. *)
Definition put (c : pair) (t : param) (i j : nat) (v : R) : pair :=
  mkPair (setflag c)
         (fun t' k l =>
            if param_eqb t' t && (Nat.eqb k i && Nat.eqb l j) then v else tab c t' k l)
         (offset_flag c) (mix_flag c) (tail_flag c).

(** [setflag[i][j] = v]. *)
Definition set_setflag (c : pair) (i j : nat) (v : Z) : pair :=
  mkPair (store2 (setflag c) i j v) (tab c) (offset_flag c) (mix_flag c) (tail_flag c).

(** [PairSMATB::settings]. *)
Definition settings (c : pair) (narg : Z) : result pair :=
  if (narg >? 0)%Z
  then Fatal "Illegal pair_style command: smatb accepts no options"
  else OK c.

(** The symmetric copy at the end of [init_one] (lines 407-422): each array in
    turn gets [t[j][i] = t[i][j]], in the order of the source. *)
Definition mirrored : list param :=
  [cutOffEnd2; r0; p; q; A; QSI; cutOffStart; cutOffEnd; a3; a4; a5; x3; x4; x5].

Definition mirror (c : pair) (i j : nat) : pair :=
  fold_left (fun c t => put c t j i (tab c t i j)) mirrored (set_setflag c j i 1%Z).

(** Lines 380-404 of [init_one]: the coefficients of the two switching
    polynomials and the squared cutoff. *)
Definition derive (c : pair) (i j : nat) : pair :=
  let es := tab c cutOffEnd i j - tab c cutOffStart i j in
  let es2 := es * es in
  let es3 := es2 * es in
  let expp := tab c A i j
              * exp (tab c p i j * (1 - tab c cutOffStart i j / tab c r0 i j)) in
  let ap := -1 / es3 in
  let bp := tab c p i j / (tab c r0 i j * es2) in
  let cp := - (tab c p i j * tab c p i j) / (es * tab c r0 i j * tab c r0 i j) in
  let c := put c a5 i j (expp * (12 * ap + 6 * bp + cp) / (2 * es2)) in
  let c := put c a4 i j (expp * (15 * ap + 7 * bp + cp) / es) in
  let c := put c a3 i j (expp * (20 * ap + 8 * bp + cp) / 2) in
  let expq := tab c QSI i j
              * exp (tab c q i j * (1 - tab c cutOffStart i j / tab c r0 i j)) in
  let aq := -1 / es3 in
  let bq := tab c q i j / (es2 * tab c r0 i j) in
  let cq := - (tab c q i j * tab c q i j) / (es * tab c r0 i j * tab c r0 i j) in
  let c := put c x5 i j (expq * (12 * aq + 6 * bq + cq) / (2 * es2)) in
  let c := put c x4 i j (expq * (15 * aq + 7 * bq + cq) / es) in
  let c := put c x3 i j (expq * (20 * aq + 8 * bq + cq) / 2) in
  put c cutOffEnd2 i j (tab c cutOffEnd i j * tab c cutOffEnd i j).

(** [PairSMATB::init_one].  The unset branch stores two mixed cutoffs and then
    calls [error->all], which does not return. *)
Definition init_one (c : pair) (i j : nat) : result (R * pair) :=
  if (setflag c i j =? 0)%Z then Fatal "All pair coeffs are not set"
  else
    let c := derive c i j in
    let c := if negb (Nat.eqb i j) then mirror c i j else c in
    OK (tab c cutOffEnd i j, c).

(** *** compute() *)

(** The atom arrays compute() reads ([atom->x], [atom->type]) and the two
    counts; indices [0 .. nlocal-1] are owned atoms, [nlocal .. nlocal+nghost-1]
    are ghosts. *)
Record atom : Type := mkAtom {
  x : nat -> vec3;
  type : nat -> nat;
  nlocal : nat;
  nghost : nat
}.

(** The neighbor list handed to the pair style.  An entry of [firstneigh]
    carries the special-bond bits above the atom index. *)
Record neigh_list : Type := mkList {
  inum : nat;
  ilist : nat -> nat;
  numneigh : nat -> nat;
  firstneigh : nat -> nat -> Z
}.

(** Every statement of compute() and of the four comm callbacks that touches
    [on_eb] leaves one event, in program order. *)
Inductive event : Set :=
| Memset (n : nat)      (* memset(on_eb, 0, n * sizeof(on_eb[0])) *)
| Accum (k : nat)       (* first loop:  on_eb[k] += qsiexpq *)
| RevPack (k : nat)     (* pack_reverse_comm:   buf[m++] = on_eb[k] *)
| RevUnpack (k : nat)   (* unpack_reverse_comm: on_eb[k] += buf[m++] *)
| Recip (k : nat)       (* support loop: on_eb[k] = 1/sqrt(on_eb[k]) or 0 *)
| FwdPack (k : nat)     (* pack_forward_comm:   buf[m++] = on_eb[k] *)
| FwdUnpack (k : nat)   (* unpack_forward_comm: on_eb[k] = buf[m++] *)
| Use (k : nat).        (* second loop reads on_eb[k] for fpair *)

(** What compute() mutates: the member [on_eb], the force array [atom->f],
    and the event history.  [memory->grow] keeps the old contents and only
    lengthens the buffer, so it has no effect on a total map.  The energy and
    virial tallies ([eatom], [eng_vdwl], [ev_tally], [virial_fdotr_compute])
    write neither [on_eb] nor [f] and are not part of this state. *)
Record state : Type := mkState {
  on_eb : nat -> R;
  f : nat -> vec3;
  trace : list event
}.

Definition put_on_eb (st : state) (k : nat) (v : R) (e : event) : state :=
  mkState (store1 (on_eb st) k v) (f st) (trace st ++ [e]).

Definition put_f (st : state) (k : nat) (v : vec3) : state :=
  mkState (on_eb st) (store1 (f st) k v) (trace st).

Definition note (st : state) (e : event) : state :=
  mkState (on_eb st) (f st) (trace st ++ [e]).

(** [memset(on_eb, 0, n * sizeof(on_eb[0]))]. *)
Definition memset_on_eb (st : state) (n : nat) : state :=
  mkState (fun k => if Nat.ltb k n then 0 else on_eb st k) (f st)
          (trace st ++ [Memset n]).

(** The switching polynomial in [polyval = dij - cutOffEnd] (lines 147-152
    and 217-223, 227-228) and the factor that multiplies it out in the force
    (lines 225-226 and 229-230). *)
Definition poly345 (k3 k4 k5 polyval : R) : R :=
  let polyval3 := polyval * polyval * polyval in
  let polyval4 := polyval3 * polyval in
  let polyval5 := polyval4 * polyval in
  k5 * polyval5 + k4 * polyval4 + k3 * polyval3.

Definition dpoly345 (k3 k4 k5 polyval : R) : R :=
  let polyval2 := polyval * polyval in
  let polyval3 := polyval2 * polyval in
  let polyval4 := polyval3 * polyval in
  5 * k5 * polyval4 + 4 * k4 * polyval3 + 3 * k3 * polyval2.

(** The pair term of the first loop: the squared attractive term, exponential
    below [cutOffStart] (lines 144-145), polynomial above (lines 147-153). *)
Definition qsiexpq1_exp (c : pair) (itype jtype : nat) (dij : R) : R :=
  (tab c QSI itype jtype * tab c QSI itype jtype)
  * exp (2 * tab c q itype jtype * (1 - dij / tab c r0 itype jtype)).

Definition qsiexpq1_poly (c : pair) (itype jtype : nat) (dij : R) : R :=
  let polyval := dij - tab c cutOffEnd itype jtype in
  let qsiexpq := poly345 (tab c x3 itype jtype) (tab c x4 itype jtype)
                         (tab c x5 itype jtype) polyval in
  qsiexpq * qsiexpq.

Definition qsiexpq1 (c : pair) (itype jtype : nat) (dij : R) : R :=
  if Rltb dij (tab c cutOffStart itype jtype)
  then qsiexpq1_exp c itype jtype dij
  else qsiexpq1_poly c itype jtype dij.

(** The repulsive pair energy [aexpp] of the second loop (lines 212, 222). *)
Definition aexpp_exp (c : pair) (itype jtype : nat) (dij : R) : R :=
  let espo := 1 - dij / tab c r0 itype jtype in
  exp (tab c p itype jtype * espo) * tab c A itype jtype.

Definition aexpp_poly (c : pair) (itype jtype : nat) (dij : R) : R :=
  let polyval := dij - tab c cutOffEnd itype jtype in
  poly345 (tab c a3 itype jtype) (tab c a4 itype jtype) (tab c a5 itype jtype) polyval.

(** The two radial force factors [(Fb, Fr)] of the second loop, below
    [cutOffStart] (lines 211-215) and above (lines 217-231). *)
Definition Fb_Fr_exp (c : pair) (itype jtype : nat) (dij : R) : R * R :=
  let espo := 1 - dij / tab c r0 itype jtype in
  let aexpp := aexpp_exp c itype jtype dij in
  let Fr := (2 * aexpp) * (tab c p itype jtype / tab c r0 itype jtype) in
  let qsiexpq := (tab c QSI itype jtype * tab c QSI itype jtype)
                 * exp (2 * tab c q itype jtype * espo) in
  let Fb := - qsiexpq * tab c q itype jtype / tab c r0 itype jtype in
  (Fb, Fr).

Definition Fb_Fr_poly (c : pair) (itype jtype : nat) (dij : R) : R * R :=
  let polyval := dij - tab c cutOffEnd itype jtype in
  let Fr := -2 * dpoly345 (tab c a3 itype jtype) (tab c a4 itype jtype)
                          (tab c a5 itype jtype) polyval in
  let qsiexpq := poly345 (tab c x3 itype jtype) (tab c x4 itype jtype)
                         (tab c x5 itype jtype) polyval in
  let Fb := dpoly345 (tab c x3 itype jtype) (tab c x4 itype jtype)
                     (tab c x5 itype jtype) polyval * qsiexpq in
  (Fb, Fr).

Definition Fb_Fr (c : pair) (itype jtype : nat) (dij : R) : R * R :=
  if Rltb dij (tab c cutOffStart itype jtype)
  then Fb_Fr_exp c itype jtype dij
  else Fb_Fr_poly c itype jtype dij.

(** Line 248. *)
Definition fpair_of (c : pair) (itype jtype : nat) (dij oi oj : R) : R :=
  (fst (Fb_Fr c itype jtype dij) * (oi + oj) + snd (Fb_Fr c itype jtype dij)) / dij.

Section Compute.

(** The mask that strips the special-bond bits ([NEIGHMASK] of lmptype.h, which
    is not among the sources). *)
Variable NEIGHMASK : Z.

Variable newton_pair : bool.
Variable c : pair.
Variable a : atom.
Variable l : neigh_list.

(** [j = jlist[jj]; j &= NEIGHMASK;] *)
Definition neighbor (i jj : nat) : nat :=
  Z.to_nat (Z.land (firstneigh l i jj) NEIGHMASK).

Definition del_of (i j : nat) : vec3 := vsub (x a i) (x a j).

(** The test of lines 141 and 208. *)
Definition within (i j : nat) : bool :=
  Rltb (normsq (del_of i j)) (tab c cutOffEnd2 (type a i) (type a j)).

(** The divisor of line 248. *)
Definition dij_of (i j : nat) : R := sqrt (normsq (del_of i j)).

Definition first_loop_pair (i j : nat) (st : state) : state :=
  if within i j then
    let qsiexpq := qsiexpq1 c (type a i) (type a j) (dij_of i j) in
    let st := put_on_eb st i (on_eb st i + qsiexpq) (Accum i) in
    put_on_eb st j (on_eb st j + qsiexpq) (Accum j)
  else st.

Definition first_loop (st : state) : state :=
  for_loop (inum l) (fun ii st =>
    let i := ilist l ii in
    for_loop (numneigh l i) (fun jj st => first_loop_pair i (neighbor i jj) st) st) st.

Definition support_loop (st : state) : state :=
  for_loop (inum l) (fun ii st =>
    let i := ilist l ii in
    if Nat.ltb i (nlocal a) then
      let eb_i := sqrt (on_eb st i) in
      put_on_eb st i (if negb (Reqb eb_i 0) then 1 / eb_i else 0) (Recip i)
    else st) st.

Definition second_loop_pair (i j : nat) (st : state) : state :=
  if within i j then
    let del := del_of i j in
    let st := note (note st (Use i)) (Use j) in
    let fpair := fpair_of c (type a i) (type a j) (dij_of i j) (on_eb st i) (on_eb st j) in
    let st := put_f st i (vadd (f st i) (vscale del fpair)) in
    if newton_pair || Nat.ltb j (nlocal a)
    then put_f st j (vsub (f st j) (vscale del fpair))
    else st
  else st.

Definition second_loop (st : state) : state :=
  for_loop (inum l) (fun ii st =>
    let i := ilist l ii in
    for_loop (numneigh l i) (fun jj st => second_loop_pair i (neighbor i jj) st) st) st.

End Compute.

(** *** The four communication callbacks *)

(** [pack_forward_comm(n, list, buf, ...)]: the filled buffer. *)
Definition pack_forward_comm (n : nat) (list_ : nat -> nat) (st : state)
  : list R * state :=
  for_loop n (fun i bs =>
    let j := list_ i in
    (fst bs ++ [on_eb (snd bs) j], note (snd bs) (FwdPack j))) ([], st).

(** [unpack_forward_comm(n, first, buf)]. *)
Definition unpack_forward_comm (n first : nat) (buf : list R) (st : state) : state :=
  for_loop n (fun m st => put_on_eb st (first + m) (nth m buf 0) (FwdUnpack (first + m))) st.

(** [pack_reverse_comm(n, first, buf)]. *)
Definition pack_reverse_comm (n first : nat) (st : state) : list R * state :=
  for_loop n (fun m bs =>
    (fst bs ++ [on_eb (snd bs) (first + m)], note (snd bs) (RevPack (first + m)))) ([], st).

(** [unpack_reverse_comm(n, list, buf)]. *)
Definition unpack_reverse_comm (n : nat) (list_ : nat -> nat) (buf : list R) (st : state)
  : state :=
  for_loop n (fun i st =>
    let j := list_ i in
    put_on_eb st j (on_eb st j + nth i buf 0) (RevUnpack j)) st.

(** One exchange of the communication pattern: the owned atoms whose values are
    sent ([sendlist]) and the index of the first ghost that receives them. *)
Record swap : Type := mkSwap {
  sendlist : list nat;
  firstrecv : nat
}.

Definition sendnum (s : swap) : nat := List.length (sendlist s).

(** Modelled from the spec: [Comm::forward_comm_pair] belongs to the
    communication layer, which is not among the sources.  The specification
    describes it as the owner-to-ghost copy of a per-atom buffer keyed by a
    fixed record size; here every exchange is with the process itself
    (periodic images), so what is packed for a swap is what is unpacked. *)
Definition forward_comm_pair (swaps : list swap) (st : state) : state :=
  fold_left (fun st s =>
    let bs := pack_forward_comm (sendnum s) (fun i => nth i (sendlist s) 0%nat) st in
    unpack_forward_comm (sendnum s) (firstrecv s) (fst bs) (snd bs)) swaps st.

(** Modelled from the spec: [Comm::reverse_comm_pair], the ghost-to-owner
    accumulation of the same buffer, with the swaps taken in reverse order. *)
Definition reverse_comm_pair (swaps : list swap) (st : state) : state :=
  fold_left (fun st s =>
    let bs := pack_reverse_comm (sendnum s) (firstrecv s) st in
    unpack_reverse_comm (sendnum s) (fun i => nth i (sendlist s) 0%nat) (fst bs) (snd bs))
    (rev swaps) st.

(** [PairSMATB::compute]. *)
Definition compute (NEIGHMASK : Z) (newton_pair : bool) (c : pair) (a : atom)
    (l : neigh_list) (swaps : list swap) (st : state) : state :=
  let nall := (nlocal a + nghost a)%nat in
  let st := if newton_pair then memset_on_eb st nall else memset_on_eb st (nlocal a) in
  let st := first_loop NEIGHMASK c a l st in
  let st := reverse_comm_pair swaps st in
  let st := support_loop a l st in
  let st := forward_comm_pair swaps st in
  second_loop NEIGHMASK newton_pair c a l st.

(** *** Example data for the statements about compute() *)

(** One atom type with r0 = p = q = A = QSI = 1 and a switch between 2 and 3,
    as [coeff] leaves it. *)
Definition raw_example : pair :=
  mkPair (fun _ _ => 1%Z)
         (fun t _ _ => match t with
                       | cutOffStart => 2
                       | cutOffEnd => 3
                       | r0 | p | q | A | QSI => 1
                       | _ => 0
                       end)
         0 0 0.

(** The same pair style after [init_one(1,1)]. *)
Definition configured_example : pair := derive raw_example 1 1.

(** A mask of 29 low bits, the width of the atom index in a neighbor entry. *)
Definition mask29 : Z := 536870911.


(** Two owned atoms at distance 1. *)
Definition two_local : atom :=
  mkAtom (fun k => if Nat.eqb k 0 then (0, 0, 0) else (1, 0, 0)) (fun _ => 1%nat) 2 0.

(** One owned atom at the origin and its periodic image at distance 1. *)
Definition with_image : atom :=
  mkAtom (fun k => if Nat.eqb k 0 then (0, 0, 0) else (1, 0, 0)) (fun _ => 1%nat) 1 1.

(** Atom 0 has the single neighbor 1. *)
Definition one_pair : neigh_list :=
  mkList 1 (fun _ => 0%nat) (fun _ => 1%nat) (fun _ _ => 1%Z).

(** The ghost 1 is the image of atom 0. *)
Definition image_swap : list swap := [mkSwap [0%nat] 1].

(** A state with zero forces whose [on_eb] holds [g] everywhere. *)
Definition stale (g : R) : state := mkState (fun _ => g) (fun _ => vzero) [].

(** The classes of events, one per step of compute(). *)
Definition is_accum (e : event) : Prop := match e with Accum _ => True | _ => False end.
Definition is_reverse (e : event) : Prop :=
  match e with RevPack _ | RevUnpack _ => True | _ => False end.
Definition is_recip (e : event) : Prop := match e with Recip _ => True | _ => False end.
Definition is_forward (e : event) : Prop :=
  match e with FwdPack _ | FwdUnpack _ => True | _ => False end.
Definition is_use (e : event) : Prop := match e with Use _ => True | _ => False end.

(** [s'] continues the history of [s] with events of the class [Q] only. *)
Definition extends (Q : event -> Prop) (s s' : state) : Prop :=
  exists evs, trace s' = trace s ++ evs /\ Forall Q evs.

(** Two states with the same forces and the same first [n] entries of
    [on_eb]. *)
Definition same_upto (n : nat) (s1 s2 : state) : Prop :=
  (forall k, (k < n)%nat -> on_eb s1 k = on_eb s2 k) /\ (forall k, f s1 k = f s2 k).

(** Every index the neighbor list and the swaps mention is below [nall]. *)
Definition indices_below (NEIGHMASK : Z) (nall : nat) (l : neigh_list)
    (swaps : list swap) : Prop :=
  (forall ii, (ii < inum l)%nat -> (ilist l ii < nall)%nat) /\
  (forall ii jj, (ii < inum l)%nat -> (jj < numneigh l (ilist l ii))%nat ->
     (neighbor NEIGHMASK l (ilist l ii) jj < nall)%nat) /\
  (forall s, List.In s swaps ->
     (forall j, List.In j (sendlist s) -> (j < nall)%nat) /\
     (firstrecv s + sendnum s <= nall)%nat).

(** *** Restart file *)

(** What [fwrite] puts in the file: an [int] or a [double], in native format.
    The file is a sequence of such items; their width in bytes is [sizeof]. *)
Inductive item : Type :=
| IInt (v : Z)
| IDouble (v : R).

Definition sizeof_int : nat := 4.
Definition sizeof_double : nat := 8.

Definition item_bytes (it : item) : nat :=
  match it with
  | IInt _ => sizeof_int
  | IDouble _ => sizeof_double
  end.

Definition file_bytes (fp : list item) : nat :=
  fold_right (fun it n => (item_bytes it + n)%nat) 0%nat fp.

(** [fwrite(&v, sizeof(int), 1, fp)] and [fwrite(&v, sizeof(double), 1, fp)]. *)
Definition fwrite_int (v : Z) (fp : list item) : list item := fp ++ [IInt v].
Definition fwrite_double (v : R) (fp : list item) : list item := fp ++ [IDouble v].

(** [fread(&v, sizeof(int), 1, fp)]: the value read, if the next item is an
    [int], and the rest of the file.  The callers ignore [fread]'s result, so a
    read that transfers nothing leaves the destination as it was. *)
Definition fread_int (fp : list item) : option Z * list item :=
  match fp with
  | IInt v :: rest => (Some v, rest)
  | _ => (None, fp)
  end.

Definition fread_double (fp : list item) : option R * list item :=
  match fp with
  | IDouble v :: rest => (Some v, rest)
  | _ => (None, fp)
  end.

Definition write_restart_settings (c : pair) (fp : list item) : list item :=
  let fp := fwrite_int (offset_flag c) fp in
  let fp := fwrite_int (mix_flag c) fp in
  fwrite_int (tail_flag c) fp.

(** [PairSMATB::write_restart]. *)
Definition write_restart (ntypes : nat) (c : pair) (fp : list item) : list item :=
  let fp := write_restart_settings c fp in
  for_range 1 ntypes (fun i fp =>
    for_range i ntypes (fun j fp =>
      let fp := fwrite_int (setflag c i j) fp in
      if negb (setflag c i j =? 0)%Z then
        let fp := fwrite_double (tab c r0 i j) fp in
        let fp := fwrite_double (tab c p i j) fp in
        let fp := fwrite_double (tab c q i j) fp in
        let fp := fwrite_double (tab c A i j) fp in
        let fp := fwrite_double (tab c QSI i j) fp in
        let fp := fwrite_double (tab c cutOffStart i j) fp in
        fwrite_double (tab c cutOffEnd i j) fp
      else fp) fp) fp.

(** [result = fread(&t[i][j], sizeof(double), 1, fp);] on process 0, followed
    by the broadcast, which on one process changes nothing. *)
Definition read_double (t : param) (i j : nat) (cf : pair * list item)
  : pair * list item :=
  match fread_double (snd cf) with
  | (Some v, rest) => (put (fst cf) t i j v, rest)
  | (None, rest) => (fst cf, rest)
  end.

Definition read_setflag (i j : nat) (cf : pair * list item) : pair * list item :=
  match fread_int (snd cf) with
  | (Some v, rest) => (set_setflag (fst cf) i j v, rest)
  | (None, rest) => (fst cf, rest)
  end.

Definition read_restart_settings (cf : pair * list item) : pair * list item :=
  let cf :=
    match fread_int (snd cf) with
    | (Some v, rest) =>
        (mkPair (setflag (fst cf)) (tab (fst cf)) v (mix_flag (fst cf)) (tail_flag (fst cf)),
         rest)
    | (None, rest) => (fst cf, rest)
    end in
  let cf :=
    match fread_int (snd cf) with
    | (Some v, rest) =>
        (mkPair (setflag (fst cf)) (tab (fst cf)) (offset_flag (fst cf)) v
                (tail_flag (fst cf)), rest)
    | (None, rest) => (fst cf, rest)
    end in
  match fread_int (snd cf) with
  | (Some v, rest) =>
      (mkPair (setflag (fst cf)) (tab (fst cf)) (offset_flag (fst cf)) (mix_flag (fst cf)) v,
       rest)
  | (None, rest) => (fst cf, rest)
  end.

(** [PairSMATB::allocate]: [memory->create] replaces [setflag] and the
    fourteen coefficient arrays by fresh storage, of which only the upper
    triangle of [setflag] is then initialised.  [fresh] is the storage the
    allocator returns, with whatever it contains; only its arrays are read.
    The three integer settings are plain members and stay. *)
Definition allocate (ntypes : nat) (fresh : pair) (c : pair) : pair :=
  for_range 1 ntypes (fun i c =>
    for_range i ntypes (fun j c => set_setflag c i j 0%Z) c)
    (mkPair (setflag fresh) (tab fresh) (offset_flag c) (mix_flag c) (tail_flag c)).

(** [PairSMATB::read_restart]. *)
Definition read_restart (ntypes : nat) (fresh : pair) (c : pair) (fp : list item)
  : pair * list item :=
  let cf := read_restart_settings (c, fp) in
  let cf := (allocate ntypes fresh (fst cf), snd cf) in
  for_range 1 ntypes (fun i cf =>
    for_range i ntypes (fun j cf =>
      let cf := read_setflag i j cf in
      if negb (setflag (fst cf) i j =? 0)%Z then
        let cf := read_double r0 i j cf in
        let cf := read_double p i j cf in
        let cf := read_double q i j cf in
        let cf := read_double A i j cf in
        let cf := read_double QSI i j cf in
        let cf := read_double cutOffStart i j cf in
        read_double cutOffEnd i j cf
      else cf) cf) cf.

(** *** Vocabulary for the statements about the restart file *)

(** The seven parameters a record carries, in file order. *)
Definition raw_params : list param := [r0; p; q; A; QSI; cutOffStart; cutOffEnd].

(** The record of the pair (i,j): the flag, then the parameters if it is set. *)
Definition record_of (c : pair) (i j : nat) : list item :=
  IInt (setflag c i j)
  :: (if negb (setflag c i j =? 0)%Z
      then List.map (fun t => IDouble (tab c t i j)) raw_params
      else []).

(** The pairs (i,j) with 1 <= i <= j <= ntypes, [i] ascending and [j]
    ascending within [i]. *)
Definition type_pairs (ntypes : nat) : list (nat * nat) :=
  flat_map (fun i => List.map (fun j => (i, j)) (seq i (S ntypes - i)))
           (seq 1 (S ntypes - 1)).

(** The body of the writing loop at one pair. *)
Definition write_pair (c : pair) (ij : nat * nat) (fp : list item) : list item :=
  let i := fst ij in
  let j := snd ij in
  let fp := fwrite_int (setflag c i j) fp in
  if negb (setflag c i j =? 0)%Z then
    let fp := fwrite_double (tab c r0 i j) fp in
    let fp := fwrite_double (tab c p i j) fp in
    let fp := fwrite_double (tab c q i j) fp in
    let fp := fwrite_double (tab c A i j) fp in
    let fp := fwrite_double (tab c QSI i j) fp in
    let fp := fwrite_double (tab c cutOffStart i j) fp in
    fwrite_double (tab c cutOffEnd i j) fp
  else fp.

(** The body of the reading loop at one pair. *)
Definition read_pair (ij : nat * nat) (cf : pair * list item) : pair * list item :=
  let i := fst ij in
  let j := snd ij in
  let cf := read_setflag i j cf in
  if negb (setflag (fst cf) i j =? 0)%Z then
    let cf := read_double r0 i j cf in
    let cf := read_double p i j cf in
    let cf := read_double q i j cf in
    let cf := read_double A i j cf in
    let cf := read_double QSI i j cf in
    let cf := read_double cutOffStart i j cf in
    read_double cutOffEnd i j cf
  else cf.

(** The pair style [c2] holds what the record of (i,j) written from [c]
    carries: the flag, and the seven parameters when the flag is set. *)
Definition agree_on (c c2 : pair) (i j : nat) : Prop :=
  setflag c2 i j = setflag c i j /\
  (setflag c i j <> 0%Z ->
   forall t, List.In t raw_params -> tab c2 t i j = tab c t i j).

(** (i,j) comes before (i',j') in the file. *)
Definition pair_lt (u v : nat * nat) : Prop :=
  (fst u < fst v)%nat \/ (fst u = fst v /\ (snd u < snd v)%nat).

(** A pair style with one type whose coefficients were never set. *)
Definition unset_example : pair :=
  mkPair (fun _ _ => 0%Z) (fun _ _ _ => 0) 0 0 0.

(** *** The energy tallies of compute() *)

(** The accumulators of the base class that compute() adds energies to. *)
Record tally : Type := mkTally {
  eatom : nat -> R;
  eng_vdwl : R
}.

(** The flags [ev_setup] derives from [eflag] and [vflag]; [ev_setup] belongs
    to the base class, so the flags are an input. *)
Record ev_flags : Type := mkFlags {
  eflag_either : bool;
  eflag_atom : bool;
  eflag_global : bool
}.

(** The repulsive pair energy of the second loop on either side of
    [cutOffStart]. *)
Definition aexpp_of (c : pair) (itype jtype : nat) (dij : R) : R :=
  if Rltb dij (tab c cutOffStart itype jtype)
  then aexpp_exp c itype jtype dij
  else aexpp_poly c itype jtype dij.

Section ComputeEnergy.

Variable NEIGHMASK : Z.
Variable newton_pair : bool.
Variable c : pair.
Variable a : atom.
Variable l : neigh_list.
Variable ev : ev_flags.

(** Lines 176-179. *)
Definition tally_bounding (i : nat) (eb_i : R) (tl : tally) : tally :=
  if eflag_either ev then
    let tl := if eflag_atom ev
              then mkTally (store1 (eatom tl) i (eatom tl i - eb_i)) (eng_vdwl tl)
              else tl in
    if eflag_global ev then mkTally (eatom tl) (eng_vdwl tl - eb_i) else tl
  else tl.

(** The support loop with its tallies (lines 166-181). *)
Definition support_loop_ev (se : state * tally) : state * tally :=
  for_loop (inum l) (fun ii se =>
    let i := ilist l ii in
    if Nat.ltb i (nlocal a) then
      let st := fst se in
      let eb_i := sqrt (on_eb st i) in
      let st := put_on_eb st i (if negb (Reqb eb_i 0) then 1 / eb_i else 0) (Recip i) in
      (st, tally_bounding i eb_i (snd se))
    else se) se.

(** Lines 233-246. *)
Definition tally_repulsive (i j : nat) (aexpp : R) (tl : tally) : tally :=
  if eflag_either ev then
    let tl :=
      if eflag_atom ev then
        let tl := mkTally (store1 (eatom tl) i (eatom tl i + aexpp)) (eng_vdwl tl) in
        if newton_pair || Nat.ltb j (nlocal a)
        then mkTally (store1 (eatom tl) j (eatom tl j + aexpp)) (eng_vdwl tl)
        else tl
      else tl in
    if eflag_global ev then
      if newton_pair || Nat.ltb j (nlocal a)
      then mkTally (eatom tl) (eng_vdwl tl + 2 * aexpp)
      else mkTally (eatom tl) (eng_vdwl tl + aexpp)
    else tl
  else tl.

Definition second_loop_pair_ev (i j : nat) (se : state * tally) : state * tally :=
  if within c a i j then
    let aexpp := aexpp_of c (type a i) (type a j) (dij_of a i j) in
    (second_loop_pair newton_pair c a i j (fst se), tally_repulsive i j aexpp (snd se))
  else se.

Definition second_loop_ev (se : state * tally) : state * tally :=
  for_loop (inum l) (fun ii se =>
    let i := ilist l ii in
    for_loop (numneigh l i)
      (fun jj se => second_loop_pair_ev i (neighbor NEIGHMASK l i jj) se) se) se.

End ComputeEnergy.

(** [PairSMATB::compute] with its energy tallies.  With [eflag || vflag] the
    flags [ev] and the accumulators are those [ev_setup] leaves, and
    [eng_vdwl] is reset; otherwise lines 89-91 clear [eflag_global] and
    [eflag_atom] and leave [eflag_either] as it was. *)
Definition compute_ev (NEIGHMASK : Z) (newton_pair : bool) (c : pair) (a : atom)
    (l : neigh_list) (swaps : list swap) (eflag vflag : bool) (ev : ev_flags)
    (se : state * tally) : state * tally :=
  let ev := if eflag || vflag then ev else mkFlags (eflag_either ev) false false in
  let tl := if eflag || vflag then mkTally (eatom (snd se)) 0 else snd se in
  let st := fst se in
  let nall := (nlocal a + nghost a)%nat in
  let st := if newton_pair then memset_on_eb st nall else memset_on_eb st (nlocal a) in
  let st := first_loop NEIGHMASK c a l st in
  let st := reverse_comm_pair swaps st in
  let se := support_loop_ev a l ev (st, tl) in
  let se := (forward_comm_pair swaps (fst se), snd se) in
  second_loop_ev NEIGHMASK newton_pair c a l ev se.

(** The sum of the first [n] per-atom energies. *)
Definition total_energy (e : nat -> R) (n : nat) : R :=
  for_loop n (fun k acc => acc + e k) 0.

(** *** coeff() *)

(** What [coeff] holds once its nine words are parsed: the two type ranges
    that [utils::bounds] returns for [arg[0]] and [arg[1]] and the seven
    numbers [utils::numeric] returns for [arg[2..8]].  Both parsers belong to
    the utility layer; [coeff] is modelled from the point where they have
    returned. *)
Record coeff_args : Type := mkCoeffArgs {
  ilo : nat;
  ihi : nat;
  jlo : nat;
  jhi : nat;
  myr0 : R;
  myp : R;
  myq : R;
  myA : R;
  myQSI : R;
  mycutOffStart : R;
  mycutOffEnd : R
}.

(** The body of the double loop of lines 338-352, with the counter. *)
Definition coeff_pair (g : coeff_args) (i j : nat) (cn : pair * nat) : pair * nat :=
  let c := fst cn in
  let c := put c r0 i j (myr0 g) in
  let c := put c p i j (myp g) in
  let c := put c A i j (myA g) in
  let c := put c q i j (myq g) in
  let c := put c QSI i j (myQSI g) in
  let c := put c cutOffStart i j (mycutOffStart g) in
  let c := put c cutOffEnd i j (mycutOffEnd g) in
  let c := set_setflag c i j 1%Z in
  (c, S (snd cn)).

Definition coeff_loops (g : coeff_args) (cn : pair * nat) : pair * nat :=
  for_range (ilo g) (ihi g) (fun i cn =>
    for_range (Nat.max (jlo g) i) (jhi g) (fun j cn => coeff_pair g i j cn) cn) cn.

(** The message of line 321, which spans two lines and quotes the expected
    words. *)
Definition coeff_usage : string :=
  String.append "Incorrect args for pair coefficients:"
    (String (Ascii.ascii_of_nat 10)
       (String.append " SMATB needs "
          (String (Ascii.ascii_of_nat 34)
             (String.append "i j r0 p q A QSI CO_start CO_end"
                (String (Ascii.ascii_of_nat 34) EmptyString))))).

(** [PairSMATB::coeff].  The member [allocated] of the base class travels with
    the arrays: [coeff] allocates on its first call, from the storage [fresh],
    and leaves the flag set. *)
Definition coeff (ntypes : nat) (fresh : pair) (ac : bool * pair) (narg : Z)
    (g : coeff_args) : result (bool * pair) :=
  let c := if negb (fst ac) then allocate ntypes fresh (snd ac) else snd ac in
  if negb (narg =? 9)%Z then Fatal coeff_usage
  else
    let cn := coeff_loops g (c, 0%nat) in
    if Nat.eqb (snd cn) 0 then Fatal "Incorrect args for pair coefficients"
    else OK (true, fst cn).

(** *** Vocabulary for the statements about coeff() and the exchanges *)

(** The pair (i,j) is one the double loop of [coeff] visits. *)
Definition covered (g : coeff_args) (i j : nat) : Prop :=
  (ilo g <= i <= ihi g)%nat /\ (jlo g <= j <= jhi g)%nat /\ (i <= j)%nat.

(** Two pair styles with the same flags and the same entries in all fourteen
    arrays. *)
Definition same_tables (c c' : pair) : Prop :=
  (forall i j, setflag c' i j = setflag c i j) /\
  (forall t i j, tab c' t i j = tab c t i j).

(** What the ghosts [first .. first+n-1] hold for the owner [k]: the sum of
    [o[first+i]] over the positions [i < n] whose list entry is [k]. *)
Definition ghost_sum (n first : nat) (list_ : nat -> nat) (o : nat -> R) (k : nat) : R :=
  for_loop n (fun i acc => if Nat.eqb (list_ i) k then acc + o (first + i)%nat else acc) 0.

(** The sum of the first [n] forces. *)
Definition total_force (g : nat -> vec3) (n : nat) : vec3 :=
  for_loop n (fun k acc => vadd acc (g k)) vzero.

(** The number [coeff] stores in the array [t], for the seven arrays it
    fills. *)
Definition coeff_value (g : coeff_args) (t : param) : option R :=
  match t with
  | r0 => Some (myr0 g)
  | p => Some (myp g)
  | q => Some (myq g)
  | A => Some (myA g)
  | QSI => Some (myQSI g)
  | cutOffStart => Some (mycutOffStart g)
  | cutOffEnd => Some (mycutOffEnd g)
  | _ => None
  end.

(** The pairs the double loop of [coeff] visits, in loop order. *)
Definition coeff_pairs (g : coeff_args) : list (nat * nat) :=
  flat_map (fun i => List.map (fun j => (i, j))
                       (seq (Nat.max (jlo g) i) (S (jhi g) - Nat.max (jlo g) i)))
           (seq (ilo g) (S (ihi g) - ilo g)).

(** [c'] differs from [c] at most in the flags and the seven raw parameters
    of the pairs in [D]. *)
Definition changed_within (D : nat -> nat -> Prop) (c c' : pair) : Prop :=
  (forall k l, ~ D k l -> setflag c' k l = setflag c k l) /\
  (forall t k l, ~ D k l \/ ~ List.In t raw_params -> tab c' t k l = tab c t k l).

(** The arguments of [pair_coeff 1 1 1 1 1 1 1 2 3]: the pair (1,1) with the
    numbers of [raw_example]. *)
Definition coeff_example : coeff_args := mkCoeffArgs 1 1 1 1 1 1 1 1 1 2 3.

(** Storage as an allocator may return it: every flag 5, every entry 7. *)
Definition fresh_example : pair :=
  mkPair (fun _ _ => 5%Z) (fun _ _ _ => 7) 0 0 0.

(** Two owned atoms at distance 4, beyond the cutoff 3 of the example. *)
Definition far_apart : atom :=
  mkAtom (fun k => if Nat.eqb k 0 then (0, 0, 0) else (4, 0, 0)) (fun _ => 1%nat) 2 0.

End PairSMATB.

(** ** pair_pod.cpp *)

Module CPairPOD.
Local Open Scope R_scope.

(** The members [init_one] and [settings] can see: [setflag] and [scale], and
    the cutoff [podptr->pod.rcut] of the descriptor object. *)
Record pair : Type := mkPair {
  setflag : nat -> nat -> Z;
  scale : nat -> nat -> R;
  rcut : R
}.

(** [CPairPOD::settings]. *)
Definition settings (c : pair) (narg : Z) : result pair :=
  if (narg >? 0)%Z then Fatal "Illegal pair_style command" else OK c.

(** [CPairPOD::init_one]. *)
Definition init_one (c : pair) (i j : nat) : result (R * pair) :=
  if (setflag c i j =? 0)%Z then Fatal "All pair coeffs are not set"
  else
    let c := mkPair (setflag c) (store2 (scale c) j i (scale c i j)) (rcut c) in
    OK (rcut c, c).

(** The work arrays [lammpsNeighPairs] fills for the force kernel. *)
Record pairlist : Type := mkPairlist {
  nij : nat;
  rij : nat -> R;
  idxi : nat -> Z;
  ai : nat -> nat;
  aj : nat -> nat;
  ti : nat -> Z;
  tj : nat -> Z;
  typeai : nat -> Z;
  numneighsum : nat -> nat
}.

(** [CPairPOD::lammpsNeighPairs]. *)
Definition lammpsNeighPairs (c : pair) (x : nat -> vec3) (firstneigh : nat -> nat -> nat)
    (atomtypes : nat -> nat) (map : nat -> Z) (numneigh : nat -> nat) (gi : nat)
    (w : pairlist) : pairlist :=
  let rcutsq := rcut c * rcut c in
  let w := mkPairlist 0 (rij w) (idxi w) (ai w) (aj w) (ti w) (tj w) (typeai w)
                      (numneighsum w) in
  let itype := (map (atomtypes gi) + 1)%Z in
  let m := numneigh gi in
  let w := mkPairlist (nij w) (rij w) (idxi w) (ai w) (aj w) (ti w) (tj w)
                      (store1 (typeai w) 0 itype) (numneighsum w) in
  let w :=
    for_loop m (fun l w =>
      let gj := firstneigh gi l in
      let delx := c0 (x gj) - c0 (x gi) in
      let dely := c1 (x gj) - c1 (x gi) in
      let delz := c2 (x gj) - c2 (x gi) in
      let rsq := delx * delx + dely * dely + delz * delz in
      if Rltb rsq rcutsq && Rltb 1e-20 rsq then
        let n := nij w in
        mkPairlist (S n)
          (store1 (store1 (store1 (rij w) (n * 3 + 0) delx) (n * 3 + 1) dely) (n * 3 + 2) delz)
          (store1 (idxi w) n 0%Z)
          (store1 (ai w) n gi)
          (store1 (aj w) n gj)
          (store1 (ti w) n itype)
          (store1 (tj w) n (map (atomtypes gj) + 1)%Z)
          (typeai w) (numneighsum w)
      else w) w in
  mkPairlist (nij w) (rij w) (idxi w) (ai w) (aj w) (ti w) (tj w) (typeai w)
             (store1 (store1 (numneighsum w) 0 0%nat) 1 (nij w)).

(** The pair handed to the force kernel at position [n] of the work arrays. *)
Definition rij_at (w : pairlist) (n : nat) : vec3 :=
  (rij w (n * 3 + 0), rij w (n * 3 + 1), rij w (n * 3 + 2)).

(** A pair style with every pair configured, unit scale and cutoff 5. *)
Definition example : pair := mkPair (fun _ _ => 1%Z) (fun _ _ => 1) 5.


(** The test of line 367 for the neighbor [gj] of [gi]. *)
Definition in_range (c : pair) (x : nat -> vec3) (gi gj : nat) : bool :=
  let delx := c0 (x gj) - c0 (x gi) in
  let dely := c1 (x gj) - c1 (x gi) in
  let delz := c2 (x gj) - c2 (x gi) in
  let rsq := delx * delx + dely * dely + delz * delz in
  Rltb rsq (rcut c * rcut c) && Rltb 1e-20 rsq.

(** The positions of the neighbor list of [gi] that pass the test, in list
    order. *)
Definition kept (c : pair) (x : nat -> vec3) (firstneigh : nat -> nat -> nat)
    (numneigh : nat -> nat) (gi : nat) : list nat :=
  filter (fun l => in_range c x gi (firstneigh gi l)) (seq 0 (numneigh gi)).

End CPairPOD.

(** ** nstencil_full_multi_old_3d.cpp *)

Module NStencilFullMultiOld3d.
Local Open Scope R_scope.

(** The members of [NStencil] that [create] reads (stencil extent, bin counts,
    bin sizes, per-type squared cutoffs) and the three it fills. *)
Record nstencil : Type := mkStencil {
  sx : Z;
  sy : Z;
  sz : Z;
  mbinx : Z;
  mbiny : Z;
  binsizex : R;
  binsizey : R;
  binsizez : R;
  cuttypesq : nat -> R;
  stencil_multi_old : nat -> nat -> Z;
  distsq_multi_old : nat -> nat -> R;
  nstencil_multi_old : nat -> nat
}.

(** Modelled from the spec: [NStencil::bin_distance] is a member of the base
    class, which is not among the sources.  The specification calls its value
    the minimum possible squared distance between the reference bin and the
    bin at offset (i,j,k): along each axis, two bins that touch or coincide
    are at distance zero and bins [n] apart leave a gap of [n-1] bin widths. *)
Definition bin_distance (ns : nstencil) (i j k : Z) : R :=
  let delx := if (i >? 0)%Z then IZR (i - 1) * binsizex ns
              else if (i =? 0)%Z then 0 else IZR (i + 1) * binsizex ns in
  let dely := if (j >? 0)%Z then IZR (j - 1) * binsizey ns
              else if (j =? 0)%Z then 0 else IZR (j + 1) * binsizey ns in
  let delz := if (k >? 0)%Z then IZR (k - 1) * binsizez ns
              else if (k =? 0)%Z then 0 else IZR (k + 1) * binsizez ns in
  delx * delx + dely * dely + delz * delz.

(** The values [lo, lo+1, ..., hi] of a loop [for (v = lo; v <= hi; v++)]. *)
Definition zrange (lo hi : Z) : list Z :=
  List.map (fun t => (lo + Z.of_nat t)%Z) (seq 0 (Z.to_nat (hi - lo + 1))).

Definition for_z (St : Type) (lo hi : Z) (body : Z -> St -> St) (s : St) : St :=
  fold_left (fun acc v => body v acc) (zrange lo hi) s.

(** [distsq[n] = rsq; s[n++] = off;] with [s] and [distsq] the rows of type
    [itype]. *)
Definition push (itype : nat) (rsq : R) (off : Z) (sn : nstencil * nat) : nstencil * nat :=
  let ns := fst sn in
  let n := snd sn in
  (mkStencil (sx ns) (sy ns) (sz ns) (mbinx ns) (mbiny ns)
             (binsizex ns) (binsizey ns) (binsizez ns) (cuttypesq ns)
             (store2 (stencil_multi_old ns) itype n off)
             (store2 (distsq_multi_old ns) itype n rsq)
             (nstencil_multi_old ns),
   S n).

(** The body of the [itype] loop. *)
Definition create_type (itype : nat) (ns : nstencil) : nstencil :=
  let typesq := cuttypesq ns itype in
  let sn :=
    for_z (- sz ns) (sz ns) (fun k sn =>
      for_z (- sy ns) (sy ns) (fun j sn =>
        for_z (- sx ns) (sx ns) (fun i sn =>
          let rsq := bin_distance (fst sn) i j k in
          if Rltb rsq typesq
          then push itype rsq (k * mbiny (fst sn) * mbinx (fst sn) + j * mbinx (fst sn) + i)%Z sn
          else sn) sn) sn) (ns, 0%nat) in
  let ns := fst sn in
  mkStencil (sx ns) (sy ns) (sz ns) (mbinx ns) (mbiny ns)
            (binsizex ns) (binsizey ns) (binsizez ns) (cuttypesq ns)
            (stencil_multi_old ns) (distsq_multi_old ns)
            (store1 (nstencil_multi_old ns) itype (snd sn)).

(** [NStencilFullMultiOld3d::create]. *)
Definition create (ntypes : nat) (ns : nstencil) : nstencil :=
  for_range 1 ntypes create_type ns.

(** *** Vocabulary for the statements about [create] *)

(** The stencil entry [k*mbiny*mbinx + j*mbinx + i] of the offset (i,j,k) and
    its [bin_distance]. *)
Definition flat (ns : nstencil) (o : Z * Z * Z) : Z :=
  (snd o * mbiny ns * mbinx ns + snd (fst o) * mbinx ns + fst (fst o))%Z.

Definition dist (ns : nstencil) (o : Z * Z * Z) : R :=
  bin_distance ns (fst (fst o)) (snd (fst o)) (snd o).

(** The offsets (i,j,k) in the order the three nested loops visit them. *)
Definition offsets (ns : nstencil) : list (Z * Z * Z) :=
  flat_map (fun k =>
    flat_map (fun j =>
      List.map (fun i => (i, j, k)) (zrange (- sx ns) (sx ns)))
      (zrange (- sy ns) (sy ns)))
    (zrange (- sz ns) (sz ns)).

(** Those of them that pass the test [rsq < typesq] for the type [itype]. *)
Definition selected (ns : nstencil) (itype : nat) : list (Z * Z * Z) :=
  filter (fun o => Rltb (dist ns o) (cuttypesq ns itype)) (offsets ns).

(** (i,j,k) is visited before (i',j',k'): [k] outermost, [i] innermost. *)
Definition loop_lt (o o' : Z * Z * Z) : Prop :=
  (snd o < snd o')%Z \/
  (snd o = snd o' /\
   ((snd (fst o) < snd (fst o'))%Z \/
    (snd (fst o) = snd (fst o') /\ (fst (fst o) < fst (fst o'))%Z))).

(** The loop body at one offset. *)
Definition visit (itype : nat) (typesq : R) (o : Z * Z * Z) (sn : nstencil * nat)
  : nstencil * nat :=
  if Rltb (dist (fst sn) o) typesq
  then push itype (dist (fst sn) o) (flat (fst sn) o) sn
  else sn.

(** Two stencil objects with the same extents, bin counts, bin sizes and
    cutoffs. *)
Definition same_geometry (ns ns' : nstencil) : Prop :=
  sx ns' = sx ns /\ sy ns' = sy ns /\ sz ns' = sz ns /\
  mbinx ns' = mbinx ns /\ mbiny ns' = mbiny ns /\
  binsizex ns' = binsizex ns /\ binsizey ns' = binsizey ns /\
  binsizez ns' = binsizez ns /\ cuttypesq ns' = cuttypesq ns.

(** The point [pt] lies in the bin at offset (i,j,k) from the bin whose
    lower corner is the origin. *)
Definition in_bin (ns : nstencil) (o : Z * Z * Z) (pt : vec3) : Prop :=
  IZR (fst (fst o)) * binsizex ns <= c0 pt <= IZR (fst (fst o) + 1) * binsizex ns /\
  IZR (snd (fst o)) * binsizey ns <= c1 pt <= IZR (snd (fst o) + 1) * binsizey ns /\
  IZR (snd o) * binsizez ns <= c2 pt <= IZR (snd o + 1) * binsizez ns.

(** The offset lies in the box the loops scan. *)
Definition in_extent (ns : nstencil) (o : Z * Z * Z) : Prop :=
  (- sx ns <= fst (fst o) <= sx ns)%Z /\
  (- sy ns <= snd (fst o) <= sy ns)%Z /\
  (- sz ns <= snd o <= sz ns)%Z.

(** The rows of type [itype] in [ns'] hold the entries of [selected ns0], in
    that order. *)
Definition rows_of (ns0 ns' : nstencil) (itype : nat) : Prop :=
  nstencil_multi_old ns' itype = List.length (selected ns0 itype) /\
  forall m, (m < List.length (selected ns0 itype))%nat ->
    stencil_multi_old ns' itype m = flat ns0 (nth m (selected ns0 itype) (0, 0, 0)%Z) /\
    distsq_multi_old ns' itype m = dist ns0 (nth m (selected ns0 itype) (0, 0, 0)%Z).

(** A geometry with bins of 1 x 2 x 2 and a cutoff of 2 for the only atom
    type: the stencil extends two bins along x and one along y and z. *)
Definition example : nstencil :=
  mkStencil 2 1 1 9 7 1 2 2 (fun _ => 4) (fun _ _ => 0%Z) (fun _ _ => 0) (fun _ => 0%nat).

(** The same geometry with rows left over from an earlier build. *)
Definition example_rebuilt : nstencil :=
  mkStencil 2 1 1 9 7 1 2 2 (fun _ => 4) (fun _ _ => 7%Z) (fun _ _ => 7) (fun _ => 7%nat).

End NStencilFullMultiOld3d.

(** ** Tsuji damping in the two granular packages *)

Module MathSpecial.
Local Open Scope R_scope.

(** Modelled from the spec: [MathSpecial::square], [cube] and [powint] are
    defined in math_special.h, which is not among the sources.  The damping
    polynomial is read with them as the second, the third and the n-th
    power. *)
Definition square (x : R) : R := x * x.
Definition cube (x : R) : R := x * x * x.
Definition powint (x : R) (n : Z) : R :=
  if (n =? 0)%Z then 1
  else if Reqb x 0 then 0
  else if (n >? 0)%Z then x ^ Z.to_nat n
  else 1 / x ^ Z.to_nat (- n).

End MathSpecial.

Module GranSubModDampingTsuji.
Local Open Scope R_scope.
Import MathSpecial.

(** [GranSubModDampingTsuji::init], as a function of
    [gm->normal_model->get_damp()]; the result is the member [damp]. *)
Definition init (get_damp : R) : R :=
  let tmp := get_damp in
  let damp := 1.2728 - 4.2783 * tmp + 11.087 * square tmp in
  let damp := damp + (-22.348 * cube tmp + 27.467 * powint tmp 4) in
  let damp := damp + (-18.022 * powint tmp 5 + 4.8218 * powint tmp 6) in
  damp.

End GranSubModDampingTsuji.

Module DampingTsuji.
Local Open Scope R_scope.
Import MathSpecial.

(** [DampingTsuji::coeffs_to_local], as a function of
    [contact->normal_model->damp]. *)
Definition coeffs_to_local (normal_model_damp : R) : R :=
  let tmp := normal_model_damp in
  let damp := 1.2728 - 4.2783 * tmp + 11.087 * square tmp in
  let damp := damp + (-22.348 * cube tmp + 27.467 * powint tmp 4) in
  let damp := damp + (-18.022 * powint tmp 5 + 4.8218 * powint tmp 6) in
  damp.

End DampingTsuji.

(** ** The sub-models of the two granular packages *)

(** The vector helpers of namespace [MathExtra] that the rolling models call.
    math_extra.h is not among the sources, so the models take the helpers as
    an interface and the statements name the laws they rely on. *)
Module MathExtra.
Local Open Scope R_scope.

Record ops : Type := mkOps {
  dot3 : vec3 -> vec3 -> R;
  len3 : vec3 -> R;
  scale3 : R -> vec3 -> vec3;
  sub3 : vec3 -> vec3 -> vec3;
  add3 : vec3 -> vec3 -> vec3;
  scaleadd3 : R -> vec3 -> R -> vec3 -> vec3;
  negate3 : vec3 -> vec3;
  zero3 : vec3
}.

(** The helpers over Euclidean three-vectors, to run the models on data. *)
Definition euclid : ops :=
  mkOps (fun u v => c0 u * c0 v + c1 u * c1 v + c2 u * c2 v)
        (fun u => sqrt (normsq u))
        (fun s u => (s * c0 u, s * c1 u, s * c2 u))
        vsub
        vadd
        (fun s u t v => (s * c0 u + t * c0 v, s * c1 u + t * c1 v, s * c2 u + t * c2 v))
        vopp
        vzero.

End MathExtra.

(** gran_sub_mod_damping.cpp and gsm_rolling.cpp (src/unnamed/part_002). *)
Module Granular_NS.
Local Open Scope R_scope.

(** The members of [GranularModel] the damping and rolling sub-models read or
    write; [get_damp] and [Fncrit] are those of [gm->normal_model]. *)
Record GranularModel : Type := mkGranularModel {
  vnnr : R;
  meff : R;
  contact_radius : R;
  Fnormal : R;
  delta : R;
  get_damp : R;
  Fncrit : R;
  history_update : bool;
  history : nat -> R;
  nx : vec3;
  vrl : vec3;
  dt : R;
  fr : vec3
}.

(** The classes derived from [GranSubModDamping]. *)
Inductive damping : Set :=
| DampingNone
| DampingVelocity
| DampingMassVelocity
| DampingViscoelastic
| DampingTsuji
| DampingEnHooke
| DampingEnHertz.

Definition PISQ : R := 9.86960440108935799230.
Definition TWOROOTFIVEBYSIX : R := 1.82574185835055380345.
Definition ROOTTHREEBYTWO : R := 1.22474487139158894067.

(** [init] of each class: the member [damp]. *)
Definition init (m : damping) (gm : GranularModel) : R :=
  match m with
  | DampingTsuji => GranSubModDampingTsuji.init (get_damp gm)
  | DampingEnHooke =>
      let cor := get_damp gm in
      let logcor := ln cor in
      -2 * logcor / sqrt (PISQ + logcor * logcor)
  | DampingEnHertz =>
      let cor := get_damp gm in
      let logcor := ln cor in
      - ROOTTHREEBYTWO * TWOROOTFIVEBYSIX * logcor / sqrt (PISQ + logcor * logcor)
  | _ => get_damp gm
  end.

(** [calculate_forces] of each class: the member [damp_prefactor] it sets and
    the force it returns. *)
Definition calculate_forces (m : damping) (damp : R) (gm : GranularModel) : R * R :=
  match m with
  | DampingNone => (0, 0)
  | DampingVelocity =>
      let damp_prefactor := damp in
      (damp_prefactor, - damp_prefactor * vnnr gm)
  | DampingMassVelocity =>
      let damp_prefactor := damp * meff gm in
      (damp_prefactor, - damp_prefactor * vnnr gm)
  | DampingViscoelastic =>
      let damp_prefactor := damp * meff gm * contact_radius gm in
      (damp_prefactor, - damp_prefactor * vnnr gm)
  | DampingTsuji | DampingEnHooke | DampingEnHertz =>
      let damp_prefactor := damp * sqrt (meff gm * Fnormal gm / delta gm) in
      (damp_prefactor, - damp_prefactor * vnnr gm)
  end.

(** [GSMRollingSDS::coeffs_to_local]: the members [k], [gamma], [mu]. *)
Definition coeffs_to_local (coeffs : nat -> R) : result (R * R * R) :=
  let k := coeffs 0%nat in
  let gamma := coeffs 1%nat in
  let mu := coeffs 2%nat in
  if Rltb k 0 || Rltb mu 0 || Rltb gamma 0
  then Fatal "Illegal SDS rolling model"
  else OK (k, gamma, mu).

(** [GSMRollingSDS::calculate_forces].  [EPSILON] comes from a header that is
    not among the sources.  [hist_temp] is a local array that is assigned only
    when [gm->history_update] is set; [garbage] is what it holds otherwise. *)
Definition rolling_calculate_forces (M : MathExtra.ops) (EPSILON : R)
    (k gamma mu : R) (history_index : nat) (garbage : vec3) (gm : GranularModel)
  : GranularModel :=
  let rhist0 := history_index in
  let rhist1 := (rhist0 + 1)%nat in
  let rhist2 := (rhist1 + 1)%nat in
  let Frcrit := mu * Fncrit gm in
  let hist_temp :=
    if history_update gm then
      let hist_temp := (history gm rhist0, history gm rhist1, history gm rhist2) in
      let rolldotn := MathExtra.dot3 M hist_temp (nx gm) in
      let frameupdate := Rltb (EPSILON * Frcrit) (Rabs rolldotn * k) in
      let hist_temp :=
        if frameupdate then
          let rollmag := MathExtra.len3 M hist_temp in
          let temp_array := MathExtra.scale3 M rolldotn (nx gm) in
          let hist_temp := MathExtra.sub3 M hist_temp temp_array in
          let prjmag := MathExtra.len3 M hist_temp in
          let scalefac := if Rltb 0 prjmag then rollmag / prjmag else 0 in
          MathExtra.scale3 M scalefac hist_temp
        else hist_temp in
      let temp_array := MathExtra.scale3 M (dt gm) (vrl gm) in
      MathExtra.add3 M hist_temp temp_array
    else garbage in
  let fr0 := MathExtra.scaleadd3 M (- k) hist_temp (- gamma) (vrl gm) in
  let magfr := MathExtra.len3 M fr0 in
  let hf :=
    if Rltb Frcrit magfr then
      let rollmag := MathExtra.len3 M hist_temp in
      if negb (Reqb rollmag 0) then
        let k_inv := 1 / k in
        let magfr_inv := 1 / magfr in
        let hist_temp := MathExtra.scale3 M (- Frcrit * k_inv * magfr_inv) fr0 in
        let temp_array := MathExtra.scale3 M (- gamma * k_inv) (vrl gm) in
        let hist_temp := MathExtra.add3 M hist_temp temp_array in
        (hist_temp, MathExtra.scale3 M (Frcrit * magfr_inv) fr0)
      else (hist_temp, MathExtra.zero3 M)
    else (hist_temp, fr0) in
  let hist_temp := fst hf in
  let history' :=
    if history_update gm then
      store1 (store1 (store1 (history gm) rhist0 (c0 hist_temp)) rhist1 (c1 hist_temp))
             rhist2 (c2 hist_temp)
    else history gm in
  mkGranularModel (vnnr gm) (meff gm) (contact_radius gm) (Fnormal gm) (delta gm)
                  (get_damp gm) (Fncrit gm) (history_update gm) history' (nx gm) (vrl gm)
                  (dt gm) (snd hf).

(** A contact with restitution coefficient 1/2 and no rolling history. *)
Definition example : GranularModel :=
  mkGranularModel 1 1 1 1 1 (1 / 2) 1 true (fun _ => 0) (0, 0, 1) (1, 0, 0) 1 (0, 0, 0).

End Granular_NS.

(** contact_damping_models.cpp (src/unnamed/part_006) and
    contact_rolling_models.cpp (src/src/GRANULAR). *)
Module Contact.
Local Open Scope R_scope.

(** The members of [ContactModel] the sub-models read or write; [damp],
    [knfac] and [Fncrit] are those of [contact->normal_model]. *)
Record ContactModel : Type := mkContactModel {
  vnnr : R;
  meff : R;
  area : R;
  damp : R;
  knfac : R;
  Fncrit : R;
  history_update : bool;
  history : nat -> R;
  nx : vec3;
  vrl : vec3;
  dt : R;
  fr : vec3
}.

(** The classes derived from [DampingModel]. *)
Inductive damping : Set :=
| DampingVelocity
| DampingMassVelocity
| DampingViscoelastic
| DampingTsuji.

(** [coeffs_to_local] of each class: the member [damp] of the sub-model. *)
Definition coeffs_to_local (m : damping) (contact : ContactModel) : R :=
  match m with
  | DampingTsuji => DampingTsuji.coeffs_to_local (damp contact)
  | _ => damp contact
  end.

(** [calculate_forces] of each class; [damp] is the member of the sub-model. *)
Definition calculate_forces (m : damping) (damp : R) (contact : ContactModel) : R :=
  match m with
  | DampingVelocity => - damp * vnnr contact
  | DampingMassVelocity => - damp * meff contact * vnnr contact
  | DampingViscoelastic => - damp * meff contact * area contact * vnnr contact
  | DampingTsuji => - damp * sqrt (meff contact * knfac contact) * vnnr contact
  end.

(** [RollingSDS::calculate_forces], with [k], [mu], [gamma] as
    [coeffs_to_local] left them.  The history is written back whether or not
    [contact->history_update] is set. *)
Definition rolling_calculate_forces (M : MathExtra.ops) (EPSILON : R)
    (k mu gamma : R) (history_index : nat) (garbage : vec3) (contact : ContactModel)
  : ContactModel :=
  let rhist0 := history_index in
  let rhist1 := (rhist0 + 1)%nat in
  let rhist2 := (rhist1 + 1)%nat in
  let Frcrit := mu * Fncrit contact in
  let hist_temp :=
    if history_update contact then
      let hist_temp :=
        (history contact rhist0, history contact rhist1, history contact rhist2) in
      let rolldotn := MathExtra.dot3 M hist_temp (nx contact) in
      let frameupdate := Rltb (EPSILON * Frcrit) (Rabs rolldotn * k) in
      let hist_temp :=
        if frameupdate then
          let rollmag := MathExtra.len3 M hist_temp in
          let temp_dbl := - rolldotn in
          let temp_array := MathExtra.scale3 M temp_dbl (nx contact) in
          let hist_temp := MathExtra.sub3 M hist_temp temp_array in
          let prjmag := MathExtra.len3 M hist_temp in
          let temp_dbl := if Rltb 0 prjmag then rollmag / prjmag else 0 in
          MathExtra.scale3 M temp_dbl hist_temp
        else hist_temp in
      let temp_array := MathExtra.scale3 M (dt contact) (vrl contact) in
      MathExtra.add3 M hist_temp temp_array
    else garbage in
  let fr0 := MathExtra.negate3 M (MathExtra.scaleadd3 M k hist_temp gamma (vrl contact)) in
  let magfr := MathExtra.len3 M fr0 in
  let hf :=
    if Rltb Frcrit magfr then
      let rollmag := MathExtra.len3 M hist_temp in
      if negb (Reqb rollmag 0) then
        let temp_dbl := - Frcrit / (magfr * k) in
        let temp_array := MathExtra.scale3 M temp_dbl fr0 in
        let hist_temp := MathExtra.add3 M hist_temp temp_array in
        let temp_dbl := - gamma / k in
        let temp_array := MathExtra.scale3 M temp_dbl (vrl contact) in
        let hist_temp := MathExtra.add3 M hist_temp temp_array in
        let temp_dbl := Frcrit / magfr in
        (hist_temp, MathExtra.scale3 M temp_dbl fr0)
      else (hist_temp, MathExtra.zero3 M)
    else (hist_temp, fr0) in
  let hist_temp := fst hf in
  let history' :=
    store1 (store1 (store1 (history contact) rhist0 (c0 hist_temp)) rhist1 (c1 hist_temp))
           rhist2 (c2 hist_temp) in
  mkContactModel (vnnr contact) (meff contact) (area contact) (damp contact)
                 (knfac contact) (Fncrit contact) (history_update contact) history'
                 (nx contact) (vrl contact) (dt contact) (snd hf).

(** A contact with unit members and no rolling history. *)
Definition example : ContactModel :=
  mkContactModel 1 1 1 (1 / 2) 1 1 true (fun _ => 0) (0, 0, 1) (1, 0, 0) 1 (0, 0, 0).

End Contact.

(** The polynomial as the specification writes it. *)
Definition tsuji_polynomial_spec (t : R) : R :=
  (1.2728 - 4.2783 * t + 11.087 * t ^ 2 - 22.348 * t ^ 3 + 27.467 * t ^ 4
   - 18.022 * t ^ 5 + 4.8218 * t ^ 6)%R.

(** * Properties *)

Local Open Scope R_scope.

(** ** Branch conditions and array stores *)

Lemma Rltb_true (a b : R) : a < b -> Rltb a b = true.
Proof. intros H; unfold Rltb; destruct (Rlt_dec a b); [reflexivity | contradiction]. Qed.

Lemma Rltb_false (a b : R) : b <= a -> Rltb a b = false.
Proof. intros H; unfold Rltb; destruct (Rlt_dec a b); [lra | reflexivity]. Qed.

Lemma Rltb_lt (a b : R) : Rltb a b = true <-> a < b.
Proof.
  unfold Rltb; destruct (Rlt_dec a b); split; intros; try assumption;
    try reflexivity; try discriminate; contradiction.
Qed.

Lemma Reqb_true (a b : R) : a = b -> Reqb a b = true.
Proof. intros H; unfold Reqb; destruct (Req_dec_T a b); [reflexivity | contradiction]. Qed.

Lemma Reqb_false (a b : R) : a <> b -> Reqb a b = false.
Proof. intros H; unfold Reqb; destruct (Req_dec_T a b); [contradiction | reflexivity]. Qed.

Lemma store1_same (A : Type) (a : nat -> A) (i : nat) (v : A) : store1 a i v i = v.
Proof. unfold store1; now rewrite Nat.eqb_refl. Qed.

Lemma store1_other (A : Type) (a : nat -> A) (i k : nat) (v : A) :
  k <> i -> store1 a i v k = a k.
Proof. intros H; unfold store1; apply Nat.eqb_neq in H; now rewrite H. Qed.

Lemma store2_same (A : Type) (a : nat -> nat -> A) (i j : nat) (v : A) :
  store2 a i j v i j = v.
Proof. unfold store2; now rewrite !Nat.eqb_refl. Qed.

Lemma store2_other (A : Type) (a : nat -> nat -> A) (i j k l : nat) (v : A) :
  (k, l) <> (i, j) -> store2 a i j v k l = a k l.
Proof.
  intros H; unfold store2.
  destruct (Nat.eqb_spec k i), (Nat.eqb_spec l j); simpl; try reflexivity.
  subst; now elim H.
Qed.

(** ** Loops, folds and sorted lists *)

Lemma for_loop_S (St : Type) (n : nat) (body : nat -> St -> St) (s : St) :
  for_loop (S n) body s = body n (for_loop n body s).
Proof. unfold for_loop. now rewrite seq_S, fold_left_app. Qed.

Lemma for_loop_invariant (St : Type) (P : nat -> St -> Prop) (n : nat)
    (body : nat -> St -> St) (s : St) :
  P 0%nat s ->
  (forall k acc, (k < n)%nat -> P k acc -> P (S k) (body k acc)) ->
  P n (for_loop n body s).
Proof.
  intros H0 Hstep. induction n as [| n IH]; [exact H0 |].
  rewrite for_loop_S. apply Hstep; [lia |]. apply IH. intros; apply Hstep; [lia | assumption].
Qed.

Lemma for_loop_related (St : Type) (Rel : St -> St -> Prop) (n : nat)
    (body : nat -> St -> St) (s1 s2 : St) :
  Rel s1 s2 ->
  (forall k u v, (k < n)%nat -> Rel u v -> Rel (body k u) (body k v)) ->
  Rel (for_loop n body s1) (for_loop n body s2).
Proof.
  intros H0 Hstep. induction n as [| n IH]; [exact H0 |].
  rewrite !for_loop_S. apply Hstep; [lia |]. apply IH. intros; apply Hstep; [lia | assumption].
Qed.

Lemma fold_left_ext (A St : Type) (F G : St -> A -> St) (l : list A) (s : St) :
  (forall acc v, F acc v = G acc v) -> fold_left F l s = fold_left G l s.
Proof.
  intros HFG. revert s. induction l as [| v l IH]; intros s; simpl;
    [reflexivity | now rewrite HFG, IH].
Qed.

Lemma fold_left_map (A B St : Type) (step : St -> B -> St) (g : A -> B)
    (l : list A) (s : St) :
  fold_left step (List.map g l) s = fold_left (fun acc u => step acc (g u)) l s.
Proof. revert s. induction l as [| u l IH]; intros s; simpl; [reflexivity | apply IH]. Qed.

Lemma fold_left_flat_map (A B St : Type) (step : St -> B -> St) (g : A -> list B)
    (l : list A) (s : St) :
  fold_left step (flat_map g l) s = fold_left (fun acc u => fold_left step (g u) acc) l s.
Proof.
  revert s. induction l as [| u l IH]; intros s; simpl; [reflexivity |].
  now rewrite fold_left_app, IH.
Qed.

Lemma fold_left_invariant (A St : Type) (P : St -> Prop) (F : St -> A -> St)
    (l : list A) (s : St) :
  P s -> (forall acc v, P acc -> P (F acc v)) -> P (fold_left F l s).
Proof.
  intros Hs HF. revert s Hs. induction l as [| v l IH]; intros s Hs; simpl;
    [exact Hs | apply IH, HF, Hs].
Qed.

Lemma fold_left_related_In (A St : Type) (Rel : St -> St -> Prop) (F : St -> A -> St)
    (xs : list A) (s1 s2 : St) :
  Rel s1 s2 ->
  (forall u v y, List.In y xs -> Rel u v -> Rel (F u y) (F v y)) ->
  Rel (fold_left F xs s1) (fold_left F xs s2).
Proof.
  revert s1 s2. induction xs as [| y xs IH]; intros s1 s2 H0 Hstep; simpl; [exact H0 |].
  apply IH.
  - apply Hstep; [now left | exact H0].
  - intros u v z Hz. apply Hstep. now right.
Qed.

Lemma seq_sorted (a n : nat) : StronglySorted lt (seq a n).
Proof.
  revert a. induction n as [| n IH]; intros a; simpl; constructor; [apply IH |].
  apply Forall_forall. intros v Hv. apply in_seq in Hv. lia.
Qed.

Lemma map_seq_sorted (g : nat -> Z) (a n : nat) :
  (forall s t, (s < t)%nat -> (g s < g t)%Z) ->
  StronglySorted Z.lt (List.map g (seq a n)).
Proof.
  intros Hg. revert a. induction n as [| n IH]; intros a; simpl; constructor.
  - apply IH.
  - apply Forall_forall. intros v Hv. apply in_map_iff in Hv.
    destruct Hv as (t & <- & Ht). apply in_seq in Ht. apply Hg. lia.
Qed.

Lemma sorted_app (A : Type) (lt : A -> A -> Prop) (l1 l2 : list A) :
  StronglySorted lt l1 -> StronglySorted lt l2 ->
  (forall u v, List.In u l1 -> List.In v l2 -> lt u v) ->
  StronglySorted lt (l1 ++ l2).
Proof.
  intros H1 H2 H12. induction H1 as [| u l1 H1 IH Hu]; simpl; [exact H2 |].
  constructor.
  - apply IH. intros; apply H12; simpl; tauto.
  - apply Forall_app; split; [exact Hu |].
    apply Forall_forall; intros v Hv. apply H12; simpl; tauto.
Qed.

Lemma sorted_flat_map (A B : Type) (ltA : A -> A -> Prop) (ltB : B -> B -> Prop)
    (g : A -> list B) (l : list A) :
  StronglySorted ltA l ->
  (forall u, List.In u l -> StronglySorted ltB (g u)) ->
  (forall u u' v v', ltA u u' -> List.In v (g u) -> List.In v' (g u') -> ltB v v') ->
  StronglySorted ltB (flat_map g l).
Proof.
  intros Hl Hg Hlt. induction Hl as [| u l Hl IH Hu]; simpl; [constructor |].
  apply sorted_app.
  - apply Hg; simpl; tauto.
  - apply IH; intros; apply Hg; simpl; tauto.
  - intros v v' Hv Hv'. apply in_flat_map in Hv'. destruct Hv' as (u' & Hu' & Hv').
    rewrite Forall_forall in Hu. eapply Hlt; eauto.
Qed.

Lemma sorted_filter (A : Type) (lt : A -> A -> Prop) (keep : A -> bool) (l : list A) :
  StronglySorted lt l -> StronglySorted lt (filter keep l).
Proof.
  induction 1 as [| u l Hl IH Hu]; simpl; [constructor |].
  destruct (keep u); [| exact IH]. constructor; [exact IH |].
  rewrite Forall_forall in *. intros v Hv. apply filter_In in Hv. now apply Hu.
Qed.

Lemma sorted_NoDup (A : Type) (lt : A -> A -> Prop) (l : list A) :
  (forall u, ~ lt u u) -> StronglySorted lt l -> NoDup l.
Proof.
  intros Hirr. induction 1 as [| u l Hl IH Hu]; constructor; [| exact IH].
  intros Hin. rewrite Forall_forall in Hu. exact (Hirr u (Hu u Hin)).
Qed.

(** ** Results and vectors *)

Lemma OK_pair_inj (A B : Type) (u u' : A) (v v' : B) :
  OK (u, v) = OK (u', v') -> u = u' /\ v = v'.
Proof. intros H; injection H; auto. Qed.

Lemma vec3_ext (u v : vec3) : c0 u = c0 v -> c1 u = c1 v -> c2 u = c2 v -> u = v.
Proof.
  destruct u as [[ux uy] uz], v as [[vx vy] vz]. unfold c0, c1, c2; simpl.
  now intros -> -> ->.
Qed.



(** ** C9: the pair styles take no global settings *)

(** C9.  [PairSMATB::settings] and [CPairPOD::settings] end in a fatal error
    exactly when [narg > 0]; with [narg = 0] they return with the pair style
    unchanged. *)
Theorem settings_fatal_iff_args (narg : Z) (c : PairSMATB.pair) (d : CPairPOD.pair) :
  (is_fatal (PairSMATB.settings c narg) = true <-> (narg > 0)%Z) /\
  (is_fatal (CPairPOD.settings d narg) = true <-> (narg > 0)%Z) /\
  PairSMATB.settings c 0 = OK c /\
  CPairPOD.settings d 0 = OK d.
Proof.
  unfold PairSMATB.settings, CPairPOD.settings.
  repeat split; try reflexivity; destruct (Z.gtb_spec narg 0); simpl;
    intros; try reflexivity; try discriminate; lia.
Qed.

(** ** C10: one Tsuji polynomial in both granular packages *)

Lemma powint_pos (t : R) (n : positive) :
  MathSpecial.powint t (Z.pos n) = t ^ Pos.to_nat n.
Proof.
  unfold MathSpecial.powint; simpl.
  destruct (Req_dec_T t 0) as [E | E].
  - rewrite Reqb_true by assumption. subst t.
    rewrite pow_ne_zero; [reflexivity | lia].
  - now rewrite Reqb_false by assumption.
Qed.

(** C10.  For every value [t] of the normal model's damping constant,
    [GranSubModDampingTsuji::init] and [DampingTsuji::coeffs_to_local] compute
    the same [damp], and it is the sixth-degree polynomial
    1.2728 - 4.2783 t + 11.087 t^2 - 22.348 t^3 + 27.467 t^4 - 18.022 t^5
    + 4.8218 t^6. *)
Theorem tsuji_damping_same_polynomial (t : R) :
  GranSubModDampingTsuji.init t = DampingTsuji.coeffs_to_local t /\
  GranSubModDampingTsuji.init t = tsuji_polynomial_spec t /\
  DampingTsuji.coeffs_to_local t = tsuji_polynomial_spec t.
Proof.
  assert (E : GranSubModDampingTsuji.init t = tsuji_polynomial_spec t).
  { unfold GranSubModDampingTsuji.init, tsuji_polynomial_spec.
    rewrite !powint_pos. unfold MathSpecial.square, MathSpecial.cube.
    change (Pos.to_nat 4) with 4%nat; change (Pos.to_nat 5) with 5%nat;
      change (Pos.to_nat 6) with 6%nat.
    lra. }
  repeat split; try exact E; reflexivity.
Qed.

(** ** C3: [init_one] leaves the pair (i,j) symmetric *)

Section InitOne.
Import PairSMATB.

Lemma tab_put (c : pair) (t t' : param) (i j k l : nat) (v : R) :
  tab (put c t i j v) t' k l
  = if (param_eqb t' t && (Nat.eqb k i && Nat.eqb l j))%bool then v else tab c t' k l.
Proof. reflexivity. Qed.

Lemma param_eqb_refl (t : param) : param_eqb t t = true.
Proof. destruct t; reflexivity. Qed.

Lemma tab_put_same (c : pair) (t : param) (i j : nat) (v : R) :
  tab (put c t i j v) t i j = v.
Proof. now rewrite tab_put, param_eqb_refl, !Nat.eqb_refl. Qed.

Lemma tab_put_other_index (c : pair) (t t' : param) (i j k l : nat) (v : R) :
  (k, l) <> (i, j) -> tab (put c t i j v) t' k l = tab c t' k l.
Proof.
  intros H. rewrite tab_put.
  destruct (Nat.eqb_spec k i), (Nat.eqb_spec l j); rewrite ?andb_false_r; try reflexivity.
  subst; now elim H.
Qed.

Lemma tab_put_other_param (c : pair) (t t' : param) (i j k l : nat) (v : R) :
  param_eqb t' t = false -> tab (put c t i j v) t' k l = tab c t' k l.
Proof. intros H. now rewrite tab_put, H. Qed.

Lemma smatb_init_one_unset (c : pair) (i j : nat) :
  setflag c i j = 0%Z -> init_one c i j = Fatal "All pair coeffs are not set".
Proof. intros H; unfold init_one; rewrite H; reflexivity. Qed.

(** What [mirror] leaves: every array symmetric at (i,j), nothing else
    touched but [setflag[j][i]]. *)
Lemma mirror_fold (i j : nat) (l : list param) :
  i <> j ->
  forall c0,
    let c' := fold_left (fun c t => put c t j i (tab c t i j)) l c0 in
    setflag c' = setflag c0 /\
    (forall t k m, (k, m) <> (j, i) -> tab c' t k m = tab c0 t k m) /\
    (forall t, List.In t l -> tab c' t j i = tab c0 t i j) /\
    (forall t, ~ List.In t l -> tab c' t j i = tab c0 t j i).
Proof.
  intros Hij. induction l as [| t l IH]; intros c0; simpl.
  - repeat split; try reflexivity. intros t [].
  - destruct (IH (put c0 t j i (tab c0 t i j))) as (F & Oth & In1 & In2).
    assert (Hne : (i, j) <> (j, i)) by (intros E; injection E; auto).
    repeat split.
    + exact F.
    + intros t' k m Hkm. rewrite Oth by exact Hkm. now apply tab_put_other_index.
    + intros t' [<- | Hin].
      * destruct (in_dec (fun u v : param =>
                            ltac:(decide equality) : {u = v} + {u <> v}) t l) as [Hl | Hl].
        -- rewrite In1 by exact Hl. now apply tab_put_other_index.
        -- rewrite In2 by exact Hl. apply tab_put_same.
      * rewrite In1 by exact Hin. now apply tab_put_other_index.
    + intros t' Hnin. rewrite In2 by tauto. apply tab_put_other_param.
      destruct t', t; try reflexivity; exfalso; apply Hnin; now left.
Qed.

Lemma mirror_spec (c : pair) (i j : nat) :
  i <> j ->
  setflag (mirror c i j) = store2 (setflag c) j i 1%Z /\
  (forall t k m, (k, m) <> (j, i) -> tab (mirror c i j) t k m = tab c t k m) /\
  (forall t, tab (mirror c i j) t j i = tab c t i j).
Proof.
  intros Hij. unfold mirror.
  destruct (mirror_fold mirrored Hij (set_setflag c j i 1%Z)) as (F & Oth & In1 & _).
  split; [exact F | split; [exact Oth |]].
  intros t. apply In1. destruct t; simpl; tauto.
Qed.

(** What [derive] leaves at (i,j): the raw parameters as they were, and the
    derived ones as functions of them. *)
Lemma derive_spec (c : pair) (i j : nat) :
  let c' := derive c i j in
  let es := tab c cutOffEnd i j - tab c cutOffStart i j in
  let Ep := tab c A i j * exp (tab c p i j * (1 - tab c cutOffStart i j / tab c r0 i j)) in
  let Eq := tab c QSI i j * exp (tab c q i j * (1 - tab c cutOffStart i j / tab c r0 i j)) in
  let ap := -1 / (es * es * es) in
  let bp := tab c p i j / (tab c r0 i j * (es * es)) in
  let cp := - (tab c p i j * tab c p i j) / (es * tab c r0 i j * tab c r0 i j) in
  let bq := tab c q i j / ((es * es) * tab c r0 i j) in
  let cq := - (tab c q i j * tab c q i j) / (es * tab c r0 i j * tab c r0 i j) in
  setflag c' = setflag c /\
  (forall t k m, (k, m) <> (i, j) -> tab c' t k m = tab c t k m) /\
  (forall t, List.In t raw_params -> tab c' t i j = tab c t i j) /\
  tab c' a5 i j = Ep * (12 * ap + 6 * bp + cp) / (2 * (es * es)) /\
  tab c' a4 i j = Ep * (15 * ap + 7 * bp + cp) / es /\
  tab c' a3 i j = Ep * (20 * ap + 8 * bp + cp) / 2 /\
  tab c' x5 i j = Eq * (12 * ap + 6 * bq + cq) / (2 * (es * es)) /\
  tab c' x4 i j = Eq * (15 * ap + 7 * bq + cq) / es /\
  tab c' x3 i j = Eq * (20 * ap + 8 * bq + cq) / 2 /\
  tab c' cutOffEnd2 i j = tab c cutOffEnd i j * tab c cutOffEnd i j.
Proof.
  cbv zeta. unfold derive. cbv zeta.
  repeat split.
  - intros t k m H. rewrite !tab_put_other_index by exact H. reflexivity.
  - intros t [<- | [<- | [<- | [<- | [<- | [<- | [<- | []]]]]]]];
      rewrite !tab_put_other_param by reflexivity; reflexivity.
  - rewrite !(@tab_put_other_param _ _ a5) by reflexivity. rewrite tab_put_same. reflexivity.
  - rewrite !(@tab_put_other_param _ _ a4) by reflexivity. rewrite tab_put_same. reflexivity.
  - rewrite !(@tab_put_other_param _ _ a3) by reflexivity. rewrite tab_put_same. reflexivity.
  - rewrite !(@tab_put_other_param _ _ x5) by reflexivity. rewrite tab_put_same.
    rewrite !tab_put_other_param by reflexivity. reflexivity.
  - rewrite !(@tab_put_other_param _ _ x4) by reflexivity. rewrite tab_put_same.
    rewrite !tab_put_other_param by reflexivity. reflexivity.
  - rewrite !(@tab_put_other_param _ _ x3) by reflexivity. rewrite tab_put_same.
    rewrite !tab_put_other_param by reflexivity. reflexivity.
  - rewrite tab_put_same. rewrite !tab_put_other_param by reflexivity. reflexivity.
Qed.

(** The state [init_one] returns: at (i,j) it is [derive]'s, and (j,i) mirrors
    it. *)
Lemma smatb_init_one_mirror (c c' : pair) (i j : nat) (cut : R) :
  init_one c i j = OK (cut, c') ->
  cut = tab c cutOffEnd i j /\
  setflag c' i j <> 0%Z /\
  setflag c' j i <> 0%Z /\
  (forall t, tab c' t j i = tab c' t i j) /\
  (forall t, tab c' t i j = tab (derive c i j) t i j).
Proof.
  unfold init_one.
  destruct (Z.eqb_spec (setflag c i j) 0) as [E | E]; [discriminate |].
  destruct (derive_spec c i j) as (F & _ & Raw & _). cbv zeta in F, Raw.
  destruct (Nat.eqb_spec i j) as [-> | Hij]; simpl negb; cbv iota zeta;
    intros H; apply OK_pair_inj in H; destruct H as [Hcut Hc]; subst c'.
  - rewrite F. split; [| tauto].
    rewrite <- Hcut. apply Raw. simpl; tauto.
  - destruct (mirror_spec (derive c i j) Hij) as (Fm & Oth & Sym).
    assert (Hne : (i, j) <> (j, i)) by (intros E'; injection E'; auto).
    assert (At : forall t, tab (mirror (derive c i j) i j) t i j = tab (derive c i j) t i j)
      by (intros t; now apply Oth).
    split; [| split; [| split; [| split]]].
    + rewrite <- Hcut, At. apply Raw. simpl; tauto.
    + rewrite Fm, store2_other, F by exact Hne. exact E.
    + rewrite Fm, store2_same. lia.
    + intros t. now rewrite Sym, At.
    + exact At.
Qed.

Lemma smatb_init_one_set (c : pair) (i j : nat) :
  setflag c i j <> 0%Z -> exists cut c', init_one c i j = OK (cut, c').
Proof.
  intros H. unfold init_one.
  destruct (Z.eqb_spec (setflag c i j) 0) as [E | _]; [contradiction |].
  eexists; eexists; reflexivity.
Qed.

End InitOne.

(** C3.  When the pair (i,j) is configured, [PairSMATB::init_one(i,j)] returns
    a cutoff and leaves every coefficient array symmetric at (i,j); calling
    [init_one(j,i)] next returns the same cutoff.  [CPairPOD::init_one(i,j)]
    returns [rcut] and leaves [scale] symmetric at (i,j), and with (j,i)
    configured too [init_one(j,i)] returns the same [rcut]. *)
Theorem init_one_symmetric (c : PairSMATB.pair) (d : CPairPOD.pair) (i j : nat) :
  (PairSMATB.setflag c i j <> 0%Z ->
   exists cut c',
     PairSMATB.init_one c i j = OK (cut, c') /\
     (forall t, PairSMATB.tab c' t j i = PairSMATB.tab c' t i j) /\
     exists c'', PairSMATB.init_one c' j i = OK (cut, c'')) /\
  (CPairPOD.setflag d i j <> 0%Z -> CPairPOD.setflag d j i <> 0%Z ->
   exists d',
     CPairPOD.init_one d i j = OK (CPairPOD.rcut d, d') /\
     CPairPOD.scale d' j i = CPairPOD.scale d' i j /\
     exists d'', CPairPOD.init_one d' j i = OK (CPairPOD.rcut d, d'')).
Proof.
  split.
  - intros Hset.
    destruct (smatb_init_one_set c i j Hset) as (cut & c' & E1).
    destruct (smatb_init_one_mirror _ _ _ E1) as (Hcut & _ & Hji & Hsym & Hat).
    exists cut, c'. split; [exact E1 | split; [exact Hsym |]].
    destruct (smatb_init_one_set c' j i Hji) as (cut2 & c'' & E2).
    exists c''. rewrite E2.
    destruct (smatb_init_one_mirror _ _ _ E2) as (Hcut2 & _).
    destruct (derive_spec c i j) as (_ & _ & Raw & _). cbv zeta in Raw.
    rewrite Hcut2, Hsym, Hat, Raw, <- Hcut by (simpl; tauto). reflexivity.
  - intros Hij Hji. unfold CPairPOD.init_one.
    destruct (Z.eqb_spec (CPairPOD.setflag d i j) 0) as [E | _]; [contradiction |].
    eexists; split; [reflexivity | split].
    + simpl. rewrite store2_same.
      destruct (Nat.eq_dec i j) as [-> | N]; [now rewrite store2_same |].
      rewrite store2_other; [reflexivity | intros E; injection E; auto].
    + simpl. destruct (Z.eqb_spec (CPairPOD.setflag d j i) 0) as [E | _]; [contradiction |].
      eexists; reflexivity.
Qed.

(** ** C2: the switching polynomials meet the exponentials *)

Section Switching.
Import PairSMATB.

Lemma derivable_pt_lim_ext (g h : R -> R) (x l m : R) :
  (forall y, g y = h y) -> l = m -> derivable_pt_lim g x l -> derivable_pt_lim h x m.
Proof.
  intros Hgh -> H eps Heps. destruct (H eps Heps) as [d Hd].
  exists d; intros t Ht0 Ht. rewrite <- !Hgh. now apply Hd.
Qed.

Lemma shift_pow_deriv (e x : R) (n : nat) :
  derivable_pt_lim (comp (fun y => y ^ n) (id - fct_cte e)%F) x
                   (INR n * (x - e) ^ pred n * (1 - 0)).
Proof.
  apply (derivable_pt_lim_comp (id - fct_cte e)%F (fun y => y ^ n)).
  - apply derivable_pt_lim_minus; [apply derivable_pt_lim_id | apply derivable_pt_lim_const].
  - apply derivable_pt_lim_pow.
Qed.

(** [dpoly345] is the derivative of [poly345]. *)
Lemma poly345_deriv (k3 k4 k5 e x : R) :
  derivable_pt_lim (fun r => poly345 k3 k4 k5 (r - e)) x (dpoly345 k3 k4 k5 (x - e)).
Proof.
  eapply derivable_pt_lim_ext with
    (g := (mult_real_fct k5 (comp (fun y => y ^ 5) (id - fct_cte e))
           + mult_real_fct k4 (comp (fun y => y ^ 4) (id - fct_cte e))
           + mult_real_fct k3 (comp (fun y => y ^ 3) (id - fct_cte e)))%F).
  3:{ repeat apply derivable_pt_lim_plus; apply derivable_pt_lim_scal;
      apply shift_pow_deriv. }
  - intros y. cbv [plus_fct mult_real_fct comp minus_fct id fct_cte poly345]. ring.
  - cbv [dpoly345]. simpl. ring.
Qed.

Lemma dpoly345_deriv (k3 k4 k5 e x : R) :
  derivable_pt_lim (fun r => dpoly345 k3 k4 k5 (r - e)) x
    (20 * k5 * (x - e) ^ 3 + 12 * k4 * (x - e) ^ 2 + 6 * k3 * (x - e)).
Proof.
  eapply derivable_pt_lim_ext with
    (g := (mult_real_fct (5 * k5) (comp (fun y => y ^ 4) (id - fct_cte e))
           + mult_real_fct (4 * k4) (comp (fun y => y ^ 3) (id - fct_cte e))
           + mult_real_fct (3 * k3) (comp (fun y => y ^ 2) (id - fct_cte e)))%F).
  3:{ repeat apply derivable_pt_lim_plus; apply derivable_pt_lim_scal;
      apply shift_pow_deriv. }
  - intros y. cbv [plus_fct mult_real_fct comp minus_fct id fct_cte dpoly345]. ring.
  - simpl. ring.
Qed.

(** The derivative of [k * exp (a * (1 - r / r0))] in [r]. *)
Lemma expo_deriv (k a r x : R) :
  derivable_pt_lim (fun d => k * exp (a * (1 - d / r))) x
                   (- (a / r) * (k * exp (a * (1 - x / r)))).
Proof.
  pose (u := (fct_cte a * (fct_cte 1 - mult_real_fct (/ r) id))%F).
  assert (Hu : derivable_pt_lim u x (- (a * / r))).
  { unfold u. eapply derivable_pt_lim_ext.
    3:{ apply derivable_pt_lim_mult; [apply derivable_pt_lim_const |].
        apply derivable_pt_lim_minus; [apply derivable_pt_lim_const |].
        apply derivable_pt_lim_scal. apply derivable_pt_lim_id. }
    - reflexivity.
    - cbv [fct_cte minus_fct mult_real_fct id]. ring. }
  eapply derivable_pt_lim_ext with (g := mult_real_fct k (comp exp u)).
  3:{ apply derivable_pt_lim_scal.
      apply derivable_pt_lim_comp; [exact Hu | apply derivable_pt_lim_exp]. }
  - intros y. cbv [mult_real_fct comp u mult_fct minus_fct fct_cte id Rdiv].
    f_equal. f_equal. ring.
  - cbv [u mult_fct minus_fct fct_cte mult_real_fct id Rdiv].
    replace (a * (1 - / r * x)) with (a * (1 - x * / r)) by ring. ring.
Qed.

(** The three matching conditions at [polyval = -es], for coefficients built
    as in [init_one] from the value [E] at the start of the switch, the
    logarithmic slope [w] and the width [es]. *)
Lemma switch_coefficients (E w es ap bp cp : R) :
  es <> 0 ->
  ap = - / (es * es * es) -> bp = w * / (es * es) -> cp = - (w * w) * / es ->
  let k5 := E * (12 * ap + 6 * bp + cp) / (2 * (es * es)) in
  let k4 := E * (15 * ap + 7 * bp + cp) / es in
  let k3 := E * (20 * ap + 8 * bp + cp) / 2 in
  poly345 k3 k4 k5 (- es) = E /\
  dpoly345 k3 k4 k5 (- es) = - w * E /\
  20 * k5 * (- es) ^ 3 + 12 * k4 * (- es) ^ 2 + 6 * k3 * (- es) = w * w * E.
Proof.
  intros Hes -> -> ->; cbv [poly345 dpoly345]; repeat split; field; exact Hes.
Qed.

(** The six derived coefficients [init_one] stores at (i,j), in terms of the
    value of the two exponentials at [cutOffStart], their logarithmic slopes
    [p/r0] and [q/r0], and the width of the switching interval. *)
Lemma smatb_init_one_coeffs (c c' : pair) (i j : nat) (cut : R) :
  init_one c i j = OK (cut, c') ->
  tab c cutOffStart i j < tab c cutOffEnd i j ->
  let s := tab c cutOffStart i j in
  let e := tab c cutOffEnd i j in
  let wp := tab c p i j / tab c r0 i j in
  let wq := tab c q i j / tab c r0 i j in
  let Ep := tab c A i j * exp (tab c p i j * (1 - s / tab c r0 i j)) in
  let Eq := tab c QSI i j * exp (tab c q i j * (1 - s / tab c r0 i j)) in
  let P := poly345 (tab c' a3 i j) (tab c' a4 i j) (tab c' a5 i j) in
  let P' := dpoly345 (tab c' a3 i j) (tab c' a4 i j) (tab c' a5 i j) in
  let X := poly345 (tab c' x3 i j) (tab c' x4 i j) (tab c' x5 i j) in
  let X' := dpoly345 (tab c' x3 i j) (tab c' x4 i j) (tab c' x5 i j) in
  (P (s - e) = Ep /\ P' (s - e) = - wp * Ep /\
   20 * tab c' a5 i j * (s - e) ^ 3 + 12 * tab c' a4 i j * (s - e) ^ 2
   + 6 * tab c' a3 i j * (s - e) = wp * wp * Ep) /\
  (X (s - e) = Eq /\ X' (s - e) = - wq * Eq /\
   20 * tab c' x5 i j * (s - e) ^ 3 + 12 * tab c' x4 i j * (s - e) ^ 2
   + 6 * tab c' x3 i j * (s - e) = wq * wq * Eq).
Proof.
  intros H Hse s e wp wq Ep Eq P P' X X'.
  assert (Hes : e - s <> 0) by (subst s e; lra).
  destruct (smatb_init_one_mirror _ _ _ H) as (_ & _ & _ & _ & Hat).
  destruct (derive_spec c i j) as (_ & _ & _ & E5 & E4 & E3 & F5 & F4 & F3 & _).
  cbv zeta in E5, E4, E3, F5, F4, F3. fold s e in E5, E4, E3, F5, F4, F3.
  replace (s - e) with (- (e - s)) by ring.
  split.
  - unfold P, P'. rewrite !Hat, E5, E4, E3.
    apply switch_coefficients; [exact Hes | | | ]; unfold wp, Rdiv;
      rewrite ?Rinv_mult; ring.
  - unfold X, X'. rewrite !Hat, F5, F4, F3.
    apply switch_coefficients; [exact Hes | | | ]; unfold wq, Rdiv;
      rewrite ?Rinv_mult; ring.
Qed.

Lemma exp_double (a t : R) : exp (2 * a * t) = exp (a * t) * exp (a * t).
Proof. rewrite <- exp_plus. f_equal. ring. Qed.

End Switching.

(** C2.  For a pair (i,j) that [init_one] accepted, with
    [cutOffStart < cutOffEnd]: the polynomials with coefficients (a3,a4,a5) and
    (x3,x4,x5) have at [cutOffStart] the value and the first derivative of
    [A exp(p (1 - r/r0))] and [QSI exp(q (1 - r/r0))], and value and first
    derivative zero at [cutOffEnd].  Hence the terms compute() switches
    between (the energy [aexpp], the squared attractive term, the force
    factors [Fb] and [Fr]) agree at [cutOffStart] on both branches, the force
    factors with their first derivative, and all of them vanish at
    [cutOffEnd], the force factors with zero derivative. *)
Theorem switching_matches_exponential (c c' : PairSMATB.pair) (i j : nat) (cut : R) :
  PairSMATB.init_one c i j = OK (cut, c') ->
  PairSMATB.tab c' PairSMATB.cutOffStart i j < PairSMATB.tab c' PairSMATB.cutOffEnd i j ->
  let s := PairSMATB.tab c' PairSMATB.cutOffStart i j in
  let e := PairSMATB.tab c' PairSMATB.cutOffEnd i j in
  let rep := fun r => PairSMATB.tab c' PairSMATB.A i j
                      * exp (PairSMATB.tab c' PairSMATB.p i j
                             * (1 - r / PairSMATB.tab c' PairSMATB.r0 i j)) in
  let att := fun r => PairSMATB.tab c' PairSMATB.QSI i j
                      * exp (PairSMATB.tab c' PairSMATB.q i j
                             * (1 - r / PairSMATB.tab c' PairSMATB.r0 i j)) in
  let prep := fun r => PairSMATB.poly345 (PairSMATB.tab c' PairSMATB.a3 i j)
                         (PairSMATB.tab c' PairSMATB.a4 i j)
                         (PairSMATB.tab c' PairSMATB.a5 i j) (r - e) in
  let patt := fun r => PairSMATB.poly345 (PairSMATB.tab c' PairSMATB.x3 i j)
                         (PairSMATB.tab c' PairSMATB.x4 i j)
                         (PairSMATB.tab c' PairSMATB.x5 i j) (r - e) in
  let Fb_poly := fun r => fst (PairSMATB.Fb_Fr_poly c' i j r) in
  let Fr_poly := fun r => snd (PairSMATB.Fb_Fr_poly c' i j r) in
  let Fb_exp := fun r => fst (PairSMATB.Fb_Fr_exp c' i j r) in
  let Fr_exp := fun r => snd (PairSMATB.Fb_Fr_exp c' i j r) in
  (prep s = rep s /\ exists d, derivable_pt_lim prep s d /\ derivable_pt_lim rep s d) /\
  (patt s = att s /\ exists d, derivable_pt_lim patt s d /\ derivable_pt_lim att s d) /\
  (prep e = 0 /\ derivable_pt_lim prep e 0) /\
  (patt e = 0 /\ derivable_pt_lim patt e 0) /\
  (PairSMATB.aexpp_poly c' i j s = PairSMATB.aexpp_exp c' i j s /\
   PairSMATB.qsiexpq1_poly c' i j s = PairSMATB.qsiexpq1_exp c' i j s /\
   PairSMATB.Fb_Fr_poly c' i j s = PairSMATB.Fb_Fr_exp c' i j s) /\
  (exists d, derivable_pt_lim Fb_poly s d /\ derivable_pt_lim Fb_exp s d) /\
  (exists d, derivable_pt_lim Fr_poly s d /\ derivable_pt_lim Fr_exp s d) /\
  (PairSMATB.aexpp_poly c' i j e = 0 /\
   PairSMATB.qsiexpq1_poly c' i j e = 0 /\
   PairSMATB.Fb_Fr_poly c' i j e = (0, 0)) /\
  derivable_pt_lim Fb_poly e 0 /\
  derivable_pt_lim Fr_poly e 0.
Proof.
  intros H Hse s e rep att prep patt Fb_poly Fr_poly Fb_exp Fr_exp.
  assert (Hraw : forall t, List.In t PairSMATB.raw_params ->
                          PairSMATB.tab c' t i j = PairSMATB.tab c t i j).
  { destruct (smatb_init_one_mirror _ _ _ H) as (_ & _ & _ & _ & Hat).
    destruct (derive_spec c i j) as (_ & _ & Raw & _).
    intros t Ht. rewrite Hat. now apply Raw. }
  assert (R0 := Hraw PairSMATB.r0 ltac:(simpl; tauto)).
  assert (RP := Hraw PairSMATB.p ltac:(simpl; tauto)).
  assert (RQ := Hraw PairSMATB.q ltac:(simpl; tauto)).
  assert (RA := Hraw PairSMATB.A ltac:(simpl; tauto)).
  assert (RX := Hraw PairSMATB.QSI ltac:(simpl; tauto)).
  assert (RS := Hraw PairSMATB.cutOffStart ltac:(simpl; tauto)).
  assert (RE := Hraw PairSMATB.cutOffEnd ltac:(simpl; tauto)).
  assert (Hse0 : PairSMATB.tab c PairSMATB.cutOffStart i j
                 < PairSMATB.tab c PairSMATB.cutOffEnd i j) by (rewrite <- RS, <- RE; exact Hse).
  pose proof (smatb_init_one_coeffs _ _ _ H Hse0) as K. cbv zeta in K.
  rewrite <- R0, <- RP, <- RQ, <- RA, <- RX, <- RS, <- RE in K.
  fold s e in K.
  destruct K as ((P0 & P1 & P2) & (X0 & X1 & X2)).
  set (wp := PairSMATB.tab c' PairSMATB.p i j / PairSMATB.tab c' PairSMATB.r0 i j) in *.
  set (wq := PairSMATB.tab c' PairSMATB.q i j / PairSMATB.tab c' PairSMATB.r0 i j) in *.
  set (a3 := PairSMATB.tab c' PairSMATB.a3 i j) in *.
  set (a4 := PairSMATB.tab c' PairSMATB.a4 i j) in *.
  set (a5 := PairSMATB.tab c' PairSMATB.a5 i j) in *.
  set (x3 := PairSMATB.tab c' PairSMATB.x3 i j) in *.
  set (x4 := PairSMATB.tab c' PairSMATB.x4 i j) in *.
  set (x5 := PairSMATB.tab c' PairSMATB.x5 i j) in *.
  assert (Z0 : forall k3 k4 k5, PairSMATB.poly345 k3 k4 k5 (e - e) = 0)
    by (intros; cbv [PairSMATB.poly345]; ring).
  assert (Z1 : forall k3 k4 k5, PairSMATB.dpoly345 k3 k4 k5 (e - e) = 0)
    by (intros; cbv [PairSMATB.dpoly345]; ring).
  assert (DP : forall y, derivable_pt_lim prep y (PairSMATB.dpoly345 a3 a4 a5 (y - e)))
    by (intros; apply poly345_deriv).
  assert (DX : forall y, derivable_pt_lim patt y (PairSMATB.dpoly345 x3 x4 x5 (y - e)))
    by (intros; apply poly345_deriv).
  assert (DFb : forall y, derivable_pt_lim Fb_poly y
            ((20 * x5 * (y - e) ^ 3 + 12 * x4 * (y - e) ^ 2 + 6 * x3 * (y - e))
               * PairSMATB.poly345 x3 x4 x5 (y - e)
             + PairSMATB.dpoly345 x3 x4 x5 (y - e) * PairSMATB.dpoly345 x3 x4 x5 (y - e))).
  { intros y.
    apply (derivable_pt_lim_mult (fun r => PairSMATB.dpoly345 x3 x4 x5 (r - e))
                                 (fun r => PairSMATB.poly345 x3 x4 x5 (r - e))).
    - apply dpoly345_deriv.
    - apply poly345_deriv. }
  assert (DFr : forall y, derivable_pt_lim Fr_poly y
            (-2 * (20 * a5 * (y - e) ^ 3 + 12 * a4 * (y - e) ^ 2 + 6 * a3 * (y - e)))).
  { intros y.
    apply (derivable_pt_lim_scal (fun r => PairSMATB.dpoly345 a3 a4 a5 (r - e))).
    apply dpoly345_deriv. }
  repeat match goal with |- _ /\ _ => split end.
  - exact P0.
  - exists (PairSMATB.dpoly345 a3 a4 a5 (s - e)); split; [apply DP |].
    eapply derivable_pt_lim_ext; [reflexivity | | apply expo_deriv].
    rewrite P1. unfold wp. ring.
  - exact X0.
  - exists (PairSMATB.dpoly345 x3 x4 x5 (s - e)); split; [apply DX |].
    eapply derivable_pt_lim_ext; [reflexivity | | apply expo_deriv].
    rewrite X1. unfold wq. ring.
  - apply Z0.
  - rewrite <- (Z1 a3 a4 a5). apply DP.
  - apply Z0.
  - rewrite <- (Z1 x3 x4 x5). apply DX.
  - unfold PairSMATB.aexpp_poly, PairSMATB.aexpp_exp. fold s e a3 a4 a5.
    rewrite P0. ring.
  - unfold PairSMATB.qsiexpq1_poly, PairSMATB.qsiexpq1_exp. fold s e x3 x4 x5.
    rewrite X0, exp_double. ring.
  - unfold PairSMATB.Fb_Fr_poly, PairSMATB.Fb_Fr_exp, PairSMATB.aexpp_exp.
    fold s e a3 a4 a5 x3 x4 x5.
    rewrite P1, X0, X1, exp_double. unfold wp, wq. f_equal; unfold Rdiv; ring.
  - eexists; split; [apply DFb |].
    eapply derivable_pt_lim_ext with
      (g := fun r => (- (PairSMATB.tab c' PairSMATB.QSI i j * PairSMATB.tab c' PairSMATB.QSI i j)
                      * wq)
                     * exp (2 * PairSMATB.tab c' PairSMATB.q i j
                            * (1 - r / PairSMATB.tab c' PairSMATB.r0 i j)));
      [ | | apply expo_deriv].
    + intros y. unfold Fb_exp, PairSMATB.Fb_Fr_exp, wq, Rdiv. simpl. ring.
    + rewrite X0, X1, X2, exp_double. unfold wq, Rdiv. ring.
  - eexists; split; [apply DFr |].
    eapply derivable_pt_lim_ext with
      (g := fun r => (2 * wp * PairSMATB.tab c' PairSMATB.A i j)
                     * exp (PairSMATB.tab c' PairSMATB.p i j
                            * (1 - r / PairSMATB.tab c' PairSMATB.r0 i j)));
      [ | | apply expo_deriv].
    + intros y. unfold Fr_exp, PairSMATB.Fb_Fr_exp, PairSMATB.aexpp_exp, wp, Rdiv.
      simpl. ring.
    + rewrite P2. unfold wp, Rdiv. ring.
  - unfold PairSMATB.aexpp_poly. apply Z0.
  - unfold PairSMATB.qsiexpq1_poly. fold e x3 x4 x5. rewrite Z0. ring.
  - unfold PairSMATB.Fb_Fr_poly. fold e a3 a4 a5 x3 x4 x5. rewrite !Z0, !Z1.
    f_equal; ring.
  - eapply derivable_pt_lim_ext; [reflexivity | | apply (DFb e)].
    rewrite Z0, Z1. ring.
  - eapply derivable_pt_lim_ext; [reflexivity | | apply (DFr e)].
    replace (e - e) with 0 by ring. simpl. ring.
Qed.

(** ** C5, C6: what [create] stores, and in which order *)

Section Stencil.
Import NStencilFullMultiOld3d.

Lemma in_zrange (lo hi v : Z) : List.In v (zrange lo hi) <-> (lo <= v <= hi)%Z.
Proof.
  unfold zrange. rewrite in_map_iff. split.
  - intros (t & <- & Ht). apply in_seq in Ht. lia.
  - intros Hv. exists (Z.to_nat (v - lo)). split; [lia | apply in_seq; lia].
Qed.

Lemma zrange_sorted (lo hi : Z) : StronglySorted Z.lt (zrange lo hi).
Proof. apply map_seq_sorted. intros; lia. Qed.

Lemma in_offsets (ns : nstencil) (o : Z * Z * Z) :
  List.In o (offsets ns) <-> in_extent ns o.
Proof.
  unfold offsets, in_extent. destruct o as [[i j] k]; simpl.
  rewrite in_flat_map. split.
  - intros (k' & Hk & H). apply in_flat_map in H. destruct H as (j' & Hj & H).
    apply in_map_iff in H. destruct H as (i' & E & Hi). injection E as <- <- <-.
    apply in_zrange in Hk, Hj, Hi. tauto.
  - intros (Hi & Hj & Hk). exists k. split; [now apply in_zrange |].
    apply in_flat_map. exists j. split; [now apply in_zrange |].
    apply in_map_iff. exists i. split; [reflexivity | now apply in_zrange].
Qed.

Lemma offsets_sorted (ns : nstencil) : StronglySorted loop_lt (offsets ns).
Proof.
  unfold offsets.
  apply sorted_flat_map with (ltA := Z.lt); [apply zrange_sorted | |].
  - intros k _. apply sorted_flat_map with (ltA := Z.lt); [apply zrange_sorted | |].
    + intros j _. induction (zrange_sorted (- sx ns) (sx ns)) as [| i l Hl IH Hi];
        simpl; constructor; [exact IH |].
      rewrite Forall_forall in *. intros o Ho. apply in_map_iff in Ho.
      destruct Ho as (i' & <- & Hi'). unfold loop_lt; simpl. right; split; [reflexivity |].
      right; split; [reflexivity | now apply Hi].
    + intros j j' o o' Hjj Ho Ho'. apply in_map_iff in Ho, Ho'.
      destruct Ho as (i & <- & _), Ho' as (i' & <- & _). unfold loop_lt; simpl.
      right; split; [reflexivity | now left].
  - intros k k' o o' Hkk Ho Ho'. apply in_flat_map in Ho, Ho'.
    destruct Ho as (j & _ & Ho), Ho' as (j' & _ & Ho').
    apply in_map_iff in Ho, Ho'.
    destruct Ho as (i & <- & _), Ho' as (i' & <- & _). unfold loop_lt; simpl. now left.
Qed.

Lemma loop_lt_irrefl (o : Z * Z * Z) : ~ loop_lt o o.
Proof. unfold loop_lt; lia. Qed.

Lemma in_selected (ns : nstencil) (itype : nat) (o : Z * Z * Z) :
  List.In o (selected ns itype) <-> in_extent ns o /\ dist ns o < cuttypesq ns itype.
Proof. unfold selected. now rewrite filter_In, in_offsets, Rltb_lt. Qed.

Lemma selected_sorted (ns : nstencil) (itype : nat) :
  StronglySorted loop_lt (selected ns itype).
Proof. apply sorted_filter, offsets_sorted. Qed.

Lemma same_geometry_refl (ns : nstencil) : same_geometry ns ns.
Proof. unfold same_geometry; tauto. Qed.

Lemma dist_same_geometry (ns ns' : nstencil) (o : Z * Z * Z) :
  same_geometry ns ns' -> dist ns' o = dist ns o.
Proof.
  intros (_ & _ & _ & _ & _ & Ex & Ey & Ez & _).
  unfold dist, bin_distance. now rewrite Ex, Ey, Ez.
Qed.

Lemma flat_same_geometry (ns ns' : nstencil) (o : Z * Z * Z) :
  same_geometry ns ns' -> flat ns' o = flat ns o.
Proof. intros (_ & _ & _ & Ex & Ey & _). unfold flat. now rewrite Ex, Ey. Qed.

(** The three nested loops are one pass over [offsets]. *)
Lemma create_type_loops (itype : nat) (ns : nstencil) :
  create_type itype ns =
  let sn := fold_left (fun sn o => visit itype (cuttypesq ns itype) o sn) (offsets ns)
                      (ns, 0%nat) in
  mkStencil (sx (fst sn)) (sy (fst sn)) (sz (fst sn)) (mbinx (fst sn)) (mbiny (fst sn))
            (binsizex (fst sn)) (binsizey (fst sn)) (binsizez (fst sn))
            (cuttypesq (fst sn))
            (stencil_multi_old (fst sn)) (distsq_multi_old (fst sn))
            (store1 (nstencil_multi_old (fst sn)) itype (snd sn)).
Proof.
  unfold create_type, offsets, for_z.
  rewrite fold_left_flat_map.
  erewrite fold_left_ext; [reflexivity |].
  intros acc k; simpl. rewrite fold_left_flat_map.
  apply fold_left_ext. intros acc' j; simpl. rewrite fold_left_map. reflexivity.
Qed.

(** What the pass leaves in the rows, counting from the entry index [n] it
    starts at. *)
Lemma visit_fold (itype : nat) (typesq : R) (ns0 : nstencil) (l : list (Z * Z * Z)) :
  forall (ns : nstencil) (n : nat),
    same_geometry ns0 ns ->
    let keep := filter (fun o => Rltb (dist ns0 o) typesq) l in
    let r := fold_left (fun sn o => visit itype typesq o sn) l (ns, n) in
    same_geometry ns0 (fst r) /\
    snd r = (n + List.length keep)%nat /\
    nstencil_multi_old (fst r) = nstencil_multi_old ns /\
    (forall t m, t <> itype \/ (m < n)%nat ->
       stencil_multi_old (fst r) t m = stencil_multi_old ns t m /\
       distsq_multi_old (fst r) t m = distsq_multi_old ns t m) /\
    (forall m, (m < List.length keep)%nat ->
       stencil_multi_old (fst r) itype (n + m) = flat ns0 (nth m keep (0, 0, 0)%Z) /\
       distsq_multi_old (fst r) itype (n + m) = dist ns0 (nth m keep (0, 0, 0)%Z)).
Proof.
  induction l as [| o l IH]; intros ns n Hg; simpl.
  - repeat split; try assumption; try apply Hg; try lia.
  - assert (Ev : visit itype typesq o (ns, n)
                 = if Rltb (dist ns0 o) typesq
                   then push itype (dist ns0 o) (flat ns0 o) (ns, n) else (ns, n)).
    { unfold visit; simpl fst.
      now rewrite (dist_same_geometry o Hg), (flat_same_geometry o Hg). }
    rewrite Ev. clear Ev.
    destruct (Rltb (dist ns0 o) typesq) eqn:Ekeep.
    + unfold push; simpl fst; simpl snd.
      match goal with |- context [fold_left _ l (?ns1, S n)] => set (ns' := ns1) end.
      assert (Hg' : same_geometry ns0 ns') by (unfold same_geometry in *; simpl; tauto).
      destruct (IH ns' (S n) Hg') as (G & N & C & Old & New).
      split; [exact G |]. split; [rewrite N; simpl; lia |]. split; [exact C |]. split.
      * intros t m H.
        assert (Hne : (t, m) <> (itype, n)).
        { intros E; injection E as E1 E2; destruct H as [H | H]; [contradiction | lia]. }
        destruct (Old t m) as [E1 E2]; [destruct H; [left | right]; auto; lia |].
        rewrite E1, E2. subst ns'; simpl. split; now apply store2_other.
      * intros m Hm. simpl in Hm. destruct m as [| m]; simpl.
        -- rewrite Nat.add_0_r. destruct (Old itype n) as [E1 E2]; [right; lia |].
           rewrite E1, E2. subst ns'; simpl. split; apply store2_same.
        -- replace (n + S m)%nat with (S n + m)%nat by lia. apply New. lia.
    + apply (IH ns n Hg).
Qed.

(** The rows of type [itype] after [create_type itype]. *)
Lemma create_type_rows (itype : nat) (ns : nstencil) :
  let ns' := create_type itype ns in
  same_geometry ns ns' /\
  nstencil_multi_old ns' itype = List.length (selected ns itype) /\
  (forall t, t <> itype -> nstencil_multi_old ns' t = nstencil_multi_old ns t) /\
  (forall t m, t <> itype ->
     stencil_multi_old ns' t m = stencil_multi_old ns t m /\
     distsq_multi_old ns' t m = distsq_multi_old ns t m) /\
  (forall m, (m < List.length (selected ns itype))%nat ->
     stencil_multi_old ns' itype m = flat ns (nth m (selected ns itype) (0, 0, 0)%Z) /\
     distsq_multi_old ns' itype m = dist ns (nth m (selected ns itype) (0, 0, 0)%Z)).
Proof.
  intros ns'. subst ns'. rewrite create_type_loops. cbv zeta.
  destruct (visit_fold itype (cuttypesq ns itype) (offsets ns) 0 (same_geometry_refl ns))
    as (G & N & C & Old & New).
  fold (selected ns itype) in N, New.
  simpl. repeat split; try apply G.
  - rewrite store1_same. exact N.
  - intros t Ht. rewrite store1_other by exact Ht. now rewrite C.
  - apply Old; now left.
  - apply Old; now left.
  - apply (New m H).
  - apply (New m H).
Qed.

Lemma same_geometry_trans (ns1 ns2 ns3 : nstencil) :
  same_geometry ns1 ns2 -> same_geometry ns2 ns3 -> same_geometry ns1 ns3.
Proof. unfold same_geometry. intuition congruence. Qed.

Lemma selected_same_geometry (ns ns' : nstencil) (itype : nat) :
  same_geometry ns ns' -> selected ns' itype = selected ns itype.
Proof.
  intros Hg. unfold selected.
  assert (E : offsets ns' = offsets ns).
  { destruct Hg as (Ex & Ey & Ez & _). unfold offsets. now rewrite Ex, Ey, Ez. }
  rewrite E. apply filter_ext. intros o. rewrite (dist_same_geometry o Hg).
  destruct Hg as (_ & _ & _ & _ & _ & _ & _ & _ & Ec). now rewrite Ec.
Qed.

Lemma create_types_keep (ns0 : nstencil) (itype : nat) (l : list nat) :
  forall ns, same_geometry ns0 ns -> ~ List.In itype l ->
    let ns' := fold_left (fun acc t => create_type t acc) l ns in
    same_geometry ns0 ns' /\
    nstencil_multi_old ns' itype = nstencil_multi_old ns itype /\
    forall m, stencil_multi_old ns' itype m = stencil_multi_old ns itype m /\
              distsq_multi_old ns' itype m = distsq_multi_old ns itype m.
Proof.
  induction l as [| t l IH]; intros ns Hg Hnin; simpl.
  - repeat split; apply Hg.
  - destruct (create_type_rows t ns) as (G & _ & C & Old & _).
    assert (Ht : itype <> t) by (intros ->; apply Hnin; simpl; tauto).
    destruct (IH (create_type t ns) (same_geometry_trans Hg G)) as (G' & C' & Old').
    { intros Hin; apply Hnin; simpl; tauto. }
    repeat split; try apply G'.
    + rewrite C'. now apply C.
    + rewrite (proj1 (Old' m)). now apply Old.
    + rewrite (proj2 (Old' m)). now apply Old.
Qed.

Lemma create_types_rows (ns0 : nstencil) (itype : nat) (l : list nat) :
  forall ns, same_geometry ns0 ns -> NoDup l -> List.In itype l ->
    rows_of ns0 (fold_left (fun acc t => create_type t acc) l ns) itype.
Proof.
  induction l as [| t l IH]; intros ns Hg Hnd Hin; simpl; [destruct Hin |].
  inversion Hnd as [| ? ? Hnin Hnd']; subst.
  destruct (create_type_rows t ns) as (G & N & _ & _ & New).
  destruct (Nat.eq_dec t itype) as [-> | Hne].
  - destruct (create_types_keep itype l (same_geometry_trans Hg G) Hnin) as (_ & C & Old).
    rewrite (selected_same_geometry itype Hg) in N, New.
    split.
    + now rewrite C.
    + intros m Hm. rewrite (proj1 (Old m)), (proj2 (Old m)).
      destruct (New m Hm) as [E1 E2].
      now rewrite E1, E2, (flat_same_geometry _ Hg), (dist_same_geometry _ Hg).
  - apply IH; [exact (same_geometry_trans Hg G) | exact Hnd' |].
    destruct Hin; [contradiction | assumption].
Qed.

Lemma create_rows (ns : nstencil) (ntypes itype : nat) :
  (1 <= itype <= ntypes)%nat -> rows_of ns (create ntypes ns) itype.
Proof.
  intros H. unfold create, for_range.
  apply create_types_rows; [apply same_geometry_refl | apply seq_NoDup | apply in_seq; lia].
Qed.

(** Along one axis, two points in bins [i] apart are at least as far apart as
    the gap [bin_distance] measures. *)
Lemma axis_gap (i : Z) (bs pa pb : R) :
  0 <= bs -> IZR 0 * bs <= pa <= IZR (0 + 1) * bs -> IZR i * bs <= pb <= IZR (i + 1) * bs ->
  let del := if (i >? 0)%Z then IZR (i - 1) * bs
             else if (i =? 0)%Z then 0 else IZR (i + 1) * bs in
  del * del <= (pb - pa) * (pb - pa).
Proof.
  intros Hbs Ha Hb. simpl in Ha. rewrite plus_IZR in Hb. cbv zeta.
  destruct (Z.gtb_spec i 0) as [Hi | Hi].
  - rewrite minus_IZR. assert (1 <= IZR i) by (apply IZR_le; lia).
    assert (G0 : 0 <= (IZR i - 1) * bs) by nra.
    apply Rmult_le_compat; lra.
  - destruct (Z.eqb_spec i 0) as [-> | Hi0];
      [rewrite Rmult_0_l; apply (Rle_0_sqr (pb - pa)) |].
    rewrite plus_IZR. assert (IZR i <= -1) by (apply IZR_le; lia).
    assert (G0 : 0 <= - ((IZR i + 1) * bs)) by nra.
    replace ((IZR i + 1) * bs * ((IZR i + 1) * bs))
      with (- ((IZR i + 1) * bs) * - ((IZR i + 1) * bs)) by ring.
    replace ((pb - pa) * (pb - pa)) with ((pa - pb) * (pa - pb)) by ring.
    apply Rmult_le_compat; lra.
Qed.

Lemma bin_distance_lower_bound (ns : nstencil) (o : Z * Z * Z) (pa pb : vec3) :
  0 <= binsizex ns -> 0 <= binsizey ns -> 0 <= binsizez ns ->
  in_bin ns (0, 0, 0)%Z pa -> in_bin ns o pb ->
  dist ns o <= normsq (vsub pb pa).
Proof.
  intros Hx Hy Hz (Ax & Ay & Az) (Bx & By & Bz).
  unfold dist, bin_distance, normsq, vsub; simpl in *.
  pose proof (axis_gap (fst (fst o)) Hx Ax Bx) as Gx.
  pose proof (axis_gap (snd (fst o)) Hy Ay By) as Gy.
  pose proof (axis_gap (snd o) Hz Az Bz) as Gz.
  cbv zeta in Gx, Gy, Gz.
  apply Rplus_le_compat; [apply Rplus_le_compat |]; assumption.
Qed.

(** Along one axis, a bin beyond the stencil extent [sa] is at least [sa] bin
    widths away. *)
Lemma axis_far (i sa : Z) (bs : R) :
  0 <= bs -> (0 <= sa)%Z -> ~ (- sa <= i <= sa)%Z ->
  let del := if (i >? 0)%Z then IZR (i - 1) * bs
             else if (i =? 0)%Z then 0 else IZR (i + 1) * bs in
  (IZR sa * bs) * (IZR sa * bs) <= del * del.
Proof.
  intros Hbs Hsa Hout. cbv zeta.
  assert (0 <= IZR sa) by (apply IZR_le; lia).
  destruct (Z.gtb_spec i 0) as [Hi | Hi].
  - assert (IZR sa <= IZR (i - 1)) by (apply IZR_le; lia).
    assert (0 <= IZR sa * bs) by nra.
    apply Rmult_le_compat; try lra; nra.
  - destruct (Z.eqb_spec i 0) as [-> | Hi0]; [lia |].
    assert (IZR sa <= - IZR (i + 1)) by (rewrite <- opp_IZR; apply IZR_le; lia).
    assert (0 <= IZR sa * bs) by nra.
    replace (IZR (i + 1) * bs * (IZR (i + 1) * bs))
      with (- IZR (i + 1) * bs * (- IZR (i + 1) * bs)) by ring.
    apply Rmult_le_compat; try lra; nra.
Qed.

(** A bin outside the scanned box is farther than a cutoff the box reaches. *)
Lemma outside_extent_far (ns : nstencil) (o : Z * Z * Z) (typesq : R) :
  0 <= binsizex ns -> 0 <= binsizey ns -> 0 <= binsizez ns ->
  (0 <= sx ns)%Z -> (0 <= sy ns)%Z -> (0 <= sz ns)%Z ->
  typesq <= (IZR (sx ns) * binsizex ns) * (IZR (sx ns) * binsizex ns) ->
  typesq <= (IZR (sy ns) * binsizey ns) * (IZR (sy ns) * binsizey ns) ->
  typesq <= (IZR (sz ns) * binsizez ns) * (IZR (sz ns) * binsizez ns) ->
  ~ in_extent ns o -> typesq <= dist ns o.
Proof.
  intros Hx Hy Hz Sx Sy Sz Cx Cy Cz Hout.
  unfold dist, bin_distance. cbv zeta.
  pose proof (fun H => @axis_far (fst (fst o)) (sx ns) (binsizex ns) Hx Sx H) as Fx.
  pose proof (fun H => @axis_far (snd (fst o)) (sy ns) (binsizey ns) Hy Sy H) as Fy.
  pose proof (fun H => @axis_far (snd o) (sz ns) (binsizez ns) Hz Sz H) as Fz.
  cbv zeta in Fx, Fy, Fz.
  match goal with |- _ <= ?X * ?X + ?Y * ?Y + ?Z * ?Z =>
    set (dx := X) in *; set (dy := Y) in *; set (dz := Z) in * end.
  pose proof (Rle_0_sqr dx) as Px. pose proof (Rle_0_sqr dy) as Py.
  pose proof (Rle_0_sqr dz) as Pz. unfold Rsqr in Px, Py, Pz.
  unfold in_extent in Hout.
  destruct (Z_le_dec (- sx ns) (fst (fst o))) as [X1 | X1];
    [| specialize (Fx ltac:(lia)); lra].
  destruct (Z_le_dec (fst (fst o)) (sx ns)) as [X2 | X2];
    [| specialize (Fx ltac:(lia)); lra].
  destruct (Z_le_dec (- sy ns) (snd (fst o))) as [Y1 | Y1];
    [| specialize (Fy ltac:(lia)); lra].
  destruct (Z_le_dec (snd (fst o)) (sy ns)) as [Y2 | Y2];
    [| specialize (Fy ltac:(lia)); lra].
  destruct (Z_le_dec (- sz ns) (snd o)) as [Z1 | Z1];
    [| specialize (Fz ltac:(lia)); lra].
  destruct (Z_le_dec (snd o) (sz ns)) as [Z2 | Z2];
    [| specialize (Fz ltac:(lia)); lra].
  exfalso. apply Hout. lia.
Qed.

End Stencil.

(** C5.  After [create], the stencil of every type [itype] in 1..ntypes holds
    one entry for each offset (i,j,k) of the scanned box whose [bin_distance]
    is below [cuttypesq[itype]] and no other entry: there is a duplicate-free
    list [sel] of exactly these offsets whose m-th element gives the m-th
    stencil entry and its [distsq].  So a bin that holds an atom closer than
    the cutoff to an atom of the reference bin has an entry, when it lies in
    the scanned box, and also outside it when the box reaches the cutoff along
    each axis. *)
Theorem stencil_entries_exact (ns : NStencilFullMultiOld3d.nstencil) (ntypes itype : nat) :
  (1 <= itype <= ntypes)%nat ->
  let ns' := NStencilFullMultiOld3d.create ntypes ns in
  let n := NStencilFullMultiOld3d.nstencil_multi_old ns' itype in
  let typesq := NStencilFullMultiOld3d.cuttypesq ns itype in
  exists sel : list (Z * Z * Z),
    NoDup sel /\ List.length sel = n /\
    (forall o, List.In o sel <->
               NStencilFullMultiOld3d.in_extent ns o /\
               NStencilFullMultiOld3d.dist ns o < typesq) /\
    (forall m, (m < n)%nat ->
       NStencilFullMultiOld3d.stencil_multi_old ns' itype m
       = NStencilFullMultiOld3d.flat ns (nth m sel (0, 0, 0)%Z) /\
       NStencilFullMultiOld3d.distsq_multi_old ns' itype m
       = NStencilFullMultiOld3d.dist ns (nth m sel (0, 0, 0)%Z)) /\
    (0 <= NStencilFullMultiOld3d.binsizex ns ->
     0 <= NStencilFullMultiOld3d.binsizey ns ->
     0 <= NStencilFullMultiOld3d.binsizez ns ->
     forall o pa pb,
       NStencilFullMultiOld3d.in_bin ns (0, 0, 0)%Z pa ->
       NStencilFullMultiOld3d.in_bin ns o pb ->
       normsq (vsub pb pa) < typesq ->
       NStencilFullMultiOld3d.in_extent ns o \/
       ((0 <= NStencilFullMultiOld3d.sx ns)%Z /\ (0 <= NStencilFullMultiOld3d.sy ns)%Z /\
        (0 <= NStencilFullMultiOld3d.sz ns)%Z /\
        typesq <= (IZR (NStencilFullMultiOld3d.sx ns) * NStencilFullMultiOld3d.binsizex ns)
                  * (IZR (NStencilFullMultiOld3d.sx ns) * NStencilFullMultiOld3d.binsizex ns) /\
        typesq <= (IZR (NStencilFullMultiOld3d.sy ns) * NStencilFullMultiOld3d.binsizey ns)
                  * (IZR (NStencilFullMultiOld3d.sy ns) * NStencilFullMultiOld3d.binsizey ns) /\
        typesq <= (IZR (NStencilFullMultiOld3d.sz ns) * NStencilFullMultiOld3d.binsizez ns)
                  * (IZR (NStencilFullMultiOld3d.sz ns) * NStencilFullMultiOld3d.binsizez ns)) ->
       exists m, (m < n)%nat /\ nth m sel (0, 0, 0)%Z = o /\
                 NStencilFullMultiOld3d.stencil_multi_old ns' itype m
                 = NStencilFullMultiOld3d.flat ns o).
Proof.
  intros Hty ns' n typesq.
  destruct (create_rows ns Hty) as [Hn Hrows]. fold ns' in Hn, Hrows. fold n in Hn.
  exists (NStencilFullMultiOld3d.selected ns itype).
  split; [| split; [| split; [| split]]].
  - apply (sorted_NoDup loop_lt_irrefl), selected_sorted.
  - now rewrite Hn.
  - intros o. apply in_selected.
  - intros m Hm. apply Hrows. now rewrite <- Hn.
  - intros Hx Hy Hz o pa pb Ha Hb Hclose Hbox.
    pose proof (bin_distance_lower_bound Hx Hy Hz Ha Hb) as Hlow.
    assert (Hext : NStencilFullMultiOld3d.in_extent ns o).
    { destruct Hbox as [Hext | (Sx & Sy & Sz & Cx & Cy & Cz)]; [exact Hext |].
      assert (Hdec : NStencilFullMultiOld3d.in_extent ns o
                     \/ ~ NStencilFullMultiOld3d.in_extent ns o)
        by (unfold NStencilFullMultiOld3d.in_extent; lia).
      destruct Hdec as [Hext | Hout]; [exact Hext | exfalso].
      pose proof (outside_extent_far Hx Hy Hz Sx Sy Sz Cx Cy Cz Hout). lra. }
    assert (Hin : List.In o (NStencilFullMultiOld3d.selected ns itype)).
    { apply in_selected. split; [exact Hext | unfold typesq in *; lra]. }
    destruct (In_nth _ _ (0, 0, 0)%Z Hin) as (m & Hm & Hnth).
    exists m. split; [now rewrite Hn | split; [exact Hnth |]].
    rewrite <- Hnth. now apply Hrows.
Qed.

(** C6 as stated fails: with bins of 1 x 2 x 2 and a cutoff of 2 the first two
    entries of the only type are the offsets (-2,-1,-1) and (-1,-1,-1), at
    squared distances 1 and 0. *)
Lemma stencil_distances_not_sorted :
  let ns' := NStencilFullMultiOld3d.create 1 NStencilFullMultiOld3d.example in
  (1 < NStencilFullMultiOld3d.nstencil_multi_old ns' 1)%nat /\
  NStencilFullMultiOld3d.distsq_multi_old ns' 1 0 = 1 /\
  NStencilFullMultiOld3d.distsq_multi_old ns' 1 1 = 0 /\
  ~ (NStencilFullMultiOld3d.distsq_multi_old ns' 1 0
     <= NStencilFullMultiOld3d.distsq_multi_old ns' 1 1).
Proof.
  cbv zeta.
  destruct (@create_rows NStencilFullMultiOld3d.example 1 1 ltac:(lia)) as [Hn Hrows].
  remember (NStencilFullMultiOld3d.create 1 NStencilFullMultiOld3d.example) as ns' eqn:Ens.
  clear Ens.
  assert (E : exists tl, NStencilFullMultiOld3d.offsets NStencilFullMultiOld3d.example
                         = (-2, -1, -1)%Z :: (-1, -1, -1)%Z :: tl)
    by (vm_compute; eexists; reflexivity).
  destruct E as [tl E].
  assert (S : exists tl', NStencilFullMultiOld3d.selected NStencilFullMultiOld3d.example 1
                          = (-2, -1, -1)%Z :: (-1, -1, -1)%Z :: tl').
  { unfold NStencilFullMultiOld3d.selected. rewrite E. simpl filter.
    rewrite !Rltb_true.
    - eexists; reflexivity.
    - unfold NStencilFullMultiOld3d.dist, NStencilFullMultiOld3d.bin_distance; simpl; lra.
    - unfold NStencilFullMultiOld3d.dist, NStencilFullMultiOld3d.bin_distance; simpl; lra. }
  destruct S as [tl' S]. rewrite S in Hn, Hrows. simpl in Hn.
  destruct (Hrows 0%nat ltac:(simpl; lia)) as [_ D0].
  destruct (Hrows 1%nat ltac:(simpl; lia)) as [_ D1].
  simpl in D0, D1.
  assert (V0 : NStencilFullMultiOld3d.distsq_multi_old ns' 1 0 = 1).
  { rewrite D0. unfold NStencilFullMultiOld3d.dist, NStencilFullMultiOld3d.bin_distance.
    simpl. lra. }
  assert (V1 : NStencilFullMultiOld3d.distsq_multi_old ns' 1 1 = 0).
  { rewrite D1. unfold NStencilFullMultiOld3d.dist, NStencilFullMultiOld3d.bin_distance.
    simpl. lra. }
  repeat split; [lia | exact V0 | exact V1 | rewrite V0, V1; lra].
Qed.

(** C6, amended.  After [create], the entries of every type are stored in the
    order the loops visit the offsets ([k] outermost, then [j], then [i], each
    ascending); every stored [distsq] is the [bin_distance] of its offset and
    is below [cuttypesq[itype]]. *)
Theorem stencil_entries_in_loop_order
    (ns : NStencilFullMultiOld3d.nstencil) (ntypes itype : nat) :
  (1 <= itype <= ntypes)%nat ->
  let ns' := NStencilFullMultiOld3d.create ntypes ns in
  let n := NStencilFullMultiOld3d.nstencil_multi_old ns' itype in
  exists sel : list (Z * Z * Z),
    List.length sel = n /\
    StronglySorted NStencilFullMultiOld3d.loop_lt sel /\
    forall m, (m < n)%nat ->
      NStencilFullMultiOld3d.stencil_multi_old ns' itype m
      = NStencilFullMultiOld3d.flat ns (nth m sel (0, 0, 0)%Z) /\
      NStencilFullMultiOld3d.distsq_multi_old ns' itype m
      = NStencilFullMultiOld3d.dist ns (nth m sel (0, 0, 0)%Z) /\
      NStencilFullMultiOld3d.distsq_multi_old ns' itype m
      < NStencilFullMultiOld3d.cuttypesq ns itype.
Proof.
  intros Hty ns' n.
  destruct (create_rows ns Hty) as [Hn Hrows]. fold ns' in Hn, Hrows. fold n in Hn.
  exists (NStencilFullMultiOld3d.selected ns itype).
  split; [now rewrite Hn | split; [apply selected_sorted |]].
  intros m Hm. rewrite Hn in Hm. destruct (Hrows m Hm) as [E1 E2].
  repeat split; [exact E1 | exact E2 |].
  rewrite E2. apply (in_selected ns itype). now apply nth_In.
Qed.

(** ** C8: the layout of the restart file *)

Section Restart.
Import PairSMATB.

Lemma write_records (c : pair) (l : list (nat * nat)) (fp : list item) :
  fold_left (fun fp ij => write_pair c ij fp) l fp
  = fp ++ flat_map (fun ij => record_of c (fst ij) (snd ij)) l.
Proof.
  revert fp. induction l as [| [i j] l IH]; intros fp; simpl.
  - now rewrite app_nil_r.
  - rewrite IH. unfold write_pair, record_of, fwrite_int, fwrite_double. simpl fst; simpl snd.
    destruct (setflag c i j =? 0)%Z; simpl; rewrite <- ?app_assoc; reflexivity.
Qed.

(** The file [write_restart] produces. *)
Lemma write_restart_layout (ntypes : nat) (c : pair) (fp : list item) :
  write_restart ntypes c fp
  = fp ++ [IInt (offset_flag c); IInt (mix_flag c); IInt (tail_flag c)]
       ++ flat_map (fun ij => record_of c (fst ij) (snd ij)) (type_pairs ntypes).
Proof.
  transitivity (fold_left (fun fp ij => write_pair c ij fp) (type_pairs ntypes)
                          (write_restart_settings c fp)).
  - unfold write_restart, for_range, type_pairs. rewrite fold_left_flat_map.
    apply fold_left_ext. intros acc i. now rewrite fold_left_map.
  - rewrite write_records. unfold write_restart_settings, fwrite_int.
    rewrite <- !app_assoc. reflexivity.
Qed.

Lemma read_restart_loops (ntypes : nat) (fresh c : pair) (fp : list item) :
  read_restart ntypes fresh c fp
  = fold_left (fun cf ij => read_pair ij cf) (type_pairs ntypes)
      (allocate ntypes fresh (fst (read_restart_settings (c, fp))),
       snd (read_restart_settings (c, fp))).
Proof.
  unfold read_restart, for_range, type_pairs. rewrite fold_left_flat_map.
  apply fold_left_ext. intros acc i. now rewrite fold_left_map.
Qed.

Lemma in_type_pairs (ntypes i j : nat) :
  List.In (i, j) (type_pairs ntypes) <-> (1 <= i <= j /\ j <= ntypes)%nat.
Proof.
  unfold type_pairs. rewrite in_flat_map. split.
  - intros (i' & Hi & H). apply in_map_iff in H. destruct H as (j' & E & Hj).
    injection E as <- <-. apply in_seq in Hi, Hj. lia.
  - intros H. exists i. split; [apply in_seq; lia |].
    apply in_map_iff. exists j. split; [reflexivity | apply in_seq; lia].
Qed.

Lemma type_pairs_sorted (ntypes : nat) : StronglySorted pair_lt (type_pairs ntypes).
Proof.
  unfold type_pairs.
  apply sorted_flat_map with (ltA := lt); [apply seq_sorted | |].
  - intros i _. induction (seq_sorted i (S ntypes - i)) as [| j l Hl IH Hj];
      simpl; constructor; [exact IH |].
    rewrite Forall_forall in *. intros u Hu. apply in_map_iff in Hu.
    destruct Hu as (j' & <- & Hj'). right; simpl; split; [reflexivity | now apply Hj].
  - intros i i' u u' Hii Hu Hu'. apply in_map_iff in Hu, Hu'.
    destruct Hu as (j & <- & _), Hu' as (j' & <- & _). now left.
Qed.

Lemma type_pairs_NoDup (ntypes : nat) : NoDup (type_pairs ntypes).
Proof.
  apply sorted_NoDup with (lt := pair_lt); [| apply type_pairs_sorted].
  intros u. unfold pair_lt. lia.
Qed.

Lemma read_pair_record (c c1 : pair) (i j : nat) (rest : list item) :
  let r := read_pair (i, j) (c1, record_of c i j ++ rest) in
  snd r = rest /\
  agree_on c (fst r) i j /\
  (forall k l, (k, l) <> (i, j) ->
     setflag (fst r) k l = setflag c1 k l /\ forall t, tab (fst r) t k l = tab c1 t k l) /\
  offset_flag (fst r) = offset_flag c1 /\ mix_flag (fst r) = mix_flag c1 /\
  tail_flag (fst r) = tail_flag c1.
Proof.
  unfold read_pair, record_of, read_setflag, agree_on; simpl.
  rewrite store2_same.
  destruct (Z.eqb_spec (setflag c i j) 0) as [E | E]; simpl.
  - repeat split; try reflexivity.
    + apply store2_same.
    + intros H; contradiction.
    + now apply store2_other.
  - unfold read_double; simpl. repeat split; try reflexivity.
    + apply store2_same.
    + intros _ t [<- | [<- | [<- | [<- | [<- | [<- | [<- | []]]]]]]]; cbn;
        rewrite ?Nat.eqb_refl; reflexivity.
    + now apply store2_other.
    + intros t. cbn.
      assert (F : (Nat.eqb k i && Nat.eqb l j)%bool = false).
      { destruct (Nat.eqb_spec k i), (Nat.eqb_spec l j); try reflexivity.
        subst; now elim H. }
      rewrite F, !andb_false_r. reflexivity.
Qed.

Lemma read_records (c : pair) (rest : list item) (L : list (nat * nat)) :
  NoDup L ->
  forall c1,
    let r := fold_left (fun cf ij => read_pair ij cf) L
               (c1, flat_map (fun ij => record_of c (fst ij) (snd ij)) L ++ rest) in
    snd r = rest /\
    (forall i j, List.In (i, j) L -> agree_on c (fst r) i j) /\
    (forall k l, ~ List.In (k, l) L ->
       setflag (fst r) k l = setflag c1 k l /\ forall t, tab (fst r) t k l = tab c1 t k l) /\
    offset_flag (fst r) = offset_flag c1 /\ mix_flag (fst r) = mix_flag c1 /\
    tail_flag (fst r) = tail_flag c1.
Proof.
  induction 1 as [| [i j] L Hnin Hnd IH]; intros c1; cbn [fold_left flat_map fst snd].
  - split; [reflexivity |]. split; [intros ? ? [] |].
    split; [intros; split; reflexivity |]. repeat split.
  - rewrite <- app_assoc.
    destruct (read_pair_record c c1 i j
                (flat_map (fun ij => record_of c (fst ij) (snd ij)) L ++ rest))
      as (Hrest & Hag & Hoth & Fo & Fm & Ft).
    destruct (read_pair (i, j)
                (c1, record_of c i j
                       ++ flat_map (fun ij => record_of c (fst ij) (snd ij)) L ++ rest))
      as [c2 fp2] eqn:E2.
    simpl in Hrest, Hag, Hoth, Fo, Fm, Ft. subst fp2.
    destruct (IH c2) as (Hrest' & Hag' & Hoth' & Fo' & Fm' & Ft').
    split; [exact Hrest' |]. split; [| split; [| repeat split; congruence]].
    + intros i' j' [E | Hin]; [| now apply Hag'].
      injection E as <- <-. destruct (Hoth' i j Hnin) as [E1 E2'].
      destruct Hag as [Hflag Hpar]. split; [now rewrite E1 |].
      intros Hset t Ht. rewrite E2'. now apply Hpar.
    + intros k l Hnin'.
      destruct (Hoth' k l) as [E1 E2']; [intros Hin; apply Hnin'; now right |].
      assert (Hne : (k, l) <> (i, j)) by (intros E; apply Hnin'; left; now symmetry).
      destruct (Hoth k l Hne) as [E3 E4].
      split; [congruence |]. intros t. rewrite E2'. apply E4.
Qed.

Lemma allocate_flags (ntypes : nat) (fresh c : pair) :
  offset_flag (allocate ntypes fresh c) = offset_flag c /\
  mix_flag (allocate ntypes fresh c) = mix_flag c /\
  tail_flag (allocate ntypes fresh c) = tail_flag c.
Proof.
  unfold allocate, for_range.
  apply fold_left_invariant with
    (P := fun c' => offset_flag c' = offset_flag c /\ mix_flag c' = mix_flag c
                    /\ tail_flag c' = tail_flag c); [cbn; tauto |].
  intros acc i Hacc. apply fold_left_invariant; [exact Hacc |].
  intros acc' j Hacc'. exact Hacc'.
Qed.

End Restart.

(** C8 as stated fails: for one atom type with unset coefficients the file is
    the three settings followed by the flag alone, and the flag adds
    [sizeof(int)] = 4 bytes, not 1. *)
Lemma restart_flag_is_an_int :
  let c := PairSMATB.unset_example in
  PairSMATB.write_restart 1 c []
  = PairSMATB.write_restart_settings c [] ++ [PairSMATB.IInt (PairSMATB.setflag c 1 1)] /\
  PairSMATB.file_bytes (PairSMATB.write_restart_settings c []) = 12%nat /\
  PairSMATB.file_bytes (PairSMATB.write_restart 1 c []) = 16%nat /\
  PairSMATB.file_bytes [PairSMATB.IInt (PairSMATB.setflag c 1 1)] <> 1%nat.
Proof. simpl. repeat split; try reflexivity. unfold PairSMATB.sizeof_int. lia. Qed.

(** C8, amended.  [write_restart] emits the three integer settings and then,
    for each pair (i,j) with 1 <= i <= j <= ntypes in increasing (i, j >= i)
    order, the has-coefficients flag as an [int] of [sizeof(int)] bytes,
    followed, only when the flag is set, by the doubles r0, p, q, A, QSI,
    cutOffStart, cutOffEnd in this order; [read_restart] consumes exactly this
    layout and recovers the settings, every flag, and the parameters of every
    pair whose flag is set. *)
Theorem restart_layout_round_trip (ntypes : nat) (c c0 fresh : PairSMATB.pair)
    (rest : list PairSMATB.item) :
  let file := PairSMATB.write_restart ntypes c [] in
  let r := PairSMATB.read_restart ntypes fresh c0 (file ++ rest) in
  file = [PairSMATB.IInt (PairSMATB.offset_flag c); PairSMATB.IInt (PairSMATB.mix_flag c);
          PairSMATB.IInt (PairSMATB.tail_flag c)]
         ++ flat_map (fun ij => PairSMATB.record_of c (fst ij) (snd ij))
                     (PairSMATB.type_pairs ntypes) /\
  StronglySorted PairSMATB.pair_lt (PairSMATB.type_pairs ntypes) /\
  (forall i j, List.In (i, j) (PairSMATB.type_pairs ntypes)
               <-> (1 <= i <= j /\ j <= ntypes)%nat) /\
  (forall i j,
     PairSMATB.record_of c i j
     = PairSMATB.IInt (PairSMATB.setflag c i j)
       :: (if (PairSMATB.setflag c i j =? 0)%Z then []
           else [PairSMATB.IDouble (PairSMATB.tab c PairSMATB.r0 i j);
                 PairSMATB.IDouble (PairSMATB.tab c PairSMATB.p i j);
                 PairSMATB.IDouble (PairSMATB.tab c PairSMATB.q i j);
                 PairSMATB.IDouble (PairSMATB.tab c PairSMATB.A i j);
                 PairSMATB.IDouble (PairSMATB.tab c PairSMATB.QSI i j);
                 PairSMATB.IDouble (PairSMATB.tab c PairSMATB.cutOffStart i j);
                 PairSMATB.IDouble (PairSMATB.tab c PairSMATB.cutOffEnd i j)]) /\
     PairSMATB.file_bytes (PairSMATB.record_of c i j)
     = (PairSMATB.sizeof_int
        + (if (PairSMATB.setflag c i j =? 0)%Z then 0
           else 7 * PairSMATB.sizeof_double))%nat) /\
  snd r = rest /\
  PairSMATB.offset_flag (fst r) = PairSMATB.offset_flag c /\
  PairSMATB.mix_flag (fst r) = PairSMATB.mix_flag c /\
  PairSMATB.tail_flag (fst r) = PairSMATB.tail_flag c /\
  (forall i j, (1 <= i <= j /\ j <= ntypes)%nat -> PairSMATB.agree_on c (fst r) i j).
Proof.
  intros file r.
  assert (Hfile := write_restart_layout ntypes c []). simpl in Hfile. fold file in Hfile.
  split; [exact Hfile |].
  split; [apply type_pairs_sorted |].
  split; [intros; apply in_type_pairs |].
  split.
  { intros i j. unfold PairSMATB.record_of.
    destruct (PairSMATB.setflag c i j =? 0)%Z; simpl; split; reflexivity. }
  subst r. rewrite read_restart_loops, Hfile. simpl.
  match goal with
  | |- context [fold_left _ _ (?c1, _)] =>
      destruct (read_records c rest (type_pairs_NoDup ntypes) c1)
        as (Hrest & Hag & _ & Fo & Fm & Ft);
      destruct (allocate_flags ntypes fresh
                  (PairSMATB.mkPair (PairSMATB.setflag c0) (PairSMATB.tab c0)
                     (PairSMATB.offset_flag c) (PairSMATB.mix_flag c)
                     (PairSMATB.tail_flag c))) as (Ao & Am & At)
  end.
  simpl in Ao, Am, At.
  repeat split.
  - exact Hrest.
  - rewrite Fo. exact Ao.
  - rewrite Fm. exact Am.
  - rewrite Ft. exact At.
  - apply Hag. now apply in_type_pairs.
  - apply Hag. now apply in_type_pairs.
Qed.

(** ** C7: which pairs reach a division by the distance *)

Section ZeroSeparation.


Lemma example_init_one :
  PairSMATB.init_one PairSMATB.raw_example 1 1 = OK (3, PairSMATB.configured_example).
Proof.
  unfold PairSMATB.init_one.
  change (PairSMATB.setflag PairSMATB.raw_example 1 1 =? 0)%Z with false.
  change (negb (Nat.eqb 1 1)) with false. cbv iota zeta.
  destruct (derive_spec PairSMATB.raw_example 1 1) as (_ & _ & Raw & _).
  rewrite (Raw PairSMATB.cutOffEnd) by (simpl; tauto). reflexivity.
Qed.

(** The entries of the configured example that compute() reads below the
    switch. *)
Lemma example_values :
  PairSMATB.tab PairSMATB.configured_example PairSMATB.r0 1 1 = 1 /\
  PairSMATB.tab PairSMATB.configured_example PairSMATB.p 1 1 = 1 /\
  PairSMATB.tab PairSMATB.configured_example PairSMATB.q 1 1 = 1 /\
  PairSMATB.tab PairSMATB.configured_example PairSMATB.A 1 1 = 1 /\
  PairSMATB.tab PairSMATB.configured_example PairSMATB.QSI 1 1 = 1 /\
  PairSMATB.tab PairSMATB.configured_example PairSMATB.cutOffStart 1 1 = 2 /\
  PairSMATB.tab PairSMATB.configured_example PairSMATB.cutOffEnd2 1 1 = 9.
Proof.
  destruct (derive_spec PairSMATB.raw_example 1 1)
    as (_ & _ & Raw & _ & _ & _ & _ & _ & _ & E2).
  cbv zeta in Raw, E2. fold PairSMATB.configured_example in Raw, E2.
  rewrite !Raw by (simpl; tauto). rewrite E2.
  repeat split; try reflexivity. simpl. lra.
Qed.

End ZeroSeparation.



(** ** C1, C4: the passes of compute() *)

Section Passes.
Import PairSMATB.

Variable NEIGHMASK : Z.
Variable c : pair.
Variable a : atom.
Variable l : neigh_list.

(** *** The history each pass leaves *)

Lemma extends_refl (Q : event -> Prop) (s : state) : extends Q s s.
Proof. exists []. now rewrite app_nil_r. Qed.

Lemma extends_trans (Q : event -> Prop) (s1 s2 s3 : state) :
  extends Q s1 s2 -> extends Q s2 s3 -> extends Q s1 s3.
Proof.
  intros (e1 & E1 & F1) (e2 & E2 & F2). exists (e1 ++ e2).
  split; [now rewrite E2, E1, app_assoc | now apply Forall_app].
Qed.

Lemma extends_put_on_eb (Q : event -> Prop) (s : state) (k : nat) (v : R) (e : event) :
  Q e -> extends Q s (put_on_eb s k v e).
Proof. intros H. exists [e]. split; [reflexivity | now constructor]. Qed.

Lemma extends_note (Q : event -> Prop) (s : state) (e : event) :
  Q e -> extends Q s (note s e).
Proof. intros H. exists [e]. split; [reflexivity | now constructor]. Qed.

Lemma extends_put_f (Q : event -> Prop) (s : state) (k : nat) (v : vec3) :
  extends Q s (put_f s k v).
Proof. exists []. split; [simpl; now rewrite app_nil_r | constructor]. Qed.

Lemma extends_for_loop (Q : event -> Prop) (n : nat) (body : nat -> state -> state)
    (s : state) :
  (forall k u, extends Q u (body k u)) -> extends Q s (for_loop n body s).
Proof.
  intros H. apply for_loop_invariant with (P := fun _ u => extends Q s u).
  - apply extends_refl.
  - intros k u _ Hu. exact (extends_trans Hu (H k u)).
Qed.

Lemma extends_fold_left (A : Type) (Q : event -> Prop) (F : state -> A -> state)
    (xs : list A) (s : state) :
  (forall u v, extends Q u (F u v)) -> extends Q s (fold_left F xs s).
Proof.
  intros H. apply fold_left_invariant with (P := fun u => extends Q s u).
  - apply extends_refl.
  - intros u v Hu. exact (extends_trans Hu (H u v)).
Qed.

Lemma first_loop_trace (s : state) : extends is_accum s (first_loop NEIGHMASK c a l s).
Proof.
  unfold first_loop. apply extends_for_loop. intros ii u.
  apply extends_for_loop. intros jj v. unfold first_loop_pair.
  destruct (within c a _ _); [| apply extends_refl].
  eapply extends_trans; apply extends_put_on_eb; exact I.
Qed.

Lemma support_loop_trace (s : state) : extends is_recip s (support_loop a l s).
Proof.
  unfold support_loop. apply extends_for_loop. intros ii u.
  destruct (Nat.ltb _ _); [| apply extends_refl]. apply extends_put_on_eb; exact I.
Qed.

Lemma second_loop_trace (np : bool) (s : state) :
  extends is_use s (second_loop NEIGHMASK np c a l s).
Proof.
  unfold second_loop. apply extends_for_loop. intros ii u.
  apply extends_for_loop. intros jj v. unfold second_loop_pair.
  destruct (within c a _ _); [| apply extends_refl]. cbv zeta.
  assert (E : extends is_use v (note (note v (Use (ilist l ii)))
                                     (Use (neighbor NEIGHMASK l (ilist l ii) jj)))).
  { eapply extends_trans; apply extends_note; exact I. }
  destruct (np || _)%bool.
  - eapply extends_trans; [exact E |].
    eapply extends_trans; apply extends_put_f.
  - eapply extends_trans; [exact E | apply extends_put_f].
Qed.

Lemma pack_forward_trace (n : nat) (lst : nat -> nat) (s : state) :
  extends is_forward s (snd (pack_forward_comm n lst s)).
Proof.
  unfold pack_forward_comm.
  apply for_loop_invariant with (P := fun _ bs => extends is_forward s (snd bs)).
  - apply extends_refl.
  - intros k bs _ H. simpl. eapply extends_trans; [exact H | apply extends_note; exact I].
Qed.

Lemma pack_reverse_trace (n first : nat) (s : state) :
  extends is_reverse s (snd (pack_reverse_comm n first s)).
Proof.
  unfold pack_reverse_comm.
  apply for_loop_invariant with (P := fun _ bs => extends is_reverse s (snd bs)).
  - apply extends_refl.
  - intros k bs _ H. simpl. eapply extends_trans; [exact H | apply extends_note; exact I].
Qed.

Lemma forward_comm_trace (swaps : list swap) (s : state) :
  extends is_forward s (forward_comm_pair swaps s).
Proof.
  unfold forward_comm_pair. apply extends_fold_left. intros u sw.
  eapply extends_trans; [apply pack_forward_trace |].
  unfold unpack_forward_comm. apply extends_for_loop. intros k v.
  apply extends_put_on_eb; exact I.
Qed.

Lemma reverse_comm_trace (swaps : list swap) (s : state) :
  extends is_reverse s (reverse_comm_pair swaps s).
Proof.
  unfold reverse_comm_pair. apply extends_fold_left. intros u sw.
  eapply extends_trans; [apply pack_reverse_trace |].
  unfold unpack_reverse_comm. apply extends_for_loop. intros k v.
  apply extends_put_on_eb; exact I.
Qed.

(** *** The second pass only reads [on_eb]; the other passes leave [f] alone *)

Lemma second_loop_on_eb (np : bool) (s : state) :
  on_eb (second_loop NEIGHMASK np c a l s) = on_eb s.
Proof.
  unfold second_loop.
  apply for_loop_invariant with (P := fun _ u => on_eb u = on_eb s); [reflexivity |].
  intros ii u _ Hu.
  apply for_loop_invariant with (P := fun _ v => on_eb v = on_eb s); [exact Hu |].
  intros jj v _ Hv. unfold second_loop_pair.
  destruct (within c a _ _); [| exact Hv]. cbv zeta.
  destruct (np || _)%bool; exact Hv.
Qed.

Lemma first_loop_f (s : state) : f (first_loop NEIGHMASK c a l s) = f s.
Proof.
  unfold first_loop.
  apply for_loop_invariant with (P := fun _ u => f u = f s); [reflexivity |].
  intros ii u _ Hu.
  apply for_loop_invariant with (P := fun _ v => f v = f s); [exact Hu |].
  intros jj v _ Hv. unfold first_loop_pair.
  destruct (within c a _ _); exact Hv.
Qed.

Lemma support_loop_f (s : state) : f (support_loop a l s) = f s.
Proof.
  unfold support_loop.
  apply for_loop_invariant with (P := fun _ u => f u = f s); [reflexivity |].
  intros ii u _ Hu. destruct (Nat.ltb _ _); exact Hu.
Qed.

Lemma forward_comm_f (swaps : list swap) (s : state) : f (forward_comm_pair swaps s) = f s.
Proof.
  unfold forward_comm_pair.
  apply fold_left_invariant with (P := fun u => f u = f s); [reflexivity |].
  intros u sw Hu. unfold unpack_forward_comm.
  apply for_loop_invariant with (P := fun _ v => f v = f s); [| intros k v _ Hv; exact Hv].
  unfold pack_forward_comm.
  apply for_loop_invariant with (P := fun _ bs => f (snd bs) = f s);
    [exact Hu | intros k bs _ H; exact H].
Qed.

Lemma reverse_comm_f (swaps : list swap) (s : state) : f (reverse_comm_pair swaps s) = f s.
Proof.
  unfold reverse_comm_pair.
  apply fold_left_invariant with (P := fun u => f u = f s); [reflexivity |].
  intros u sw Hu. unfold unpack_reverse_comm.
  apply for_loop_invariant with (P := fun _ v => f v = f s); [| intros k v _ Hv; exact Hv].
  unfold pack_reverse_comm.
  apply for_loop_invariant with (P := fun _ bs => f (snd bs) = f s);
    [exact Hu | intros k bs _ H; exact H].
Qed.

(** *** Newton's third law in the second pass *)



Lemma compute_f_before_second (np : bool) (swaps : list swap) (s : state) (n : nat) :
  f (forward_comm_pair swaps
       (support_loop a l
          (reverse_comm_pair swaps (first_loop NEIGHMASK c a l (memset_on_eb s n)))))
  = f s.
Proof. now rewrite forward_comm_f, support_loop_f, reverse_comm_f, first_loop_f. Qed.

End Passes.


(** *** What compute() produces does not depend on the [on_eb] it finds *)

Section Independence.
Import PairSMATB.

Variable NEIGHMASK : Z.
Variable c : pair.
Variable a : atom.
Variable l : neigh_list.
Variable n : nat.

Lemma same_upto_memset (s1 s2 : state) :
  (forall k, f s1 k = f s2 k) -> same_upto n (memset_on_eb s1 n) (memset_on_eb s2 n).
Proof.
  intros Hf. split; [| exact Hf]. intros k Hk. simpl.
  apply Nat.ltb_lt in Hk. now rewrite Hk.
Qed.

Lemma same_upto_put_on_eb (s1 s2 : state) (k : nat) (v1 v2 : R) (e : event) :
  same_upto n s1 s2 -> ((k < n)%nat -> v1 = v2) ->
  same_upto n (put_on_eb s1 k v1 e) (put_on_eb s2 k v2 e).
Proof.
  intros [Ho Hf] Hv. split; [| exact Hf]. intros m Hm. simpl. unfold store1.
  destruct (Nat.eqb_spec m k) as [-> | _]; [now apply Hv | now apply Ho].
Qed.

Lemma same_upto_note (s1 s2 : state) (e : event) :
  same_upto n s1 s2 -> same_upto n (note s1 e) (note s2 e).
Proof. intros H; exact H. Qed.

Lemma same_upto_put_f (s1 s2 : state) (k : nat) (v1 v2 : vec3) :
  same_upto n s1 s2 -> v1 = v2 -> same_upto n (put_f s1 k v1) (put_f s2 k v2).
Proof.
  intros [Ho Hf] ->. split; [exact Ho |]. intros m. simpl. unfold store1.
  destruct (Nat.eqb m k); [reflexivity | apply Hf].
Qed.

Lemma same_upto_accum (s1 s2 : state) (k : nat) (v : R) (e : event) :
  same_upto n s1 s2 ->
  same_upto n (put_on_eb s1 k (on_eb s1 k + v) e) (put_on_eb s2 k (on_eb s2 k + v) e).
Proof.
  intros H. apply same_upto_put_on_eb; [exact H |].
  intros Hk. now rewrite (proj1 H _ Hk).
Qed.

Lemma same_upto_f_add (s1 s2 : state) (k : nat) (v : vec3) :
  same_upto n s1 s2 ->
  same_upto n (put_f s1 k (vadd (f s1 k) v)) (put_f s2 k (vadd (f s2 k) v)).
Proof. intros H. apply same_upto_put_f; [exact H | now rewrite (proj2 H)]. Qed.

Lemma same_upto_f_sub (s1 s2 : state) (k : nat) (v : vec3) :
  same_upto n s1 s2 ->
  same_upto n (put_f s1 k (vsub (f s1 k) v)) (put_f s2 k (vsub (f s2 k) v)).
Proof. intros H. apply same_upto_put_f; [exact H | now rewrite (proj2 H)]. Qed.

Lemma same_upto_first_loop (s1 s2 : state) :
  same_upto n s1 s2 ->
  same_upto n (first_loop NEIGHMASK c a l s1) (first_loop NEIGHMASK c a l s2).
Proof.
  intros H. unfold first_loop. apply for_loop_related; [exact H |].
  intros ii u v _ Huv. apply for_loop_related; [exact Huv |].
  intros jj u' v' _ Huv'. unfold first_loop_pair.
  destruct (within c a _ _); [| exact Huv']. cbv zeta.
  apply same_upto_accum, same_upto_accum, Huv'.
Qed.

Lemma same_upto_support_loop (s1 s2 : state) :
  same_upto n s1 s2 -> same_upto n (support_loop a l s1) (support_loop a l s2).
Proof.
  intros H. unfold support_loop. apply for_loop_related; [exact H |].
  intros ii u v _ Huv. destruct (Nat.ltb _ _); [| exact Huv]. cbv zeta.
  apply same_upto_put_on_eb; [exact Huv |].
  intros Hk. now rewrite (proj1 Huv _ Hk).
Qed.

Lemma same_upto_second_loop (np : bool) (s1 s2 : state) :
  (forall ii, (ii < inum l)%nat -> (ilist l ii < n)%nat) ->
  (forall ii jj, (ii < inum l)%nat -> (jj < numneigh l (ilist l ii))%nat ->
     (neighbor NEIGHMASK l (ilist l ii) jj < n)%nat) ->
  same_upto n s1 s2 ->
  same_upto n (second_loop NEIGHMASK np c a l s1) (second_loop NEIGHMASK np c a l s2).
Proof.
  intros Hi Hj H. unfold second_loop. apply for_loop_related; [exact H |].
  intros ii u v Hii Huv. apply for_loop_related; [exact Huv |].
  intros jj u' v' Hjj Huv'. unfold second_loop_pair.
  destruct (within c a _ _); [| exact Huv']. cbv zeta.
  set (i := ilist l ii). set (j := neighbor NEIGHMASK l i jj).
  assert (Eo : forall k, (k < n)%nat ->
             on_eb (note (note u' (Use i)) (Use j)) k
             = on_eb (note (note v' (Use i)) (Use j)) k)
    by (intros k Hk; exact (proj1 Huv' k Hk)).
  rewrite (Eo i (Hi ii Hii)), (Eo j (Hj ii jj Hii Hjj)).
  assert (S0 : same_upto n (note (note u' (Use i)) (Use j)) (note (note v' (Use i)) (Use j)))
    by exact Huv'.
  destruct (np || _)%bool.
  - apply same_upto_f_sub, same_upto_f_add, S0.
  - apply same_upto_f_add, S0.
Qed.

(** The two exchanges. *)
Lemma same_upto_forward (swaps : list swap) (s1 s2 : state) :
  (forall s, List.In s swaps ->
     (forall j, List.In j (sendlist s) -> (j < n)%nat) /\ (firstrecv s + sendnum s <= n)%nat) ->
  same_upto n s1 s2 ->
  same_upto n (forward_comm_pair swaps s1) (forward_comm_pair swaps s2).
Proof.
  intros Hsw H. unfold forward_comm_pair.
  apply fold_left_related_In; [exact H |].
  intros u v sw Hin Huv. destruct (Hsw sw Hin) as [Hsend _].
  assert (P : fst (pack_forward_comm (sendnum sw) (fun i => nth i (sendlist sw) 0%nat) u)
              = fst (pack_forward_comm (sendnum sw) (fun i => nth i (sendlist sw) 0%nat) v)
              /\ same_upto n
                   (snd (pack_forward_comm (sendnum sw)
                           (fun i => nth i (sendlist sw) 0%nat) u))
                   (snd (pack_forward_comm (sendnum sw)
                           (fun i => nth i (sendlist sw) 0%nat) v))).
  { unfold pack_forward_comm.
    apply for_loop_related with
      (Rel := fun bs1 bs2 : list R * state =>
                fst bs1 = fst bs2 /\ same_upto n (snd bs1) (snd bs2)).
    - split; [reflexivity | exact Huv].
    - intros k bs1 bs2 Hk [Eb Es]. cbn [fst snd]. split; [| exact Es].
      rewrite Eb. f_equal. f_equal. apply (proj1 Es).
      apply Hsend, nth_In. exact Hk. }
  destruct P as [Eb Es]. rewrite Eb. unfold unpack_forward_comm.
  apply for_loop_related; [exact Es |].
  intros m u' v' _ Huv'. apply same_upto_put_on_eb; [exact Huv' | reflexivity].
Qed.

Lemma same_upto_reverse (swaps : list swap) (s1 s2 : state) :
  (forall s, List.In s swaps ->
     (forall j, List.In j (sendlist s) -> (j < n)%nat) /\ (firstrecv s + sendnum s <= n)%nat) ->
  same_upto n s1 s2 ->
  same_upto n (reverse_comm_pair swaps s1) (reverse_comm_pair swaps s2).
Proof.
  intros Hsw H. unfold reverse_comm_pair.
  apply fold_left_related_In; [exact H |].
  intros u v sw Hin Huv. apply in_rev in Hin. destruct (Hsw sw Hin) as [_ Hrecv].
  assert (P : fst (pack_reverse_comm (sendnum sw) (firstrecv sw) u)
              = fst (pack_reverse_comm (sendnum sw) (firstrecv sw) v)
              /\ same_upto n (snd (pack_reverse_comm (sendnum sw) (firstrecv sw) u))
                             (snd (pack_reverse_comm (sendnum sw) (firstrecv sw) v))).
  { unfold pack_reverse_comm.
    apply for_loop_related with
      (Rel := fun bs1 bs2 : list R * state =>
                fst bs1 = fst bs2 /\ same_upto n (snd bs1) (snd bs2)).
    - split; [reflexivity | exact Huv].
    - intros k bs1 bs2 Hk [Eb Es]. cbn [fst snd]. split; [| exact Es].
      rewrite Eb. f_equal. f_equal. apply (proj1 Es). lia. }
  destruct P as [Eb Es]. rewrite Eb. unfold unpack_reverse_comm.
  apply for_loop_related; [exact Es |].
  intros m u' v' _ Huv'. cbv zeta. apply same_upto_accum, Huv'.
Qed.

(** With Newton pair on, the forces and the first [nall] entries of [on_eb]
    that compute() leaves are the same whatever [on_eb] held before. *)
Lemma compute_forgets_on_eb (swaps : list swap) (s1 s2 : state) :
  n = (nlocal a + nghost a)%nat ->
  indices_below NEIGHMASK n l swaps ->
  (forall k, f s1 k = f s2 k) ->
  same_upto n (compute NEIGHMASK true c a l swaps s1)
              (compute NEIGHMASK true c a l swaps s2).
Proof.
  intros En (Hi & Hj & Hsw) Hf. unfold compute. cbv zeta. rewrite <- En.
  apply same_upto_second_loop; [exact Hi | exact Hj |].
  apply same_upto_forward; [exact Hsw |].
  apply same_upto_support_loop.
  apply same_upto_reverse; [exact Hsw |].
  apply same_upto_first_loop.
  now apply same_upto_memset.
Qed.

End Independence.

(** *** A run with Newton pair off *)

Section Carry.
Import PairSMATB.

Lemma image_within : within configured_example with_image 0 1 = true.
Proof.
  destruct example_values as (_ & _ & _ & _ & _ & _ & E2).
  unfold within. apply Rltb_true.
  change (type with_image 0) with 1%nat. change (type with_image 1) with 1%nat.
  rewrite E2. unfold del_of, normsq, vsub, c0, c1, c2. simpl. lra.
Qed.

Lemma image_dij : dij_of with_image 0 1 = 1.
Proof.
  unfold dij_of, del_of, normsq, vsub, c0, c1, c2. simpl.
  replace ((0 - 1) * (0 - 1) + (0 - 0) * (0 - 0) + (0 - 0) * (0 - 0)) with 1 by ring.
  apply sqrt_1.
Qed.

Lemma image_qsiexpq : qsiexpq1 configured_example 1 1 1 = 1.
Proof.
  destruct example_values as (E0 & _ & Eq & _ & Ex & Es & _).
  unfold qsiexpq1. rewrite Es, Rltb_true by lra.
  unfold qsiexpq1_exp. rewrite E0, Eq, Ex.
  replace (2 * 1 * (1 - 1 / 1)) with 0 by field. rewrite exp_0. ring.
Qed.

Lemma image_fpair (oi oj : R) : fpair_of configured_example 1 1 1 oi oj = 2 - (oi + oj).
Proof.
  destruct example_values as (E0 & Ep & Eq & Ea & Ex & Es & _).
  unfold fpair_of, Fb_Fr. rewrite Es, Rltb_true by lra.
  unfold Fb_Fr_exp, aexpp_exp. cbn [fst snd]. rewrite E0, Ep, Eq, Ea, Ex.
  replace (1 - 1 / 1) with 0 by field.
  replace (2 * 1 * 0) with 0 by ring. replace (1 * 0) with 0 by ring.
  rewrite exp_0. field.
Qed.

Lemma image_run (g : R) :
  0 < 2 + g ->
  c0 (f (compute mask29 false configured_example with_image one_pair image_swap (stale g))
        0%nat)
  = 2 / sqrt (2 + g) - 2.
Proof.
  intros Hg. unfold compute. cbv zeta.
  change (nlocal with_image) with 1%nat.
  set (s0 := memset_on_eb (stale g) 1).
  assert (A0 : on_eb s0 0%nat = 0 /\ on_eb s0 1%nat = g /\ f s0 0%nat = vzero)
    by (repeat split; reflexivity).
  clearbody s0.
  change (first_loop mask29 configured_example with_image one_pair s0)
    with (first_loop_pair configured_example with_image 0 1 s0).
  set (s1 := first_loop_pair configured_example with_image 0 1 s0).
  assert (A1 : on_eb s1 0%nat = 1 /\ on_eb s1 1%nat = g + 1 /\ f s1 0%nat = vzero).
  { subst s1. unfold first_loop_pair. rewrite image_within, image_dij.
    change (type with_image 0) with 1%nat. change (type with_image 1) with 1%nat.
    rewrite image_qsiexpq. cbn [on_eb put_on_eb f]. unfold store1. cbn [Nat.eqb].
    destruct A0 as (-> & -> & ->). repeat split; try reflexivity; ring. }
  clearbody s1. clear A0 s0.
  change (reverse_comm_pair image_swap s1)
    with (put_on_eb (note s1 (RevPack 1)) 0
            (on_eb (note s1 (RevPack 1)) 0 + on_eb s1 1) (RevUnpack 0)).
  set (s2 := put_on_eb _ _ _ (RevUnpack 0)).
  assert (A2 : on_eb s2 0%nat = 2 + g /\ f s2 0%nat = vzero).
  { subst s2. cbn [on_eb put_on_eb note f]. rewrite store1_same.
    destruct A1 as (-> & -> & ->). split; [ring | reflexivity]. }
  clearbody s2. clear A1 s1.
  change (support_loop with_image one_pair s2)
    with (put_on_eb s2 0
            (if negb (Reqb (sqrt (on_eb s2 0)) 0) then 1 / sqrt (on_eb s2 0) else 0)
            (Recip 0)).
  set (s3 := put_on_eb _ _ _ (Recip 0)).
  assert (S : 0 < sqrt (2 + g)) by now apply sqrt_lt_R0.
  assert (A3 : on_eb s3 0%nat = 1 / sqrt (2 + g) /\ f s3 0%nat = vzero).
  { subst s3. cbn [on_eb put_on_eb f]. rewrite store1_same.
    destruct A2 as (-> & ->). rewrite Reqb_false by lra. split; reflexivity. }
  clearbody s3. clear A2 s2.
  change (forward_comm_pair image_swap s3)
    with (put_on_eb (note s3 (FwdPack 0)) 1 (on_eb s3 0) (FwdUnpack 1)).
  set (s4 := put_on_eb _ _ _ (FwdUnpack 1)).
  assert (A4 : on_eb s4 0%nat = 1 / sqrt (2 + g) /\ on_eb s4 1%nat = 1 / sqrt (2 + g)
               /\ f s4 0%nat = vzero).
  { subst s4. cbn [on_eb put_on_eb note f]. unfold store1. cbn [Nat.eqb].
    destruct A3 as (-> & ->). repeat split; reflexivity. }
  clearbody s4. clear A3 s3.
  change (second_loop mask29 false configured_example with_image one_pair s4)
    with (second_loop_pair false configured_example with_image 0 1 s4).
  unfold second_loop_pair. rewrite image_within, image_dij. cbv zeta.
  change (type with_image 0) with 1%nat. change (type with_image 1) with 1%nat.
  rewrite image_fpair. change (nlocal with_image) with 1%nat.
  cbn [orb Nat.ltb Nat.leb on_eb note f put_f]. rewrite store1_same.
  destruct A4 as (-> & -> & ->).
  unfold del_of, vadd, vscale, vsub, vzero, c0, c1, c2. simpl. field. lra.
Qed.
End Carry.

(** C1: the code at the failing input.  With Newton pair off, [memset]
    clears only the owned entries, but the guard of lines 156-158 that would
    keep the first loop from the ghost entries is commented out and the
    reverse exchange runs all the same.  For one owned atom and its periodic
    image the first loop adds to the ghost entry left by the previous call
    and the exchange folds it into the owner: the force on atom 0 is -1 when
    [on_eb] held 2 before the call and -4/3 when it held 7. *)
Lemma on_eb_carried_over_without_newton :
  let run := fun g =>
    PairSMATB.compute PairSMATB.mask29 false PairSMATB.configured_example
      PairSMATB.with_image PairSMATB.one_pair PairSMATB.image_swap (PairSMATB.stale g) in
  PairSMATB.init_one PairSMATB.raw_example 1 1 = OK (3, PairSMATB.configured_example) /\
  PairSMATB.on_eb
    (PairSMATB.memset_on_eb (PairSMATB.stale 7) (PairSMATB.nlocal PairSMATB.with_image))
    1%nat = 7 /\
  c0 (PairSMATB.f (run 2) 0%nat) = -1 /\
  c0 (PairSMATB.f (run 7) 0%nat) = - 4 / 3 /\
  PairSMATB.f (run 2) 0%nat <> PairSMATB.f (run 7) 0%nat.
Proof.
  intros run.
  assert (R2 : c0 (PairSMATB.f (run 2) 0%nat) = -1).
  { unfold run. rewrite image_run by lra.
    replace (2 + 2) with (2 * 2) by ring. rewrite sqrt_square by lra. field. }
  assert (R7 : c0 (PairSMATB.f (run 7) 0%nat) = - 4 / 3).
  { unfold run. rewrite image_run by lra.
    replace (2 + 7) with (3 * 3) by ring. rewrite sqrt_square by lra. field. }
  split; [exact example_init_one | split; [reflexivity | split; [exact R2 | split; [exact R7 |]]]].
  intros E. rewrite E in R2. rewrite R2 in R7. lra.
Qed.

(** ** The statements at concrete inputs *)

(** C2 at the configured example: the repulsive polynomial takes the value of
    the exponential at the start of the switch. *)
Lemma switching_matches_exponential_witness :
  PairSMATB.poly345
    (PairSMATB.tab PairSMATB.configured_example PairSMATB.a3 1 1)
    (PairSMATB.tab PairSMATB.configured_example PairSMATB.a4 1 1)
    (PairSMATB.tab PairSMATB.configured_example PairSMATB.a5 1 1)
    (PairSMATB.tab PairSMATB.configured_example PairSMATB.cutOffStart 1 1
     - PairSMATB.tab PairSMATB.configured_example PairSMATB.cutOffEnd 1 1)
  = PairSMATB.tab PairSMATB.configured_example PairSMATB.A 1 1
    * exp (PairSMATB.tab PairSMATB.configured_example PairSMATB.p 1 1
           * (1 - PairSMATB.tab PairSMATB.configured_example PairSMATB.cutOffStart 1 1
                  / PairSMATB.tab PairSMATB.configured_example PairSMATB.r0 1 1)).
Proof.
  refine (proj1 (proj1 (@switching_matches_exponential PairSMATB.raw_example
                          PairSMATB.configured_example 1 1 3 example_init_one _))).
  change (2 < 3). lra.
Defined.

(** C3 at the pair (1,2) of the two examples. *)
Lemma init_one_symmetric_witness :
  (exists cut c',
     PairSMATB.init_one PairSMATB.raw_example 1 2 = OK (cut, c') /\
     (forall t, PairSMATB.tab c' t 2 1 = PairSMATB.tab c' t 1 2) /\
     exists c'', PairSMATB.init_one c' 2 1 = OK (cut, c'')) /\
  (exists d',
     CPairPOD.init_one CPairPOD.example 1 2 = OK (CPairPOD.rcut CPairPOD.example, d') /\
     CPairPOD.scale d' 2 1 = CPairPOD.scale d' 1 2 /\
     exists d'', CPairPOD.init_one d' 2 1 = OK (CPairPOD.rcut CPairPOD.example, d'')).
Proof.
  destruct (@init_one_symmetric PairSMATB.raw_example CPairPOD.example 1 2) as [S P].
  split.
  - apply S. simpl. lia.
  - apply P; simpl; lia.
Defined.


(** C5 at the example geometry: the entries of the only type are the offsets
    of a duplicate-free list. *)
Lemma stencil_entries_exact_witness :
  let ns := NStencilFullMultiOld3d.example in
  let ns' := NStencilFullMultiOld3d.create 1 ns in
  exists sel : list (Z * Z * Z),
    NoDup sel /\
    List.length sel = NStencilFullMultiOld3d.nstencil_multi_old ns' 1 /\
    forall o, List.In o sel <->
              NStencilFullMultiOld3d.in_extent ns o /\
              NStencilFullMultiOld3d.dist ns o < NStencilFullMultiOld3d.cuttypesq ns 1.
Proof.
  intros ns ns'.
  destruct (@stencil_entries_exact NStencilFullMultiOld3d.example 1 1) as (sel & H1 & H2 & H3 & _).
  - lia.
  - exists sel. split; [exact H1 | split; [exact H2 | exact H3]].
Defined.

(** C6, amended, at the example geometry. *)
Lemma stencil_entries_in_loop_order_witness :
  let ns := NStencilFullMultiOld3d.example in
  let ns' := NStencilFullMultiOld3d.create 1 ns in
  exists sel : list (Z * Z * Z),
    List.length sel = NStencilFullMultiOld3d.nstencil_multi_old ns' 1 /\
    StronglySorted NStencilFullMultiOld3d.loop_lt sel.
Proof.
  intros ns ns'.
  destruct (@stencil_entries_in_loop_order NStencilFullMultiOld3d.example 1 1)
    as (sel & H1 & H2 & _).
  - lia.
  - exists sel. split; [exact H1 | exact H2].
Defined.


(** * Further properties of the same code *)

(** ** Lists and loops *)

Lemma nat_pair_eq_dec (u v : nat * nat) : {u = v} + {u <> v}.
Proof. decide equality; apply Nat.eq_dec. Qed.

Lemma fold_left_invariant_In (A St : Type) (P : St -> Prop) (F : St -> A -> St)
    (l : list A) (s : St) :
  P s -> (forall acc v, List.In v l -> P acc -> P (F acc v)) -> P (fold_left F l s).
Proof.
  revert s. induction l as [| v l IH]; intros s Hs HF; simpl; [exact Hs |].
  apply IH; [apply HF; [now left | exact Hs] |].
  intros acc w Hw. apply HF. now right.
Qed.

Lemma for_loop_ext_lt (St : Type) (n : nat) (body1 body2 : nat -> St -> St) (s : St) :
  (forall k acc, (k < n)%nat -> body1 k acc = body2 k acc) ->
  for_loop n body1 s = for_loop n body2 s.
Proof.
  induction n as [| n IH]; intros H; [reflexivity |].
  rewrite !for_loop_S, IH by (intros; apply H; lia). apply H. lia.
Qed.

Lemma length_flat_map_const (A B : Type) (g : A -> list B) (l : list A) (m : nat) :
  (forall u, List.length (g u) = m) -> List.length (flat_map g l) = (List.length l * m)%nat.
Proof.
  intros H. induction l as [| u l IH]; [reflexivity |].
  simpl. rewrite length_app, H, IH. reflexivity.
Qed.

Lemma filter_length_mono (A : Type) (p1 p2 : A -> bool) (l : list A) :
  (forall u, p1 u = true -> p2 u = true) ->
  (List.length (filter p1 l) <= List.length (filter p2 l))%nat.
Proof.
  intros H. induction l as [| u l IH]; [apply le_n |].
  simpl. destruct (p1 u) eqn:E1.
  - rewrite (H u E1). simpl. lia.
  - destruct (p2 u); simpl; lia.
Qed.

Lemma filter_seq_S (p : nat -> bool) (l : nat) :
  filter p (seq 0 (S l)) = filter p (seq 0 l) ++ (if p l then [l] else []).
Proof. rewrite seq_S, filter_app. reflexivity. Qed.

(** ** [PairSMATB::coeff] and [allocate] *)

Section Coeff.
Import PairSMATB.

Lemma in_coeff_pairs (g : coeff_args) (i j : nat) :
  List.In (i, j) (coeff_pairs g) <-> covered g i j.
Proof.
  unfold coeff_pairs, covered. rewrite in_flat_map. split.
  - intros (i' & Hi & H). apply in_map_iff in H. destruct H as (j' & E & Hj).
    injection E as <- <-. apply in_seq in Hi, Hj. lia.
  - intros H. exists i. split; [apply in_seq; lia |].
    apply in_map_iff. exists j. split; [reflexivity | apply in_seq; lia].
Qed.

Lemma coeff_loops_fold (g : coeff_args) (cn : pair * nat) :
  coeff_loops g cn
  = fold_left (fun cn ij => coeff_pair g (fst ij) (snd ij) cn) (coeff_pairs g) cn.
Proof.
  unfold coeff_loops, for_range, coeff_pairs. rewrite fold_left_flat_map.
  apply fold_left_ext. intros acc i. now rewrite fold_left_map.
Qed.

Lemma coeff_pair_spec (g : coeff_args) (i j : nat) (cn : pair * nat) :
  let r := coeff_pair g i j cn in
  snd r = S (snd cn) /\
  setflag (fst r) = store2 (setflag (fst cn)) i j 1%Z /\
  (forall t k l, tab (fst r) t k l
     = match coeff_value g t with
       | Some v => if (Nat.eqb k i && Nat.eqb l j)%bool then v else tab (fst cn) t k l
       | None => tab (fst cn) t k l
       end) /\
  offset_flag (fst r) = offset_flag (fst cn) /\ mix_flag (fst r) = mix_flag (fst cn) /\
  tail_flag (fst r) = tail_flag (fst cn).
Proof.
  unfold coeff_pair. cbn [fst snd]. split; [reflexivity |]. split; [reflexivity |].
  split; [| repeat split].
  intros t k l. cbn [tab set_setflag]. rewrite !tab_put.
  destruct t; cbn [param_eqb coeff_value andb];
    destruct (Nat.eqb k i && Nat.eqb l j)%bool; reflexivity.
Qed.

Lemma coeff_fold_spec (g : coeff_args) (L : list (nat * nat)) :
  forall cn,
    let r := fold_left (fun cn ij => coeff_pair g (fst ij) (snd ij) cn) L cn in
    snd r = (snd cn + List.length L)%nat /\
    (forall k l, List.In (k, l) L ->
       setflag (fst r) k l = 1%Z /\
       forall t v, coeff_value g t = Some v -> tab (fst r) t k l = v) /\
    (forall k l, ~ List.In (k, l) L ->
       setflag (fst r) k l = setflag (fst cn) k l /\
       forall t, tab (fst r) t k l = tab (fst cn) t k l) /\
    (forall t k l, coeff_value g t = None -> tab (fst r) t k l = tab (fst cn) t k l) /\
    offset_flag (fst r) = offset_flag (fst cn) /\ mix_flag (fst r) = mix_flag (fst cn) /\
    tail_flag (fst r) = tail_flag (fst cn).
Proof.
  induction L as [| [i j] L IH]; intros cn; cbn [fold_left fst snd].
  - split; [simpl; lia |]. split; [intros ? ? [] |].
    split; [intros; split; reflexivity |]. repeat split.
  - destruct (coeff_pair_spec g i j cn) as (Hn & Hs & Ht & Fo & Fm & Ft).
    destruct (IH (coeff_pair g i j cn)) as (Hn' & Hin' & Hout' & Hder' & Fo' & Fm' & Ft').
    cbv zeta in *.
    set (r := fold_left _ L _) in *.
    split; [rewrite Hn', Hn; simpl; lia |].
    split; [| split; [| split; [| repeat split; congruence]]].
    + intros k l Hin.
      destruct (in_dec nat_pair_eq_dec (k, l) L) as [HL | HL];
        [now apply Hin' |].
      destruct Hin as [E | Hin]; [| contradiction]. injection E as <- <-.
      destruct (Hout' i j HL) as [E1 E2]. split.
      * rewrite E1, Hs. apply store2_same.
      * intros t v Hv. rewrite E2, Ht, Hv, !Nat.eqb_refl. reflexivity.
    + intros k l Hnin.
      assert (HL : ~ List.In (k, l) L) by (intros H; apply Hnin; now right).
      assert (Hne : (k, l) <> (i, j)) by (intros E; apply Hnin; left; now symmetry).
      destruct (Hout' k l HL) as [E1 E2]. split.
      * rewrite E1, Hs. now apply store2_other.
      * intros t. rewrite E2, Ht.
        assert (F : (Nat.eqb k i && Nat.eqb l j)%bool = false).
        { destruct (Nat.eqb_spec k i), (Nat.eqb_spec l j); try reflexivity.
          subst; now elim Hne. }
        rewrite F. now destruct (coeff_value g t).
    + intros t k l Hv. rewrite Hder', Ht, Hv by exact Hv. reflexivity.
Qed.

Lemma coeff_pairs_nonempty (g : coeff_args) :
  coeff_pairs g <> [] <-> (ilo g <= ihi g /\ jlo g <= jhi g /\ ilo g <= jhi g)%nat.
Proof.
  split.
  - intros H. destruct (coeff_pairs g) as [| [i j] L] eqn:E; [now elim H |].
    assert (Hin : List.In (i, j) (coeff_pairs g)) by (rewrite E; now left).
    apply in_coeff_pairs in Hin. unfold covered in Hin. lia.
  - intros H E.
    assert (Hin : List.In (ilo g, Nat.max (jlo g) (ilo g)) (coeff_pairs g))
      by (apply in_coeff_pairs; unfold covered; lia).
    rewrite E in Hin. exact Hin.
Qed.

(** What the arrays are when the loops of [coeff] start. *)
Lemma allocate_spec (ntypes : nat) (fresh c : pair) :
  (forall i j, setflag (allocate ntypes fresh c) i j
     = if (Nat.leb 1 i && Nat.leb i j && Nat.leb j ntypes)%bool then 0%Z
       else setflag fresh i j) /\
  tab (allocate ntypes fresh c) = tab fresh.
Proof.
  assert (E : allocate ntypes fresh c
              = fold_left (fun c ij => set_setflag c (fst ij) (snd ij) 0%Z)
                          (type_pairs ntypes)
                          (mkPair (setflag fresh) (tab fresh) (offset_flag c) (mix_flag c)
                                  (tail_flag c))).
  { unfold allocate, for_range, type_pairs. rewrite fold_left_flat_map.
    apply fold_left_ext. intros acc i. now rewrite fold_left_map. }
  rewrite E. clear E.
  assert (G : forall L c,
             let c' := fold_left (fun c ij => set_setflag c (fst ij) (snd ij) 0%Z) L c in
             (forall i j, List.In (i, j) L -> setflag c' i j = 0%Z) /\
             (forall i j, ~ List.In (i, j) L -> setflag c' i j = setflag c i j) /\
             tab c' = tab c).
  { induction L as [| [i j] L IH]; intros c1; cbn [fold_left fst snd].
    - split; [intros ? ? [] |]. split; reflexivity.
    - destruct (IH (set_setflag c1 i j 0%Z)) as (Hin & Hout & Ht). cbv zeta in *.
      split; [| split; [| exact Ht]].
      + intros k l Hkl.
        destruct (in_dec nat_pair_eq_dec (k, l) L) as [HL | HL];
          [now apply Hin |].
        destruct Hkl as [E | Hkl]; [| contradiction]. injection E as <- <-.
        rewrite (Hout i j HL). simpl. apply store2_same.
      + intros k l Hkl.
        rewrite Hout by (intros H; apply Hkl; now right).
        simpl. apply store2_other. intros E; apply Hkl; left; now symmetry. }
  destruct (G (type_pairs ntypes)
              (mkPair (setflag fresh) (tab fresh) (offset_flag c) (mix_flag c) (tail_flag c)))
    as (Hin & Hout & Ht).
  cbv zeta in *. cbn [setflag tab] in Hout, Ht.
  split; [| exact Ht].
  intros i j.
  destruct (Nat.leb_spec 1 i), (Nat.leb_spec i j), (Nat.leb_spec j ntypes); cbn [andb];
    try (apply Hout; rewrite in_type_pairs; lia).
  apply Hin. apply in_type_pairs. lia.
Qed.

(** The arrays a successful [coeff] returns, in terms of those the loops
    started from. *)
Lemma coeff_ok (ntypes : nat) (fresh : pair) (ac : bool * pair) (narg : Z)
    (g : coeff_args) (al : bool) (c' : pair) :
  coeff ntypes fresh ac narg g = OK (al, c') ->
  let c1 := if negb (fst ac) then allocate ntypes fresh (snd ac) else snd ac in
  al = true /\ narg = 9%Z /\
  (forall i j, covered g i j ->
     setflag c' i j = 1%Z /\ forall t v, coeff_value g t = Some v -> tab c' t i j = v) /\
  (forall i j, ~ covered g i j ->
     setflag c' i j = setflag c1 i j /\ forall t, tab c' t i j = tab c1 t i j) /\
  (forall t i j, coeff_value g t = None -> tab c' t i j = tab c1 t i j).
Proof.
  unfold coeff. cbv zeta.
  destruct (Z.eqb_spec narg 9) as [E9 | N9]; cbn [negb]; [| discriminate].
  rewrite coeff_loops_fold.
  match goal with
  | |- context [fold_left _ _ ?cn0] =>
      destruct (coeff_fold_spec g (coeff_pairs g) cn0) as (_ & Hin & Hout & Hder & _)
  end.
  cbv zeta in Hin, Hout, Hder. cbn [fst snd] in Hin, Hout, Hder.
  destruct (Nat.eqb _ 0); [discriminate |].
  intros H. apply OK_pair_inj in H. destruct H as [<- <-].
  split; [reflexivity |]. split; [exact E9 |].
  split; [| split; [| exact Hder]].
  - intros i j H. apply Hin. now apply in_coeff_pairs.
  - intros i j H. apply Hout. now rewrite in_coeff_pairs.
Qed.

End Coeff.

(** X1.  [PairSMATB::coeff] ends in [error->all] exactly when it is not given
    nine words or when the two type ranges select no pair (i,j) with
    [i <= j]: an empty range, or a [j] range that lies wholly below the [i]
    range, as in [pair_coeff 2 1 ...]. *)
Theorem coeff_fatal_iff (ntypes : nat) (fresh : PairSMATB.pair)
    (ac : bool * PairSMATB.pair) (narg : Z) (g : PairSMATB.coeff_args) :
  is_fatal (PairSMATB.coeff ntypes fresh ac narg g) = true
  <-> (narg <> 9%Z \/ (PairSMATB.ihi g < PairSMATB.ilo g)%nat
       \/ (PairSMATB.jhi g < PairSMATB.jlo g)%nat
       \/ (PairSMATB.jhi g < PairSMATB.ilo g)%nat).
Proof.
  unfold PairSMATB.coeff. cbv zeta.
  destruct (Z.eqb_spec narg 9) as [E9 | N9]; cbn [negb].
  2: { simpl. split; [intros _; now left | reflexivity]. }
  rewrite coeff_loops_fold.
  match goal with
  | |- context [fold_left _ _ ?cn0] =>
      destruct (coeff_fold_spec g (PairSMATB.coeff_pairs g) cn0) as (Hn & _)
  end.
  cbv zeta in Hn. cbn [snd] in Hn. rewrite Hn. cbn [Nat.add].
  destruct (coeff_pairs_nonempty g) as [N1 N2].
  destruct (PairSMATB.coeff_pairs g) as [| u L] eqn:EL; cbn [List.length Nat.eqb is_fatal].
  - split; [| reflexivity]. intros _. right.
    destruct (le_lt_dec (PairSMATB.ilo g) (PairSMATB.ihi g)) as [H1 | H1]; [| lia].
    destruct (le_lt_dec (PairSMATB.jlo g) (PairSMATB.jhi g)) as [H2 | H2]; [| lia].
    destruct (le_lt_dec (PairSMATB.ilo g) (PairSMATB.jhi g)) as [H3 | H3]; [| lia].
    exfalso. now apply N2.
  - split; [discriminate |]. intros [H | H]; [contradiction |].
    assert (Hne : u :: L <> []) by discriminate. apply N1 in Hne. lia.
Qed.

(** X2.  A [coeff] that returns has set the flag and stored the seven numbers
    r0, p, q, A, QSI, cutOffStart, cutOffEnd at every pair (i,j) of the two
    ranges with [i <= j].  It writes no other entry: every other pair holds
    in all fourteen arrays what the arrays held when the loops started (the
    arrays of the earlier calls or, on the first call, the storage the
    allocator returned), and so does its flag, except that on the first call
    the flags of the pairs 1 <= i <= j <= ntypes are 0.  The seven derived
    arrays are not written at all. *)
Theorem coeff_sets_covered_pairs (ntypes : nat) (fresh : PairSMATB.pair)
    (ac : bool * PairSMATB.pair) (narg : Z) (g : PairSMATB.coeff_args) (al : bool)
    (c' : PairSMATB.pair) :
  PairSMATB.coeff ntypes fresh ac narg g = OK (al, c') ->
  let held := if fst ac then snd ac else fresh in
  al = true /\
  (forall i j, PairSMATB.covered g i j ->
     PairSMATB.setflag c' i j = 1%Z /\
     PairSMATB.tab c' PairSMATB.r0 i j = PairSMATB.myr0 g /\
     PairSMATB.tab c' PairSMATB.p i j = PairSMATB.myp g /\
     PairSMATB.tab c' PairSMATB.q i j = PairSMATB.myq g /\
     PairSMATB.tab c' PairSMATB.A i j = PairSMATB.myA g /\
     PairSMATB.tab c' PairSMATB.QSI i j = PairSMATB.myQSI g /\
     PairSMATB.tab c' PairSMATB.cutOffStart i j = PairSMATB.mycutOffStart g /\
     PairSMATB.tab c' PairSMATB.cutOffEnd i j = PairSMATB.mycutOffEnd g) /\
  (forall i j, ~ PairSMATB.covered g i j ->
     (forall t, PairSMATB.tab c' t i j = PairSMATB.tab held t i j) /\
     PairSMATB.setflag c' i j
     = if (negb (fst ac) && (Nat.leb 1 i && Nat.leb i j && Nat.leb j ntypes))%bool
       then 0%Z else PairSMATB.setflag held i j) /\
  (forall t i j, ~ List.In t PairSMATB.raw_params ->
     PairSMATB.tab c' t i j = PairSMATB.tab held t i j).
Proof.
  intros H held. destruct (coeff_ok _ _ _ _ _ H) as (Hal & _ & Hin & Hout & Hder).
  cbv zeta in Hout, Hder.
  assert (Ht : PairSMATB.tab (if negb (fst ac) then PairSMATB.allocate ntypes fresh (snd ac)
                              else snd ac) = PairSMATB.tab held).
  { subst held. destruct (fst ac); cbn [negb]; [reflexivity | apply allocate_spec]. }
  split; [exact Hal |]. split; [| split].
  - intros i j Hc. destruct (Hin i j Hc) as [Hs Hv].
    split; [exact Hs |]. repeat split; apply Hv; reflexivity.
  - intros i j Hc. destruct (Hout i j Hc) as [Hs Hv]. split.
    + intros t. now rewrite Hv, Ht.
    + rewrite Hs. subst held. destruct (fst ac); cbn [negb andb]; [reflexivity |].
      apply allocate_spec.
  - intros t i j Hnin. rewrite Hder, Ht; [reflexivity |].
    destruct t; try reflexivity; elim Hnin; simpl; tauto.
Qed.

(** X3.  After the first [coeff] call of a pair style, [init_one(i,j)] for a
    pair 1 <= i <= j <= ntypes returns the cutoff [cutOffEnd] just given when
    the call covered (i,j), and stops with "All pair coeffs are not set" when
    it did not. *)
Theorem coeff_then_init_one (ntypes : nat) (fresh c : PairSMATB.pair) (narg : Z)
    (g : PairSMATB.coeff_args) (al : bool) (c' : PairSMATB.pair) (i j : nat) :
  PairSMATB.coeff ntypes fresh (false, c) narg g = OK (al, c') ->
  (1 <= i <= j)%nat -> (j <= ntypes)%nat ->
  (PairSMATB.covered g i j ->
   exists c'', PairSMATB.init_one c' i j = OK (PairSMATB.mycutOffEnd g, c'')) /\
  (~ PairSMATB.covered g i j ->
   PairSMATB.init_one c' i j = Fatal "All pair coeffs are not set").
Proof.
  intros H Hij Hj. destruct (coeff_ok _ _ _ _ _ H) as (_ & _ & Hin & Hout & _).
  cbv zeta in Hout. cbn [fst snd negb] in Hout. split.
  - intros Hc. destruct (Hin i j Hc) as [Hs Hv].
    assert (Hset : PairSMATB.setflag c' i j <> 0%Z) by (rewrite Hs; lia).
    destruct (smatb_init_one_set c' i j Hset) as (cut & c'' & E).
    exists c''. rewrite E.
    destruct (smatb_init_one_mirror _ _ _ E) as (Hcut & _).
    rewrite Hcut, (Hv PairSMATB.cutOffEnd _ eq_refl). reflexivity.
  - intros Hc. apply smatb_init_one_unset.
    destruct (Hout i j Hc) as [Hs _]. rewrite Hs.
    destruct (allocate_spec ntypes fresh c) as [Ha _]. rewrite Ha.
    destruct (Nat.leb_spec 1 i), (Nat.leb_spec i j), (Nat.leb_spec j ntypes);
      cbn [andb]; try lia; reflexivity.
Qed.

(** ** [PairSMATB::init_one] once more *)

Section Derive.
Import PairSMATB.

(** [derive] reads only the seven raw parameters of the pair it is given. *)
Lemma derive_agree (c d : pair) (i j : nat) :
  (forall t, List.In t raw_params -> tab c t i j = tab d t i j) ->
  forall t, tab (derive c i j) t i j = tab (derive d i j) t i j.
Proof.
  intros H.
  destruct (derive_spec c i j) as (_ & _ & Rc & C5 & C4 & C3 & D5 & D4 & D3 & C2).
  destruct (derive_spec d i j) as (_ & _ & Rd & E5 & E4 & E3 & F5 & F4 & F3 & E2).
  cbv zeta in *.
  assert (H0 : tab c r0 i j = tab d r0 i j) by (apply H; simpl; tauto).
  assert (H1 : tab c p i j = tab d p i j) by (apply H; simpl; tauto).
  assert (H2 : tab c q i j = tab d q i j) by (apply H; simpl; tauto).
  assert (H3 : tab c A i j = tab d A i j) by (apply H; simpl; tauto).
  assert (H4 : tab c QSI i j = tab d QSI i j) by (apply H; simpl; tauto).
  assert (H5 : tab c cutOffStart i j = tab d cutOffStart i j) by (apply H; simpl; tauto).
  assert (H6 : tab c cutOffEnd i j = tab d cutOffEnd i j) by (apply H; simpl; tauto).
  intros t. destruct t.
  - rewrite Rc, Rd by (simpl; tauto). exact H0.
  - rewrite Rc, Rd by (simpl; tauto). exact H1.
  - rewrite Rc, Rd by (simpl; tauto). exact H2.
  - rewrite Rc, Rd by (simpl; tauto). exact H3.
  - rewrite Rc, Rd by (simpl; tauto). exact H4.
  - rewrite Rc, Rd by (simpl; tauto). exact H5.
  - rewrite Rc, Rd by (simpl; tauto). exact H6.
  - rewrite C2, E2, H6. reflexivity.
  - rewrite C3, E3, H0, H1, H3, H5, H6. reflexivity.
  - rewrite C4, E4, H0, H1, H3, H5, H6. reflexivity.
  - rewrite C5, E5, H0, H1, H3, H5, H6. reflexivity.
  - rewrite D3, F3, H0, H2, H4, H5, H6. reflexivity.
  - rewrite D4, F4, H0, H2, H4, H5, H6. reflexivity.
  - rewrite D5, F5, H0, H2, H4, H5, H6. reflexivity.
Qed.

(** The arrays [init_one] returns. *)
Lemma smatb_init_one_state (c c' : pair) (i j : nat) (cut : R) :
  init_one c i j = OK (cut, c') ->
  c' = if negb (Nat.eqb i j) then mirror (derive c i j) i j else derive c i j.
Proof.
  unfold init_one. destruct (setflag c i j =? 0)%Z; [discriminate |].
  intros H. apply OK_pair_inj in H. now destruct H as [_ <-].
Qed.

End Derive.

(** X4.  [init_one] can be repeated: a second [init_one(i,j)] on the arrays
    the first one left returns the same cutoff and leaves every flag and every
    entry of the fourteen arrays as it found them. *)
Theorem init_one_idempotent (c c' : PairSMATB.pair) (i j : nat) (cut : R) :
  PairSMATB.init_one c i j = OK (cut, c') ->
  exists c'', PairSMATB.init_one c' i j = OK (cut, c'') /\ PairSMATB.same_tables c' c''.
Proof.
  intros E.
  destruct (smatb_init_one_mirror _ _ _ E) as (Hcut & Hij & Hji & Hsym & Hat).
  destruct (smatb_init_one_set c' i j Hij) as (cut2 & c'' & E2).
  destruct (smatb_init_one_mirror _ _ _ E2) as (Hcut2 & _).
  destruct (derive_spec c i j) as (_ & _ & Raw & _). cbv zeta in Raw.
  assert (Ecut : cut2 = cut).
  { rewrite Hcut2, Hat, Raw, <- Hcut by (simpl; tauto). reflexivity. }
  rewrite Ecut in E2. clear Ecut Hcut2. exists c''. split; [exact E2 |].
  assert (D : forall t k m, PairSMATB.tab (PairSMATB.derive c' i j) t k m
                            = PairSMATB.tab c' t k m).
  { intros t k m. destruct (derive_spec c' i j) as (_ & Oth & _). cbv zeta in Oth.
    destruct (Nat.eq_dec k i) as [-> | Nk];
      [destruct (Nat.eq_dec m j) as [-> | Nm] |].
    - rewrite (@derive_agree c' (PairSMATB.derive c i j) i j).
      + rewrite (@derive_agree (PairSMATB.derive c i j) c i j); [now rewrite Hat |].
        intros t' Ht'. now apply Raw.
      + intros t' _. apply Hat.
    - apply Oth. intros H; injection H; auto.
    - apply Oth. intros H; injection H; auto. }
  assert (F : PairSMATB.setflag (PairSMATB.derive c' i j) = PairSMATB.setflag c')
    by apply derive_spec.
  rewrite (smatb_init_one_state _ _ _ E2).
  destruct (Nat.eqb_spec i j) as [Eij | Nij]; cbn [negb].
  - split; [intros k m; now rewrite F | exact D].
  - destruct (mirror_spec (PairSMATB.derive c' i j) Nij) as (Fm & Oth & Sym).
    assert (S1 : PairSMATB.setflag c' j i = 1%Z).
    { rewrite (smatb_init_one_state _ _ _ E).
      apply Nat.eqb_neq in Nij. rewrite Nij. cbn [negb].
      apply Nat.eqb_neq in Nij.
      destruct (mirror_spec (PairSMATB.derive c i j) Nij) as (Fm0 & _).
      rewrite Fm0. apply store2_same. }
    split.
    + intros k m. rewrite Fm, F. unfold store2.
      destruct (Nat.eqb_spec k j) as [-> | Nk]; cbn [andb]; [| reflexivity].
      destruct (Nat.eqb_spec m i) as [-> | Nm]; [now rewrite S1 | reflexivity].
    + intros t k m.
      destruct (Nat.eq_dec k j) as [-> | Nk];
        [destruct (Nat.eq_dec m i) as [-> | Nm] |].
      * rewrite Sym, D. symmetry. apply Hsym.
      * rewrite Oth by (intros H; injection H; auto). apply D.
      * rewrite Oth by (intros H; injection H; auto). apply D.
Qed.

(** X5.  [init_one(i,j)] writes nothing outside the two entries (i,j) and
    (j,i): all other flags and array entries, the flag and the seven raw
    parameters of (i,j) itself, and the three restart settings are as
    before. *)
Theorem init_one_touches_only_its_pair (c c' : PairSMATB.pair) (i j : nat) (cut : R) :
  PairSMATB.init_one c i j = OK (cut, c') ->
  (forall k l, (k, l) <> (i, j) -> (k, l) <> (j, i) ->
     PairSMATB.setflag c' k l = PairSMATB.setflag c k l /\
     forall t, PairSMATB.tab c' t k l = PairSMATB.tab c t k l) /\
  PairSMATB.setflag c' i j = PairSMATB.setflag c i j /\
  (forall t, List.In t PairSMATB.raw_params ->
     PairSMATB.tab c' t i j = PairSMATB.tab c t i j) /\
  PairSMATB.offset_flag c' = PairSMATB.offset_flag c /\
  PairSMATB.mix_flag c' = PairSMATB.mix_flag c /\
  PairSMATB.tail_flag c' = PairSMATB.tail_flag c.
Proof.
  intros E.
  destruct (smatb_init_one_mirror _ _ _ E) as (_ & _ & _ & _ & Hat).
  destruct (derive_spec c i j) as (F & Oth & Raw & _). cbv zeta in F, Oth, Raw.
  assert (Fl : PairSMATB.offset_flag (PairSMATB.derive c i j) = PairSMATB.offset_flag c /\
               PairSMATB.mix_flag (PairSMATB.derive c i j) = PairSMATB.mix_flag c /\
               PairSMATB.tail_flag (PairSMATB.derive c i j) = PairSMATB.tail_flag c)
    by (repeat split).
  rewrite (smatb_init_one_state _ _ _ E).
  destruct (Nat.eqb_spec i j) as [Eij | Nij]; cbn [negb].
  - split; [| split; [now rewrite F | split; [exact Raw | exact Fl]]].
    intros k l H1 _. split; [now rewrite F |]. intros t. now apply Oth.
  - destruct (mirror_spec (PairSMATB.derive c i j) Nij) as (Fm & Oth' & _).
    assert (Hne : (i, j) <> (j, i)) by (intros H; injection H; auto).
    split; [| split; [| split; [| ]]].
    + intros k l H1 H2. split.
      * rewrite Fm, store2_other, F by exact H2. reflexivity.
      * intros t. rewrite Oth' by exact H2. now apply Oth.
    + rewrite Fm, store2_other, F by exact Hne. reflexivity.
    + intros t Ht. rewrite Oth' by exact Hne. now apply Raw.
    + unfold PairSMATB.mirror.
      apply fold_left_invariant with
        (P := fun u => PairSMATB.offset_flag u = PairSMATB.offset_flag c /\
                       PairSMATB.mix_flag u = PairSMATB.mix_flag c /\
                       PairSMATB.tail_flag u = PairSMATB.tail_flag c).
      * exact Fl.
      * intros u t Hu. exact Hu.
Qed.

(** ** The restart file once more *)

Section RestartFrame.
Import PairSMATB.

Lemma changed_within_refl (D : nat -> nat -> Prop) (c : pair) : changed_within D c c.
Proof. split; reflexivity. Qed.

Lemma changed_within_trans (D : nat -> nat -> Prop) (c1 c2 c3 : pair) :
  changed_within D c1 c2 -> changed_within D c2 c3 -> changed_within D c1 c3.
Proof.
  intros [S1 T1] [S2 T2]. split.
  - intros k l H. now rewrite S2, S1.
  - intros t k l H. now rewrite T2, T1.
Qed.

Lemma changed_within_weaken (D D' : nat -> nat -> Prop) (c c' : pair) :
  (forall k l, D k l -> D' k l) -> changed_within D c c' -> changed_within D' c c'.
Proof.
  intros HD [S1 T1]. split.
  - intros k l H. apply S1. intros HDk. apply H, HD, HDk.
  - intros t k l [H | H]; apply T1; [left | now right].
    intros HDk. apply H, HD, HDk.
Qed.

Lemma read_double_changed (t : param) (i j : nat) (cf : pair * list item) :
  List.In t raw_params ->
  changed_within (fun k l => (k, l) = (i, j)) (fst cf) (fst (read_double t i j cf)).
Proof.
  intros Ht. unfold read_double.
  destruct (fread_double (snd cf)) as [[v |] rest]; cbn [fst];
    [| apply changed_within_refl].
  split; [reflexivity |].
  intros t' k l [H | H].
  - now apply tab_put_other_index.
  - apply tab_put_other_param. destruct t', t; try reflexivity; elim H; exact Ht.
Qed.

Lemma read_pair_changed (i j : nat) (cf : pair * list item) :
  changed_within (fun k l => (k, l) = (i, j)) (fst cf) (fst (read_pair (i, j) cf)).
Proof.
  unfold read_pair. cbn [fst snd].
  assert (H0 : changed_within (fun k l => (k, l) = (i, j)) (fst cf)
                              (fst (read_setflag i j cf))).
  { unfold read_setflag. destruct (fread_int (snd cf)) as [[v |] rest]; cbn [fst];
      [| apply changed_within_refl].
    split; [| reflexivity]. intros k l H. simpl. now apply store2_other. }
  destruct (negb _); [| exact H0].
  repeat (eapply changed_within_trans; [| apply read_double_changed; simpl; tauto]).
  exact H0.
Qed.

Lemma read_restart_settings_tables (cf : pair * list item) :
  setflag (fst (read_restart_settings cf)) = setflag (fst cf) /\
  tab (fst (read_restart_settings cf)) = tab (fst cf).
Proof.
  unfold read_restart_settings.
  destruct (fread_int (snd cf)) as [[v1 |] r1]; cbn [fst snd];
    destruct (fread_int r1) as [[v2 |] r2]; cbn [fst snd];
    destruct (fread_int r2) as [[v3 |] r3]; cbn [fst snd setflag tab];
    split; reflexivity.
Qed.

Lemma read_restart_changed (ntypes : nat) (fresh c0 : pair) (fp : list item) :
  changed_within (fun k l => (1 <= k <= l /\ l <= ntypes)%nat) fresh
                 (fst (read_restart ntypes fresh c0 fp)).
Proof.
  rewrite read_restart_loops.
  apply fold_left_invariant_In with
    (P := fun cf : pair * list item =>
            changed_within (fun k l => (1 <= k <= l /\ l <= ntypes)%nat) fresh (fst cf)).
  - cbn [fst].
    destruct (allocate_spec ntypes fresh (fst (read_restart_settings (c0, fp))))
      as [As At].
    split.
    + intros k l H. rewrite As.
      destruct (Nat.leb_spec 1 k), (Nat.leb_spec k l), (Nat.leb_spec l ntypes);
        cbn [andb]; try reflexivity. elim H; lia.
    + intros t k l _. now rewrite At.
  - intros cf [i j] Hin Hcf. apply in_type_pairs in Hin.
    eapply changed_within_trans; [exact Hcf |].
    apply changed_within_weaken with (D := fun k l => (k, l) = (i, j));
      [| apply read_pair_changed].
    intros k l E. injection E as -> ->. exact Hin.
Qed.

Lemma read_restart_agrees (ntypes : nat) (c c0 fresh : pair) (rest : list item)
    (i j : nat) :
  (1 <= i <= j)%nat -> (j <= ntypes)%nat ->
  agree_on c (fst (read_restart ntypes fresh c0 (write_restart ntypes c [] ++ rest))) i j.
Proof.
  intros Hij Hj. rewrite read_restart_loops, write_restart_layout. simpl.
  match goal with
  | |- context [fold_left _ _ (?c1, _)] =>
      destruct (read_records c rest (type_pairs_NoDup ntypes) c1) as (_ & Hag & _)
  end.
  apply Hag. apply in_type_pairs. lia.
Qed.

Lemma file_bytes_app (fp fp' : list item) :
  file_bytes (fp ++ fp') = (file_bytes fp + file_bytes fp')%nat.
Proof.
  induction fp as [| it fp IH]; [reflexivity |].
  simpl. rewrite IH. lia.
Qed.

Lemma records_bytes (c : pair) (L : list (nat * nat)) :
  file_bytes (flat_map (fun ij => record_of c (fst ij) (snd ij)) L)
  = (4 * List.length L
     + 56 * List.length (filter (fun ij => negb (setflag c (fst ij) (snd ij) =? 0)%Z) L))%nat.
Proof.
  induction L as [| [i j] L IH]; [reflexivity |].
  cbn [flat_map filter fst snd]. rewrite file_bytes_app, IH.
  unfold record_of. destruct (negb (setflag c i j =? 0)%Z); simpl; lia.
Qed.

Lemma triangle_rows (n a m : nat) :
  (a + m = S n)%nat ->
  (2 * List.length (flat_map (fun i => List.map (fun j => (i, j)) (seq i (S n - i))) (seq a m))
   = m * (m + 1))%nat.
Proof.
  revert a. induction m as [| m IH]; intros a H; [reflexivity |].
  cbn [seq flat_map]. rewrite length_app, length_map, length_seq.
  specialize (IH (S a) ltac:(lia)). nia.
Qed.

Lemma type_pairs_length (ntypes : nat) :
  (2 * List.length (type_pairs ntypes) = ntypes * (ntypes + 1))%nat.
Proof.
  unfold type_pairs. replace (S ntypes - 1)%nat with ntypes by lia.
  apply triangle_rows. lia.
Qed.

End RestartFrame.

(** X6.  Whatever the file holds, [read_restart] stores into the arrays it
    has just allocated only the flags and the seven raw parameters of the
    pairs 1 <= i <= j <= ntypes.  The derived arrays (a3, a4, a5, x3, x4, x5,
    cutOffEnd2) and every entry outside that triangle hold what the allocator
    returned: nothing of the arrays the pair style had before, and nothing
    from the file. *)
Theorem read_restart_writes_only_records (ntypes : nat) (fresh c0 : PairSMATB.pair)
    (fp : list PairSMATB.item) :
  let r := PairSMATB.read_restart ntypes fresh c0 fp in
  (forall t k l, ~ List.In t PairSMATB.raw_params ->
     PairSMATB.tab (fst r) t k l = PairSMATB.tab fresh t k l) /\
  (forall k l, ~ (1 <= k <= l /\ l <= ntypes)%nat ->
     PairSMATB.setflag (fst r) k l = PairSMATB.setflag fresh k l /\
     forall t, PairSMATB.tab (fst r) t k l = PairSMATB.tab fresh t k l).
Proof.
  intros r. destruct (read_restart_changed ntypes fresh c0 fp) as [Hs Ht]. fold r in Hs, Ht.
  split.
  - intros t k l H. apply Ht. now right.
  - intros k l H. split; [now apply Hs |]. intros t. apply Ht. now left.
Qed.

(** X7.  A pair style read back from its own restart file initialises like
    the one that was written: for 1 <= i <= j <= ntypes, [init_one(i,j)] fails
    after the restart if the pair was unset, and otherwise returns the same
    cutoff and the same fourteen entries at (i,j) and (j,i) as [init_one(i,j)]
    on the original. *)
Theorem restart_then_init_one (ntypes : nat) (c c0 fresh : PairSMATB.pair)
    (rest : list PairSMATB.item) (i j : nat) :
  (1 <= i <= j)%nat -> (j <= ntypes)%nat ->
  let r := PairSMATB.read_restart ntypes fresh c0
             (PairSMATB.write_restart ntypes c [] ++ rest) in
  (PairSMATB.setflag c i j = 0%Z ->
   PairSMATB.init_one (fst r) i j = Fatal "All pair coeffs are not set") /\
  (forall cut c1, PairSMATB.init_one c i j = OK (cut, c1) ->
     exists c2, PairSMATB.init_one (fst r) i j = OK (cut, c2) /\
                forall t, PairSMATB.tab c2 t i j = PairSMATB.tab c1 t i j /\
                          PairSMATB.tab c2 t j i = PairSMATB.tab c1 t j i).
Proof.
  intros Hij Hj r.
  destruct (read_restart_agrees c c0 fresh rest Hij Hj) as [Hflag Hraw].
  fold r in Hflag, Hraw.
  split.
  - intros H0. apply smatb_init_one_unset. now rewrite Hflag.
  - intros cut c1 E1.
    assert (Hset : PairSMATB.setflag c i j <> 0%Z).
    { intros H0. rewrite (smatb_init_one_unset c i j H0) in E1. discriminate. }
    assert (Hset' : PairSMATB.setflag (fst r) i j <> 0%Z) by now rewrite Hflag.
    destruct (smatb_init_one_set (fst r) i j Hset') as (cut2 & c2 & E2).
    destruct (smatb_init_one_mirror _ _ _ E1) as (Hcut1 & _ & _ & Hsym1 & Hat1).
    destruct (smatb_init_one_mirror _ _ _ E2) as (Hcut2 & _ & _ & Hsym2 & Hat2).
    exists c2. split.
    + rewrite E2, Hcut2, Hcut1, (Hraw Hset PairSMATB.cutOffEnd) by (simpl; tauto).
      reflexivity.
    + assert (At : forall t, PairSMATB.tab c2 t i j = PairSMATB.tab c1 t i j).
      { intros t. rewrite Hat2, Hat1. apply derive_agree. intros t' Ht'. now apply Hraw. }
      intros t. split; [apply At |]. now rewrite Hsym2, Hsym1.
Qed.

(** X8.  The restart file of [ntypes] types holds three [int] settings, one
    [int] flag for each of the ntypes (ntypes + 1) / 2 pairs, and seven
    doubles for each pair whose flag is set (the equation is stated doubled
    to avoid the division). *)
Theorem restart_file_size (ntypes : nat) (c : PairSMATB.pair) :
  let set_pairs :=
    filter (fun ij => negb (PairSMATB.setflag c (fst ij) (snd ij) =? 0)%Z)
           (PairSMATB.type_pairs ntypes) in
  (2 * PairSMATB.file_bytes (PairSMATB.write_restart ntypes c [])
   = 2 * (3 * PairSMATB.sizeof_int)
     + PairSMATB.sizeof_int * (ntypes * (ntypes + 1))
     + 2 * (7 * PairSMATB.sizeof_double * List.length set_pairs))%nat /\
  (2 * List.length set_pairs <= ntypes * (ntypes + 1))%nat.
Proof.
  intros set_pairs. rewrite write_restart_layout. cbn [app].
  assert (T := type_pairs_length ntypes).
  assert (L : (List.length set_pairs <= List.length (PairSMATB.type_pairs ntypes))%nat)
    by apply filter_length_le.
  split; [| lia].
  change (PairSMATB.file_bytes
            (PairSMATB.IInt (PairSMATB.offset_flag c)
             :: PairSMATB.IInt (PairSMATB.mix_flag c)
                :: PairSMATB.IInt (PairSMATB.tail_flag c)
                   :: flat_map (fun ij => PairSMATB.record_of c (fst ij) (snd ij))
                        (PairSMATB.type_pairs ntypes)))
    with (4 + (4 + (4 + PairSMATB.file_bytes
                           (flat_map (fun ij => PairSMATB.record_of c (fst ij) (snd ij))
                              (PairSMATB.type_pairs ntypes)))))%nat.
  rewrite records_bytes. fold set_pairs.
  unfold PairSMATB.sizeof_int, PairSMATB.sizeof_double. lia.
Qed.

(** ** The four communication callbacks *)

Section Exchange.
Import PairSMATB.

Lemma pack_forward_spec (n : nat) (lst : nat -> nat) (st : state) :
  let bs := pack_forward_comm n lst st in
  List.length (fst bs) = n /\
  (forall m, (m < n)%nat -> nth m (fst bs) 0 = on_eb st (lst m)) /\
  on_eb (snd bs) = on_eb st /\ f (snd bs) = f st.
Proof.
  unfold pack_forward_comm.
  apply for_loop_invariant with
    (P := fun k (bs : list R * state) =>
            List.length (fst bs) = k /\
            (forall m, (m < k)%nat -> nth m (fst bs) 0 = on_eb st (lst m)) /\
            on_eb (snd bs) = on_eb st /\ f (snd bs) = f st).
  - cbn [fst snd]. split; [reflexivity |]. split; [intros m Hm; lia |]. split; reflexivity.
  - intros k bs _ (Hl & Hn & Ho & Hf). cbn [fst snd on_eb f note].
    split; [rewrite length_app, Hl; simpl; lia |].
    split; [| split; assumption].
    intros m Hm. destruct (Nat.eq_dec m k) as [-> | Hne].
    + rewrite app_nth2, Hl, Nat.sub_diag, Ho by lia. reflexivity.
    + rewrite app_nth1 by lia. apply Hn. lia.
Qed.

Lemma pack_reverse_spec (n first : nat) (st : state) :
  let bs := pack_reverse_comm n first st in
  List.length (fst bs) = n /\
  (forall m, (m < n)%nat -> nth m (fst bs) 0 = on_eb st (first + m)%nat) /\
  on_eb (snd bs) = on_eb st /\ f (snd bs) = f st.
Proof.
  unfold pack_reverse_comm.
  apply for_loop_invariant with
    (P := fun k (bs : list R * state) =>
            List.length (fst bs) = k /\
            (forall m, (m < k)%nat -> nth m (fst bs) 0 = on_eb st (first + m)%nat) /\
            on_eb (snd bs) = on_eb st /\ f (snd bs) = f st).
  - cbn [fst snd]. split; [reflexivity |]. split; [intros m Hm; lia |]. split; reflexivity.
  - intros k bs _ (Hl & Hn & Ho & Hf). cbn [fst snd on_eb f note].
    split; [rewrite length_app, Hl; simpl; lia |].
    split; [| split; assumption].
    intros m Hm. destruct (Nat.eq_dec m k) as [-> | Hne].
    + rewrite app_nth2, Hl, Nat.sub_diag, Ho by lia. reflexivity.
    + rewrite app_nth1 by lia. apply Hn. lia.
Qed.

Lemma unpack_forward_spec (n first : nat) (buf : list R) (st : state) :
  let st' := unpack_forward_comm n first buf st in
  (forall m, (m < n)%nat -> on_eb st' (first + m)%nat = nth m buf 0) /\
  (forall k, ~ (first <= k < first + n)%nat -> on_eb st' k = on_eb st k) /\
  f st' = f st.
Proof.
  unfold unpack_forward_comm.
  apply for_loop_invariant with
    (P := fun j (u : state) =>
            (forall m, (m < j)%nat -> on_eb u (first + m)%nat = nth m buf 0) /\
            (forall k, ~ (first <= k < first + j)%nat -> on_eb u k = on_eb st k) /\
            f u = f st).
  - split; [intros m Hm; lia |]. split; reflexivity.
  - intros j u _ (Hin & Hout & Hf). cbn [on_eb f put_on_eb].
    split; [| split; [| exact Hf]].
    + intros m Hm. destruct (Nat.eq_dec m j) as [-> | Hne].
      * apply store1_same.
      * rewrite store1_other by lia. apply Hin. lia.
    + intros k Hk. rewrite store1_other by lia. apply Hout. lia.
Qed.

Lemma unpack_reverse_spec (n : nat) (lst : nat -> nat) (buf : list R) (st : state) :
  let st' := unpack_reverse_comm n lst buf st in
  (forall k, on_eb st' k
     = on_eb st k
       + for_loop n (fun i acc => if Nat.eqb (lst i) k then acc + nth i buf 0 else acc) 0) /\
  f st' = f st.
Proof.
  unfold unpack_reverse_comm.
  apply for_loop_invariant with
    (P := fun j (u : state) =>
            (forall k, on_eb u k
               = on_eb st k
                 + for_loop j (fun i acc => if Nat.eqb (lst i) k then acc + nth i buf 0
                                            else acc) 0) /\
            f u = f st).
  - split; [intros k; unfold for_loop; simpl; ring | reflexivity].
  - intros j u _ (Ho & Hf). cbv zeta. cbn [on_eb f put_on_eb]. split; [| exact Hf].
    intros k. rewrite for_loop_S. unfold store1.
    destruct (Nat.eqb_spec k (lst j)) as [-> | Hne].
    + rewrite Nat.eqb_refl, Ho. ring.
    + destruct (Nat.eqb_spec (lst j) k) as [E | _]; [now elim Hne | apply Ho].
Qed.

Lemma ghost_sum_none (n first : nat) (lst : nat -> nat) (o : nat -> R) (k : nat) :
  (forall i, (i < n)%nat -> lst i <> k) -> ghost_sum n first lst o k = 0.
Proof.
  unfold ghost_sum. induction n as [| n IH]; intros H; [reflexivity |].
  rewrite for_loop_S. rewrite IH by (intros; apply H; lia).
  destruct (Nat.eqb_spec (lst n) k) as [E | _]; [| reflexivity].
  elim (H n); [lia | exact E].
Qed.

Lemma ghost_sum_single (n first : nat) (lst : nat -> nat) (o : nat -> R) (m : nat) :
  (m < n)%nat -> (forall i, (i < n)%nat -> lst i = lst m -> i = m) ->
  ghost_sum n first lst o (lst m) = o (first + m)%nat.
Proof.
  induction n as [| n IH]; intros Hm H; [lia |].
  unfold ghost_sum. rewrite for_loop_S. fold (ghost_sum n first lst o (lst m)).
  destruct (Nat.eq_dec m n) as [-> | Hne].
  - rewrite Nat.eqb_refl, ghost_sum_none; [ring |].
    intros i Hi E. assert (i = n) by (apply H; [lia | exact E]). lia.
  - rewrite IH; [| lia | intros; apply H; [lia | assumption]].
    destruct (Nat.eqb_spec (lst n) (lst m)) as [E | _]; [| reflexivity].
    assert (n = m) by (apply H; [lia | exact E]). lia.
Qed.

End Exchange.

(** X9.  Unpacking at [first] what [pack_forward_comm] packed for [n] list
    entries: the buffer has [n] values, ghost [first + m] holds the [on_eb] of
    the owner [list[m]] as it was before the exchange, every entry outside
    [first .. first+n-1] is unchanged, and so are the forces. *)
Theorem forward_exchange_copies (n first : nat) (lst : nat -> nat) (st : PairSMATB.state) :
  let bs := PairSMATB.pack_forward_comm n lst st in
  let st' := PairSMATB.unpack_forward_comm n first (fst bs) (snd bs) in
  List.length (fst bs) = n /\
  (forall m, (m < n)%nat ->
     PairSMATB.on_eb st' (first + m)%nat = PairSMATB.on_eb st (lst m)) /\
  (forall k, ~ (first <= k < first + n)%nat ->
     PairSMATB.on_eb st' k = PairSMATB.on_eb st k) /\
  PairSMATB.f st' = PairSMATB.f st.
Proof.
  intros bs st'.
  destruct (pack_forward_spec n lst st) as (Hl & Hb & Ho & Hf). fold bs in Hl, Hb, Ho, Hf.
  destruct (unpack_forward_spec n first (fst bs) (snd bs)) as (Hin & Hout & Hf').
  fold st' in Hin, Hout, Hf'.
  split; [exact Hl |]. split; [| split].
  - intros m Hm. rewrite Hin, Hb by exact Hm. reflexivity.
  - intros k Hk. rewrite Hout, Ho by exact Hk. reflexivity.
  - now rewrite Hf', Hf.
Qed.

(** X10.  Unpacking with [list] what [pack_reverse_comm] packed from the [n]
    ghosts at [first]: the buffer has [n] values and every [on_eb[k]] has
    grown by the sum of the ghosts whose list entry is [k], taken as they
    were before the exchange.  So an atom that is not in the list is
    unchanged, and an owner listed once receives exactly its ghost. *)
Theorem reverse_exchange_accumulates (n first : nat) (lst : nat -> nat)
    (st : PairSMATB.state) :
  let bs := PairSMATB.pack_reverse_comm n first st in
  let st' := PairSMATB.unpack_reverse_comm n lst (fst bs) (snd bs) in
  List.length (fst bs) = n /\
  (forall k, PairSMATB.on_eb st' k
             = PairSMATB.on_eb st k
               + PairSMATB.ghost_sum n first lst (PairSMATB.on_eb st) k) /\
  (forall k, (forall i, (i < n)%nat -> lst i <> k) ->
     PairSMATB.on_eb st' k = PairSMATB.on_eb st k) /\
  (forall m, (m < n)%nat -> (forall i, (i < n)%nat -> lst i = lst m -> i = m) ->
     PairSMATB.on_eb st' (lst m)
     = PairSMATB.on_eb st (lst m) + PairSMATB.on_eb st (first + m)%nat) /\
  PairSMATB.f st' = PairSMATB.f st.
Proof.
  intros bs st'.
  destruct (pack_reverse_spec n first st) as (Hl & Hb & Ho & Hf). fold bs in Hl, Hb, Ho, Hf.
  destruct (unpack_reverse_spec n lst (fst bs) (snd bs)) as (Hacc & Hf').
  fold st' in Hacc, Hf'.
  assert (Hsum : forall k, PairSMATB.on_eb st' k
                           = PairSMATB.on_eb st k
                             + PairSMATB.ghost_sum n first lst (PairSMATB.on_eb st) k).
  { intros k. rewrite Hacc, Ho. f_equal. unfold PairSMATB.ghost_sum.
    apply for_loop_ext_lt. intros i acc Hi. now rewrite Hb. }
  split; [exact Hl |]. split; [exact Hsum |]. split; [| split; [| now rewrite Hf', Hf]].
  - intros k Hk. rewrite Hsum, ghost_sum_none by exact Hk. ring.
  - intros m Hm Hinj. rewrite Hsum, ghost_sum_single by assumption. reflexivity.
Qed.

(** ** The forces compute() leaves *)

Section Forces.
Import PairSMATB.

Lemma total_force_S (g : nat -> vec3) (n : nat) :
  total_force g (S n) = vadd (total_force g n) (g n).
Proof. unfold total_force. now rewrite for_loop_S. Qed.

Lemma total_force_ext (g h : nat -> vec3) (n : nat) :
  (forall k, (k < n)%nat -> g k = h k) -> total_force g n = total_force h n.
Proof.
  intros H. unfold total_force. apply for_loop_ext_lt. intros k acc Hk. now rewrite H.
Qed.

Lemma total_force_store (g : nat -> vec3) (n k : nat) (v : vec3) :
  (k < n)%nat ->
  total_force (store1 g k v) n = vadd (total_force g n) (vsub v (g k)).
Proof.
  induction n as [| n IH]; intros Hk; [lia |].
  rewrite !total_force_S. destruct (Nat.eq_dec k n) as [-> | Hne].
  - rewrite store1_same.
    rewrite (@total_force_ext (store1 g n v) g n)
      by (intros i Hi; apply store1_other; lia).
    apply vec3_ext; unfold vadd, vsub, c0, c1, c2; cbn [fst snd]; ring.
  - rewrite IH by lia. rewrite store1_other by lia.
    apply vec3_ext; unfold vadd, vsub, c0, c1, c2; cbn [fst snd]; ring.
Qed.

Lemma second_loop_pair_total (c : pair) (a : atom) (n i j : nat) (s : state) :
  (i < n)%nat -> (j < n)%nat ->
  total_force (f (second_loop_pair true c a i j s)) n = total_force (f s) n.
Proof.
  intros Hi Hj. unfold second_loop_pair.
  destruct (within c a i j); [| reflexivity]. cbv zeta. cbn [orb].
  cbn [f put_f note on_eb].
  set (v := vscale (del_of a i j) _).
  rewrite !total_force_store by assumption.
  unfold store1. destruct (Nat.eqb j i);
    apply vec3_ext; unfold vadd, vsub, c0, c1, c2; cbn [fst snd]; ring.
Qed.

Lemma second_loop_pair_ghost (c : pair) (a : atom) (i j k : nat) (s : state) :
  (i < nlocal a)%nat -> (nlocal a <= k)%nat ->
  f (second_loop_pair false c a i j s) k = f s k.
Proof.
  intros Hi Hk. unfold second_loop_pair.
  destruct (within c a i j); [| reflexivity]. cbv zeta. cbn [orb].
  destruct (Nat.ltb_spec j (nlocal a)) as [Hj | Hj]; cbn [f put_f note].
  - rewrite !store1_other by lia. reflexivity.
  - rewrite store1_other by lia. reflexivity.
Qed.

End Forces.

(** X11.  With Newton pair on and a neighbor list over the atoms below
    [nall = nlocal + nghost], compute() leaves the sum of the forces on these
    atoms as it found it: what the pairs add to one atom they take from
    another. *)
Theorem total_force_conserved (NEIGHMASK : Z) (c : PairSMATB.pair) (a : PairSMATB.atom)
    (l : PairSMATB.neigh_list) (swaps : list PairSMATB.swap) (st : PairSMATB.state) :
  let nall := (PairSMATB.nlocal a + PairSMATB.nghost a)%nat in
  (forall ii, (ii < PairSMATB.inum l)%nat -> (PairSMATB.ilist l ii < nall)%nat) ->
  (forall ii jj, (ii < PairSMATB.inum l)%nat ->
     (jj < PairSMATB.numneigh l (PairSMATB.ilist l ii))%nat ->
     (PairSMATB.neighbor NEIGHMASK l (PairSMATB.ilist l ii) jj < nall)%nat) ->
  PairSMATB.total_force (PairSMATB.f (PairSMATB.compute NEIGHMASK true c a l swaps st)) nall
  = PairSMATB.total_force (PairSMATB.f st) nall.
Proof.
  intros nall Hi Hj. unfold PairSMATB.compute. cbv zeta. fold nall.
  rewrite <- (compute_f_before_second NEIGHMASK c a l true swaps st nall).
  unfold PairSMATB.second_loop.
  match goal with
  | |- PairSMATB.total_force (PairSMATB.f (for_loop _ _ ?s0)) _ = _ =>
      apply for_loop_invariant with
        (P := fun (_ : nat) u =>
                PairSMATB.total_force (PairSMATB.f u) nall
                = PairSMATB.total_force (PairSMATB.f s0) nall); [reflexivity |]
  end.
  intros ii u Hii Hu.
  apply for_loop_invariant with
    (P := fun (_ : nat) v => PairSMATB.total_force (PairSMATB.f v) nall = _);
    [exact Hu |].
  intros jj v Hjj Hv. rewrite <- Hv.
  apply second_loop_pair_total; [now apply Hi | now apply Hj].
Qed.

(** X12.  With Newton pair off and a list whose atoms [i] are owned,
    compute() never writes the force of a ghost atom. *)
Theorem newton_off_leaves_ghost_forces (NEIGHMASK : Z) (c : PairSMATB.pair)
    (a : PairSMATB.atom) (l : PairSMATB.neigh_list) (swaps : list PairSMATB.swap)
    (st : PairSMATB.state) (k : nat) :
  (forall ii, (ii < PairSMATB.inum l)%nat ->
     (PairSMATB.ilist l ii < PairSMATB.nlocal a)%nat) ->
  (PairSMATB.nlocal a <= k)%nat ->
  PairSMATB.f (PairSMATB.compute NEIGHMASK false c a l swaps st) k = PairSMATB.f st k.
Proof.
  intros Hi Hk. unfold PairSMATB.compute. cbv zeta.
  rewrite <- (compute_f_before_second NEIGHMASK c a l false swaps st (PairSMATB.nlocal a)).
  unfold PairSMATB.second_loop.
  match goal with
  | |- PairSMATB.f (for_loop _ _ ?s0) _ = _ =>
      apply for_loop_invariant with
        (P := fun (_ : nat) u => PairSMATB.f u k = PairSMATB.f s0 k); [reflexivity |]
  end.
  intros ii u Hii Hu.
  apply for_loop_invariant with (P := fun (_ : nat) v => PairSMATB.f v k = _);
    [exact Hu |].
  intros jj v Hjj Hv. rewrite <- Hv.
  apply second_loop_pair_ghost; [now apply Hi | exact Hk].
Qed.

(** X13.  When no pair of the neighbor list passes the cutoff test,
    compute() leaves every force unchanged, with Newton pair on or off. *)
Theorem no_force_beyond_cutoff (NEIGHMASK : Z) (newton_pair : bool) (c : PairSMATB.pair)
    (a : PairSMATB.atom) (l : PairSMATB.neigh_list) (swaps : list PairSMATB.swap)
    (st : PairSMATB.state) :
  (forall ii jj, (ii < PairSMATB.inum l)%nat ->
     (jj < PairSMATB.numneigh l (PairSMATB.ilist l ii))%nat ->
     PairSMATB.within c a (PairSMATB.ilist l ii)
       (PairSMATB.neighbor NEIGHMASK l (PairSMATB.ilist l ii) jj) = false) ->
  PairSMATB.f (PairSMATB.compute NEIGHMASK newton_pair c a l swaps st) = PairSMATB.f st.
Proof.
  intros H. unfold PairSMATB.compute. cbv zeta.
  assert (S2 : forall s, PairSMATB.second_loop NEIGHMASK newton_pair c a l s = s).
  { intros s. unfold PairSMATB.second_loop.
    apply for_loop_invariant with (P := fun (_ : nat) u => u = s); [reflexivity |].
    intros ii u Hii ->.
    apply for_loop_invariant with (P := fun (_ : nat) u => u = s); [reflexivity |].
    intros jj u Hjj ->. unfold PairSMATB.second_loop_pair. now rewrite H. }
  rewrite S2. destruct newton_pair; apply (compute_f_before_second NEIGHMASK c a l true).
Qed.

(** ** The energy tallies *)

Section Energy.
Import PairSMATB.

Variable NEIGHMASK : Z.
Variable newton_pair : bool.
Variable c : pair.
Variable a : atom.
Variable l : neigh_list.
Variable ev : ev_flags.

Lemma support_loop_ev_state (se : state * tally) :
  fst (support_loop_ev a l ev se) = support_loop a l (fst se).
Proof.
  unfold support_loop_ev, support_loop.
  induction (inum l) as [| n IH]; [reflexivity |].
  rewrite !for_loop_S, <- IH. destruct (Nat.ltb _ _); reflexivity.
Qed.

Lemma second_loop_ev_state (se : state * tally) :
  fst (second_loop_ev NEIGHMASK newton_pair c a l ev se)
  = second_loop NEIGHMASK newton_pair c a l (fst se).
Proof.
  unfold second_loop_ev, second_loop.
  induction (inum l) as [| n IH]; [reflexivity |].
  rewrite !for_loop_S, <- IH.
  generalize (for_loop n
    (fun ii se0 => for_loop (numneigh l (ilist l ii))
       (fun jj se1 => second_loop_pair_ev newton_pair c a ev (ilist l ii)
                        (neighbor NEIGHMASK l (ilist l ii) jj) se1) se0) se).
  intros u. cbv zeta.
  induction (numneigh l (ilist l n)) as [| m IHm]; [reflexivity |].
  rewrite !for_loop_S, <- IHm. unfold second_loop_pair_ev at 1.
  unfold second_loop_pair at 2.
  destruct (within c a _ _) eqn:W; [| reflexivity].
  cbn [fst]. unfold second_loop_pair. rewrite W. reflexivity.
Qed.

Lemma total_energy_S (e : nat -> R) (n : nat) :
  total_energy e (S n) = total_energy e n + e n.
Proof. unfold total_energy. now rewrite for_loop_S. Qed.

Lemma total_energy_store (e : nat -> R) (n k : nat) (v : R) :
  (k < n)%nat -> total_energy (store1 e k v) n = total_energy e n + (v - e k).
Proof.
  induction n as [| n IH]; intros Hk; [lia |].
  rewrite !total_energy_S. destruct (Nat.eq_dec k n) as [-> | Hne].
  - rewrite store1_same.
    assert (E : total_energy (store1 e n v) n = total_energy e n).
    { unfold total_energy. apply for_loop_ext_lt. intros i acc Hi.
      rewrite store1_other by lia. reflexivity. }
    rewrite E. ring.
  - rewrite IH by lia. rewrite store1_other by lia. ring.
Qed.

End Energy.

Section EnergyBalance.
Import PairSMATB.

Variable newton_pair : bool.
Variable a : atom.
Variable ev : ev_flags.
Variable n : nat.
Hypothesis Heither : eflag_either ev = true.
Hypothesis Hatom : eflag_atom ev = true.
Hypothesis Hglobal : eflag_global ev = true.

Lemma tally_bounding_balance (i : nat) (eb_i : R) (tl : tally) :
  (i < n)%nat ->
  eng_vdwl (tally_bounding ev i eb_i tl) - total_energy (eatom (tally_bounding ev i eb_i tl)) n
  = eng_vdwl tl - total_energy (eatom tl) n.
Proof.
  intros Hi. unfold tally_bounding. rewrite Heither, Hatom, Hglobal.
  cbn [eatom eng_vdwl]. rewrite total_energy_store by exact Hi. ring.
Qed.

Lemma tally_repulsive_balance (i j : nat) (aexpp : R) (tl : tally) :
  (i < n)%nat -> (j < n)%nat ->
  eng_vdwl (tally_repulsive newton_pair a ev i j aexpp tl)
  - total_energy (eatom (tally_repulsive newton_pair a ev i j aexpp tl)) n
  = eng_vdwl tl - total_energy (eatom tl) n.
Proof.
  intros Hi Hj. unfold tally_repulsive. rewrite Heither, Hatom, Hglobal.
  destruct (newton_pair || Nat.ltb j (nlocal a))%bool; cbn [eatom eng_vdwl].
  - rewrite !total_energy_store by assumption.
    unfold store1. destruct (Nat.eqb j i); ring.
  - rewrite total_energy_store by assumption. ring.
Qed.

End EnergyBalance.

(** X25.  compute() with its energy tallies moves [on_eb] and the forces as
    compute() without them.  Without [eflag] and [vflag] it leaves the
    accumulators alone.  With them, and with both the per-atom and the global
    tally on, the global energy [eng_vdwl] it leaves is the sum of what it
    added to the per-atom energies of the atoms below [nall], with Newton
    pair on or off. *)
Theorem energy_tallies_agree (NEIGHMASK : Z) (newton_pair : bool) (c : PairSMATB.pair)
    (a : PairSMATB.atom) (l : PairSMATB.neigh_list) (swaps : list PairSMATB.swap)
    (eflag vflag : bool) (ev : PairSMATB.ev_flags)
    (se : PairSMATB.state * PairSMATB.tally) :
  let nall := (PairSMATB.nlocal a + PairSMATB.nghost a)%nat in
  (forall ii, (ii < PairSMATB.inum l)%nat -> (PairSMATB.ilist l ii < nall)%nat) ->
  (forall ii jj, (ii < PairSMATB.inum l)%nat ->
     (jj < PairSMATB.numneigh l (PairSMATB.ilist l ii))%nat ->
     (PairSMATB.neighbor NEIGHMASK l (PairSMATB.ilist l ii) jj < nall)%nat) ->
  let r := PairSMATB.compute_ev NEIGHMASK newton_pair c a l swaps eflag vflag ev se in
  fst r = PairSMATB.compute NEIGHMASK newton_pair c a l swaps (fst se) /\
  ((eflag || vflag)%bool = false -> snd r = snd se) /\
  ((eflag || vflag)%bool = true ->
   PairSMATB.eflag_either ev = true -> PairSMATB.eflag_atom ev = true ->
   PairSMATB.eflag_global ev = true ->
   PairSMATB.eng_vdwl (snd r)
   = PairSMATB.total_energy (PairSMATB.eatom (snd r)) nall
     - PairSMATB.total_energy (PairSMATB.eatom (snd se)) nall).
Proof.
  intros nall Hi Hj r.
  assert (Hst : fst r = PairSMATB.compute NEIGHMASK newton_pair c a l swaps (fst se)).
  { subst r. unfold PairSMATB.compute_ev, PairSMATB.compute. cbv zeta.
    rewrite second_loop_ev_state. cbn [fst]. rewrite support_loop_ev_state. reflexivity. }
  split; [exact Hst |].
  (* an invariant of both loops, for any flags *)
  assert (Inv : forall (ev' : PairSMATB.ev_flags) (Q : PairSMATB.tally -> Prop),
            (forall i eb tl, (i < nall)%nat -> Q tl -> Q (PairSMATB.tally_bounding ev' i eb tl)) ->
            (forall i j e tl, (i < nall)%nat -> (j < nall)%nat -> Q tl ->
               Q (PairSMATB.tally_repulsive newton_pair a ev' i j e tl)) ->
            forall st tl, Q tl ->
              Q (snd (PairSMATB.second_loop_ev NEIGHMASK newton_pair c a l ev'
                        (PairSMATB.forward_comm_pair swaps
                           (fst (PairSMATB.support_loop_ev a l ev' (st, tl))),
                         snd (PairSMATB.support_loop_ev a l ev' (st, tl)))))).
  { intros ev' Q HB HR st tl Htl.
    unfold PairSMATB.second_loop_ev.
    apply for_loop_invariant with
      (P := fun (_ : nat) (u : PairSMATB.state * PairSMATB.tally) => Q (snd u)).
    - cbn [snd]. unfold PairSMATB.support_loop_ev.
      apply for_loop_invariant with
        (P := fun (_ : nat) (u : PairSMATB.state * PairSMATB.tally) => Q (snd u));
        [exact Htl |].
      intros ii u Hii Hu. destruct (Nat.ltb _ _); [| exact Hu].
      cbn [snd]. apply HB; [now apply Hi | exact Hu].
    - intros ii u Hii Hu.
      apply for_loop_invariant with
        (P := fun (_ : nat) (u : PairSMATB.state * PairSMATB.tally) => Q (snd u));
        [exact Hu |].
      intros jj v Hjj Hv. unfold PairSMATB.second_loop_pair_ev.
      destruct (PairSMATB.within c a _ _); [| exact Hv].
      cbn [snd]. apply HR; [now apply Hi | now apply Hj | exact Hv]. }
  split.
  - intros Hoff. subst r. unfold PairSMATB.compute_ev. cbv zeta. rewrite Hoff.
    apply Inv with (Q := fun tl => tl = snd se); [| | reflexivity].
    + intros i eb tl _ ->. unfold PairSMATB.tally_bounding. cbn [PairSMATB.eflag_either
        PairSMATB.eflag_atom PairSMATB.eflag_global].
      destruct (PairSMATB.eflag_either ev); reflexivity.
    + intros i j e tl _ _ ->. unfold PairSMATB.tally_repulsive. cbn [PairSMATB.eflag_either
        PairSMATB.eflag_atom PairSMATB.eflag_global].
      destruct (PairSMATB.eflag_either ev); reflexivity.
  - intros Hon He Ha Hg. subst r. unfold PairSMATB.compute_ev. cbv zeta. rewrite Hon.
    match goal with
    | |- PairSMATB.eng_vdwl ?t = _ =>
        assert (B : PairSMATB.eng_vdwl t - PairSMATB.total_energy (PairSMATB.eatom t) nall
                    = 0 - PairSMATB.total_energy (PairSMATB.eatom (snd se)) nall)
    end.
    { apply Inv with
        (Q := fun tl => PairSMATB.eng_vdwl tl
                        - PairSMATB.total_energy (PairSMATB.eatom tl) nall
                        = 0 - PairSMATB.total_energy (PairSMATB.eatom (snd se)) nall).
      - intros i eb tl Hlt Htl. rewrite <- Htl.
        now apply tally_bounding_balance.
      - intros i j e tl Hlt Hlt' Htl. rewrite <- Htl.
        now apply tally_repulsive_balance.
      - reflexivity. }
    lra.
Qed.

(** ** The sign of [on_eb] *)

Section Density.
Import PairSMATB.

Variable n : nat.

Lemma qsiexpq1_nonneg (c : pair) (itype jtype : nat) (dij : R) :
  0 <= qsiexpq1 c itype jtype dij.
Proof.
  unfold qsiexpq1. destruct (Rltb _ _).
  - unfold qsiexpq1_exp. apply Rmult_le_pos; [apply Rle_0_sqr | left; apply exp_pos].
  - unfold qsiexpq1_poly. cbv zeta. apply Rle_0_sqr.
Qed.

Lemma nonneg_put (u : state) (k : nat) (v : R) (e : event) :
  (forall m, (m < n)%nat -> 0 <= on_eb u m) -> ((k < n)%nat -> 0 <= v) ->
  forall m, (m < n)%nat -> 0 <= on_eb (put_on_eb u k v e) m.
Proof.
  intros Hu Hv m Hm. cbn [on_eb put_on_eb]. unfold store1.
  destruct (Nat.eqb_spec m k) as [-> | _]; [now apply Hv | now apply Hu].
Qed.

Lemma nonneg_accum (u : state) (k : nat) (v : R) (e : event) :
  (forall m, (m < n)%nat -> 0 <= on_eb u m) -> 0 <= v ->
  forall m, (m < n)%nat -> 0 <= on_eb (put_on_eb u k (on_eb u k + v) e) m.
Proof.
  intros Hu Hv. apply nonneg_put; [exact Hu |].
  intros Hk. specialize (Hu k Hk). lra.
Qed.

Lemma first_loop_nonneg (NEIGHMASK : Z) (c : pair) (a : atom) (l : neigh_list) (s : state) :
  (forall m, (m < n)%nat -> 0 <= on_eb s m) ->
  forall m, (m < n)%nat -> 0 <= on_eb (first_loop NEIGHMASK c a l s) m.
Proof.
  intros H. unfold first_loop.
  apply for_loop_invariant with
    (P := fun (_ : nat) u => forall m, (m < n)%nat -> 0 <= on_eb u m); [exact H |].
  intros ii u _ Hu.
  apply for_loop_invariant with
    (P := fun (_ : nat) u => forall m, (m < n)%nat -> 0 <= on_eb u m); [exact Hu |].
  intros jj v _ Hv. unfold first_loop_pair.
  destruct (within c a _ _); [| exact Hv]. cbv zeta.
  apply nonneg_accum; [apply nonneg_accum; [exact Hv |] |]; apply qsiexpq1_nonneg.
Qed.

Lemma support_loop_nonneg (a : atom) (l : neigh_list) (s : state) :
  (forall m, (m < n)%nat -> 0 <= on_eb s m) ->
  forall m, (m < n)%nat -> 0 <= on_eb (support_loop a l s) m.
Proof.
  intros H. unfold support_loop.
  apply for_loop_invariant with
    (P := fun (_ : nat) u => forall m, (m < n)%nat -> 0 <= on_eb u m); [exact H |].
  intros ii u _ Hu. destruct (Nat.ltb _ _); [| exact Hu]. cbv zeta.
  apply nonneg_put; [exact Hu |]. intros _.
  destruct (Req_dec_T (sqrt (on_eb u (ilist l ii))) 0) as [E | N].
  - rewrite (Reqb_true E). cbn [negb]. lra.
  - rewrite (Reqb_false N). cbn [negb].
    assert (0 < sqrt (on_eb u (ilist l ii))).
    { destruct (sqrt_pos (on_eb u (ilist l ii))) as [G | G]; [exact G | now elim N]. }
    left. apply Rdiv_lt_0_compat; lra.
Qed.

Lemma reverse_comm_nonneg (swaps : list swap) (s : state) :
  (forall sw, List.In sw swaps -> (firstrecv sw + sendnum sw <= n)%nat) ->
  (forall m, (m < n)%nat -> 0 <= on_eb s m) ->
  forall m, (m < n)%nat -> 0 <= on_eb (reverse_comm_pair swaps s) m.
Proof.
  intros Hsw H. unfold reverse_comm_pair.
  apply fold_left_invariant_In with
    (P := fun u : state => forall m, (m < n)%nat -> 0 <= on_eb u m); [exact H |].
  intros u sw Hin Hu. apply in_rev in Hin. specialize (Hsw sw Hin).
  destruct (pack_reverse_spec (sendnum sw) (firstrecv sw) u) as (_ & Hb & Ho & _).
  unfold unpack_reverse_comm.
  apply for_loop_invariant with
    (P := fun (_ : nat) v => forall m, (m < n)%nat -> 0 <= on_eb v m).
  - intros m Hm. rewrite Ho. now apply Hu.
  - intros i v Hi Hv. cbv zeta. apply nonneg_accum; [exact Hv |].
    rewrite Hb by exact Hi. apply Hu. lia.
Qed.

Lemma forward_comm_nonneg (swaps : list swap) (s : state) :
  (forall sw, List.In sw swaps -> forall j, List.In j (sendlist sw) -> (j < n)%nat) ->
  (forall m, (m < n)%nat -> 0 <= on_eb s m) ->
  forall m, (m < n)%nat -> 0 <= on_eb (forward_comm_pair swaps s) m.
Proof.
  intros Hsw H. unfold forward_comm_pair.
  apply fold_left_invariant_In with
    (P := fun u : state => forall m, (m < n)%nat -> 0 <= on_eb u m); [exact H |].
  intros u sw Hin Hu. specialize (Hsw sw Hin).
  destruct (pack_forward_spec (sendnum sw) (fun i => nth i (sendlist sw) 0%nat) u)
    as (_ & Hb & Ho & _).
  unfold unpack_forward_comm.
  apply for_loop_invariant with
    (P := fun (_ : nat) v => forall m, (m < n)%nat -> 0 <= on_eb v m).
  - intros m Hm. rewrite Ho. now apply Hu.
  - intros i v Hi Hv. apply nonneg_put; [exact Hv |]. intros _.
    rewrite Hb by exact Hi. apply Hu, Hsw, nth_In. exact Hi.
Qed.

End Density.

(** X14.  With Newton pair on and swaps over the atoms below [nall], no entry
    of [on_eb] below [nall] is negative when the support loop takes its square
    root, nor when compute() returns. *)
Theorem on_eb_never_negative (NEIGHMASK : Z) (c : PairSMATB.pair) (a : PairSMATB.atom)
    (l : PairSMATB.neigh_list) (swaps : list PairSMATB.swap) (st : PairSMATB.state) :
  let nall := (PairSMATB.nlocal a + PairSMATB.nghost a)%nat in
  (forall sw, List.In sw swaps ->
     (forall j, List.In j (PairSMATB.sendlist sw) -> (j < nall)%nat) /\
     (PairSMATB.firstrecv sw + PairSMATB.sendnum sw <= nall)%nat) ->
  let before_sqrt :=
    PairSMATB.reverse_comm_pair swaps
      (PairSMATB.first_loop NEIGHMASK c a l (PairSMATB.memset_on_eb st nall)) in
  (forall k, (k < nall)%nat -> 0 <= PairSMATB.on_eb before_sqrt k) /\
  (forall k, (k < nall)%nat ->
     0 <= PairSMATB.on_eb (PairSMATB.compute NEIGHMASK true c a l swaps st) k).
Proof.
  intros nall Hsw before_sqrt.
  assert (H1 : forall k, (k < nall)%nat -> 0 <= PairSMATB.on_eb before_sqrt k).
  { apply reverse_comm_nonneg; [intros sw Hin; apply (Hsw sw Hin) |].
    apply first_loop_nonneg. intros m Hm. cbn [PairSMATB.on_eb PairSMATB.memset_on_eb].
    apply Nat.ltb_lt in Hm. rewrite Hm. lra. }
  split; [exact H1 |].
  unfold PairSMATB.compute. cbv zeta. fold nall. rewrite second_loop_on_eb.
  apply forward_comm_nonneg; [intros sw Hin; apply (Hsw sw Hin) |].
  apply support_loop_nonneg. exact H1.
Qed.

(** X26.  With Newton pair on, compute() sets the entries [0, nall) of
    [on_eb] to zero before anything else.  The accesses to [on_eb] then come
    in this order: the accumulations of the first loop, the reverse exchange,
    the reciprocals of the support loop, the forward exchange, the reads of
    the second loop, which writes nothing to [on_eb].  The forces and the
    entries [0, nall) that compute() leaves are the same whatever [on_eb]
    held before the call. *)
Theorem on_eb_lifecycle_newton_on (NEIGHMASK : Z) (c : PairSMATB.pair)
    (a : PairSMATB.atom) (l : PairSMATB.neigh_list) (swaps : list PairSMATB.swap)
    (st st2 : PairSMATB.state) :
  let nall := (PairSMATB.nlocal a + PairSMATB.nghost a)%nat in
  let s0 := PairSMATB.memset_on_eb st nall in
  let s4 := PairSMATB.forward_comm_pair swaps
              (PairSMATB.support_loop a l
                 (PairSMATB.reverse_comm_pair swaps
                    (PairSMATB.first_loop NEIGHMASK c a l s0))) in
  let st' := PairSMATB.compute NEIGHMASK true c a l swaps st in
  PairSMATB.indices_below NEIGHMASK nall l swaps ->
  (forall k, PairSMATB.f st2 k = PairSMATB.f st k) ->
  (forall k, (k < nall)%nat -> PairSMATB.on_eb s0 k = 0) /\
  (exists e1 e2 e3 e4 e5,
     PairSMATB.trace st'
     = PairSMATB.trace st ++ [PairSMATB.Memset nall] ++ e1 ++ e2 ++ e3 ++ e4 ++ e5 /\
     Forall PairSMATB.is_accum e1 /\ Forall PairSMATB.is_reverse e2 /\
     Forall PairSMATB.is_recip e3 /\ Forall PairSMATB.is_forward e4 /\
     Forall PairSMATB.is_use e5) /\
  st' = PairSMATB.second_loop NEIGHMASK true c a l s4 /\
  PairSMATB.on_eb st' = PairSMATB.on_eb s4 /\
  PairSMATB.same_upto nall st' (PairSMATB.compute NEIGHMASK true c a l swaps st2).
Proof.
  intros nall s0 s4 st' Hidx Hf.
  assert (Est : st' = PairSMATB.second_loop NEIGHMASK true c a l s4) by reflexivity.
  split.
  { intros k Hk. subst s0. cbn [PairSMATB.on_eb PairSMATB.memset_on_eb].
    apply Nat.ltb_lt in Hk. now rewrite Hk. }
  split; [| split; [exact Est | split]].
  - destruct (first_loop_trace NEIGHMASK c a l s0) as (e1 & T1 & F1).
    destruct (reverse_comm_trace swaps (PairSMATB.first_loop NEIGHMASK c a l s0))
      as (e2 & T2 & F2).
    destruct (support_loop_trace a l
                (PairSMATB.reverse_comm_pair swaps (PairSMATB.first_loop NEIGHMASK c a l s0)))
      as (e3 & T3 & F3).
    destruct (forward_comm_trace swaps
                (PairSMATB.support_loop a l
                   (PairSMATB.reverse_comm_pair swaps
                      (PairSMATB.first_loop NEIGHMASK c a l s0))))
      as (e4 & T4 & F4).
    destruct (second_loop_trace NEIGHMASK c a l true s4) as (e5 & T5 & F5).
    exists e1, e2, e3, e4, e5.
    split; [| repeat split; assumption].
    rewrite Est, T5. unfold s4. rewrite T4, T3, T2, T1.
    subst s0. cbn [PairSMATB.trace PairSMATB.memset_on_eb].
    rewrite <- !app_assoc. reflexivity.
  - rewrite Est. apply second_loop_on_eb.
  - subst st'. apply compute_forgets_on_eb;
      [reflexivity | exact Hidx | intros k; symmetry; apply Hf].
Qed.

(** ** The size of the stencil and what [create] depends on *)

Section StencilSize.
Import NStencilFullMultiOld3d.

Lemma zrange_length (lo hi : Z) : List.length (zrange lo hi) = Z.to_nat (hi - lo + 1).
Proof. unfold zrange. now rewrite length_map, length_seq. Qed.

Lemma offsets_length (ns : nstencil) :
  List.length (offsets ns)
  = (Z.to_nat (2 * sz ns + 1) * (Z.to_nat (2 * sy ns + 1) * Z.to_nat (2 * sx ns + 1)))%nat.
Proof.
  unfold offsets.
  rewrite length_flat_map_const with (m := (Z.to_nat (2 * sy ns + 1) * Z.to_nat (2 * sx ns + 1))%nat).
  - rewrite zrange_length. f_equal. f_equal. lia.
  - intros k.
    rewrite length_flat_map_const with (m := Z.to_nat (2 * sx ns + 1)).
    + rewrite zrange_length. f_equal. f_equal. lia.
    + intros j. rewrite length_map, zrange_length. f_equal. lia.
Qed.

Lemma create_same_geometry (ns : nstencil) (ntypes : nat) :
  same_geometry ns (create ntypes ns).
Proof.
  unfold create, for_range.
  apply (@create_types_keep ns 0%nat (seq 1 (S ntypes - 1)) ns (same_geometry_refl ns)).
  intros H. apply in_seq in H. lia.
Qed.

End StencilSize.

(** X15.  The stencil of a type never has more entries than the box the
    loops scan has bins, (2 sx + 1)(2 sy + 1)(2 sz + 1). *)
Theorem stencil_count_bounded (ns : NStencilFullMultiOld3d.nstencil) (ntypes itype : nat) :
  (1 <= itype <= ntypes)%nat ->
  (NStencilFullMultiOld3d.nstencil_multi_old (NStencilFullMultiOld3d.create ntypes ns) itype
   <= Z.to_nat (2 * NStencilFullMultiOld3d.sx ns + 1)
      * Z.to_nat (2 * NStencilFullMultiOld3d.sy ns + 1)
      * Z.to_nat (2 * NStencilFullMultiOld3d.sz ns + 1))%nat.
Proof.
  intros H. destruct (create_rows ns H) as [Hn _]. rewrite Hn.
  unfold NStencilFullMultiOld3d.selected.
  eapply Nat.le_trans; [apply filter_length_le |].
  rewrite offsets_length. lia.
Qed.

(** X16.  A type with a larger cutoff has the larger stencil: every entry of
    the stencil of [t1], with its distance, is an entry of the stencil of
    [t2] when [cuttypesq[t1] <= cuttypesq[t2]]. *)
Theorem stencil_grows_with_cutoff (ns : NStencilFullMultiOld3d.nstencil)
    (ntypes t1 t2 : nat) :
  (1 <= t1 <= ntypes)%nat -> (1 <= t2 <= ntypes)%nat ->
  NStencilFullMultiOld3d.cuttypesq ns t1 <= NStencilFullMultiOld3d.cuttypesq ns t2 ->
  let ns' := NStencilFullMultiOld3d.create ntypes ns in
  (NStencilFullMultiOld3d.nstencil_multi_old ns' t1
   <= NStencilFullMultiOld3d.nstencil_multi_old ns' t2)%nat /\
  forall m, (m < NStencilFullMultiOld3d.nstencil_multi_old ns' t1)%nat ->
    exists m', (m' < NStencilFullMultiOld3d.nstencil_multi_old ns' t2)%nat /\
      NStencilFullMultiOld3d.stencil_multi_old ns' t2 m'
      = NStencilFullMultiOld3d.stencil_multi_old ns' t1 m /\
      NStencilFullMultiOld3d.distsq_multi_old ns' t2 m'
      = NStencilFullMultiOld3d.distsq_multi_old ns' t1 m.
Proof.
  intros H1 H2 Hc ns'.
  destruct (create_rows ns H1) as [N1 R1]. destruct (create_rows ns H2) as [N2 R2].
  fold ns' in N1, R1, N2, R2. rewrite N1, N2. split.
  - unfold NStencilFullMultiOld3d.selected. apply filter_length_mono.
    intros o Ho. apply Rltb_lt in Ho. apply Rltb_true. lra.
  - intros m Hm.
    assert (Hin : List.In (nth m (NStencilFullMultiOld3d.selected ns t1) (0, 0, 0)%Z)
                          (NStencilFullMultiOld3d.selected ns t2)).
    { apply in_selected.
      assert (H0 := nth_In (NStencilFullMultiOld3d.selected ns t1) (0, 0, 0)%Z Hm).
      apply in_selected in H0. destruct H0 as [He Hd]. split; [exact He | lra]. }
    destruct (In_nth _ _ (0, 0, 0)%Z Hin) as (m' & Hm' & E).
    exists m'. split; [exact Hm' |].
    destruct (R1 m Hm) as [S1 D1]. destruct (R2 m' Hm') as [S2 D2].
    rewrite S1, D1, S2, D2, E. split; reflexivity.
Qed.

(** X17.  What [create] stores depends on the geometry only: started from
    two objects with the same extents, bin counts, bin sizes and cutoffs, it
    leaves the same counts and the same entries, whatever the rows held
    before. *)
Theorem create_ignores_previous_rows (ns1 ns2 : NStencilFullMultiOld3d.nstencil)
    (ntypes itype : nat) :
  NStencilFullMultiOld3d.same_geometry ns1 ns2 ->
  (1 <= itype <= ntypes)%nat ->
  let r1 := NStencilFullMultiOld3d.create ntypes ns1 in
  let r2 := NStencilFullMultiOld3d.create ntypes ns2 in
  NStencilFullMultiOld3d.nstencil_multi_old r2 itype
  = NStencilFullMultiOld3d.nstencil_multi_old r1 itype /\
  forall m, (m < NStencilFullMultiOld3d.nstencil_multi_old r1 itype)%nat ->
    NStencilFullMultiOld3d.stencil_multi_old r2 itype m
    = NStencilFullMultiOld3d.stencil_multi_old r1 itype m /\
    NStencilFullMultiOld3d.distsq_multi_old r2 itype m
    = NStencilFullMultiOld3d.distsq_multi_old r1 itype m.
Proof.
  intros Hg H r1 r2.
  destruct (create_rows ns1 H) as [N1 R1]. destruct (create_rows ns2 H) as [N2 R2].
  fold r1 in N1, R1. fold r2 in N2, R2.
  assert (Es := selected_same_geometry itype Hg).
  rewrite Es in N2, R2. split; [now rewrite N1, N2 |].
  intros m Hm. rewrite N1 in Hm.
  destruct (R1 m Hm) as [S1 D1]. destruct (R2 m Hm) as [S2 D2].
  rewrite S1, D1, S2, D2.
  split; [apply (flat_same_geometry _ Hg) | apply (dist_same_geometry _ Hg)].
Qed.

(** X18.  [create] leaves the geometry it reads as it is, and the rows and
    counts of every type outside 1..ntypes untouched. *)
Theorem create_touches_only_its_types (ns : NStencilFullMultiOld3d.nstencil)
    (ntypes itype : nat) :
  let ns' := NStencilFullMultiOld3d.create ntypes ns in
  NStencilFullMultiOld3d.same_geometry ns ns' /\
  (~ (1 <= itype <= ntypes)%nat ->
   NStencilFullMultiOld3d.nstencil_multi_old ns' itype
   = NStencilFullMultiOld3d.nstencil_multi_old ns itype /\
   forall m, NStencilFullMultiOld3d.stencil_multi_old ns' itype m
             = NStencilFullMultiOld3d.stencil_multi_old ns itype m /\
             NStencilFullMultiOld3d.distsq_multi_old ns' itype m
             = NStencilFullMultiOld3d.distsq_multi_old ns itype m).
Proof.
  intros ns'. split; [apply create_same_geometry |].
  intros H. subst ns'. unfold NStencilFullMultiOld3d.create, for_range.
  apply (@create_types_keep ns itype (seq 1 (S ntypes - 1)) ns (same_geometry_refl ns)).
  intros Hin. apply in_seq in Hin. lia.
Qed.

(** ** The neighbor pairs of [CPairPOD] *)

Section NeighPairs.
Import CPairPOD.

(** What the work arrays hold when [lammpsNeighPairs] returns: the kept
    neighbors in the first [nij] slots, everything behind them as before. *)
Lemma pod_pairs_loop (c : pair) (x : nat -> vec3) (firstneigh : nat -> nat -> nat)
    (atomtypes : nat -> nat) (map : nat -> Z) (numneigh : nat -> nat) (gi : nat)
    (w : pairlist) :
  let w' := lammpsNeighPairs c x firstneigh atomtypes map numneigh gi w in
  let K := kept c x firstneigh numneigh gi in
  nij w' = List.length K /\
  (forall n, (n < nij w')%nat ->
     aj w' n = firstneigh gi (nth n K 0%nat) /\
     ai w' n = gi /\ idxi w' n = 0%Z /\
     ti w' n = (map (atomtypes gi) + 1)%Z /\
     tj w' n = (map (atomtypes (aj w' n)) + 1)%Z /\
     rij_at w' n = vsub (x (aj w' n)) (x gi)) /\
  (forall n, (nij w' <= n)%nat ->
     aj w' n = aj w n /\ ai w' n = ai w n /\ idxi w' n = idxi w n /\
     ti w' n = ti w n /\ tj w' n = tj w n) /\
  (forall k, (3 * nij w' <= k)%nat -> rij w' k = rij w k) /\
  typeai w' = store1 (typeai w) 0 (map (atomtypes gi) + 1)%Z /\
  numneighsum w' = store1 (store1 (numneighsum w) 0 0%nat) 1 (nij w').
Proof.
  unfold lammpsNeighPairs, kept. cbv zeta.
  cbn [nij rij aj ai idxi ti tj typeai numneighsum].
  unfold rij_at. cbn [rij].
  set (p := fun l => in_range c x gi (firstneigh gi l)).
  match goal with
  | |- context [for_loop _ ?body ?w1] =>
      assert (Inv :
        let u := for_loop (numneigh gi) body w1 in
        nij u = List.length (filter p (seq 0 (numneigh gi))) /\
        (forall n, (n < nij u)%nat ->
           aj u n = firstneigh gi (nth n (filter p (seq 0 (numneigh gi))) 0%nat) /\
           ai u n = gi /\ idxi u n = 0%Z /\
           ti u n = (map (atomtypes gi) + 1)%Z /\
           tj u n = (map (atomtypes (aj u n)) + 1)%Z /\
           (rij u (n * 3 + 0), rij u (n * 3 + 1), rij u (n * 3 + 2))
           = vsub (x (aj u n)) (x gi)) /\
        (forall n, (nij u <= n)%nat ->
           aj u n = aj w n /\ ai u n = ai w n /\ idxi u n = idxi w n /\
           ti u n = ti w n /\ tj u n = tj w n) /\
        (forall k, (3 * nij u <= k)%nat -> rij u k = rij w k) /\
        typeai u = store1 (typeai w) 0 (map (atomtypes gi) + 1)%Z /\
        numneighsum u = numneighsum w)
  end.
  { cbv zeta.
    apply for_loop_invariant with
      (P := fun (l : nat) (u : pairlist) =>
        nij u = List.length (filter p (seq 0 l)) /\
        (forall n, (n < nij u)%nat ->
           aj u n = firstneigh gi (nth n (filter p (seq 0 l)) 0%nat) /\
           ai u n = gi /\ idxi u n = 0%Z /\
           ti u n = (map (atomtypes gi) + 1)%Z /\
           tj u n = (map (atomtypes (aj u n)) + 1)%Z /\
           (rij u (n * 3 + 0), rij u (n * 3 + 1), rij u (n * 3 + 2))
           = vsub (x (aj u n)) (x gi)) /\
        (forall n, (nij u <= n)%nat ->
           aj u n = aj w n /\ ai u n = ai w n /\ idxi u n = idxi w n /\
           ti u n = ti w n /\ tj u n = tj w n) /\
        (forall k, (3 * nij u <= k)%nat -> rij u k = rij w k) /\
        typeai u = store1 (typeai w) 0 (map (atomtypes gi) + 1)%Z /\
        numneighsum u = numneighsum w).
    - cbn [nij rij aj ai idxi ti tj typeai numneighsum seq filter List.length].
      split; [reflexivity |]. split; [intros n Hn; lia |].
      split; [intros; repeat split |]. split; [intros; reflexivity |]. split; reflexivity.
    - intros l u _ (Hn & Hin & Hout & Hr & Hta & Hns).
      rewrite filter_seq_S.
      assert (Ep : (Rltb ((c0 (x (firstneigh gi l)) - c0 (x gi)) * (c0 (x (firstneigh gi l)) - c0 (x gi))
                          + (c1 (x (firstneigh gi l)) - c1 (x gi)) * (c1 (x (firstneigh gi l)) - c1 (x gi))
                          + (c2 (x (firstneigh gi l)) - c2 (x gi)) * (c2 (x (firstneigh gi l)) - c2 (x gi)))
                         (rcut c * rcut c)
                    && Rltb 1e-20
                         ((c0 (x (firstneigh gi l)) - c0 (x gi)) * (c0 (x (firstneigh gi l)) - c0 (x gi))
                          + (c1 (x (firstneigh gi l)) - c1 (x gi)) * (c1 (x (firstneigh gi l)) - c1 (x gi))
                          + (c2 (x (firstneigh gi l)) - c2 (x gi)) * (c2 (x (firstneigh gi l)) - c2 (x gi))))%bool
                   = p l) by reflexivity.
      rewrite Ep. destruct (p l).
      + cbn [nij rij aj ai idxi ti tj typeai numneighsum].
        split; [rewrite length_app, Hn; simpl; lia |].
        split; [| split; [| split; [| split; assumption]]].
        * intros n Hlt. destruct (Nat.eq_dec n (nij u)) as [-> | Hne].
          -- rewrite !store1_same.
             rewrite (store1_other _ _ (k := nij u * 3 + 0)) by lia.
             rewrite (store1_other _ _ (k := nij u * 3 + 0)) by lia.
             rewrite (store1_other _ _ (k := nij u * 3 + 1)) by lia.
             rewrite !store1_same.
             rewrite app_nth2, Hn, Nat.sub_diag by lia. cbn [nth].
             repeat split.
          -- rewrite !(store1_other _ _ (k := n)) by exact Hne.
             rewrite !(store1_other _ _ (k := n * 3 + 0)) by lia.
             rewrite !(store1_other _ _ (k := n * 3 + 1)) by lia.
             rewrite !(store1_other _ _ (k := n * 3 + 2)) by lia.
             rewrite app_nth1 by lia. apply Hin. lia.
        * intros n Hge. rewrite !store1_other by lia. apply Hout. lia.
        * intros k Hk. rewrite !store1_other by lia. apply Hr. lia.
      + rewrite app_nil_r.
        split; [exact Hn |]. split; [exact Hin |]. split; [exact Hout |].
        split; [exact Hr |]. split; assumption. }
  cbv zeta in Inv. destruct Inv as (Hn & Hin & Hout & Hr & Hta & Hns).
  split; [exact Hn |]. split; [exact Hin |]. split; [exact Hout |].
  split; [exact Hr |]. split; [exact Hta |]. now rewrite Hns.
Qed.

End NeighPairs.

(** X19.  [lammpsNeighPairs] hands over exactly the neighbors of [gi] that
    pass the distance test, in the order of the neighbor list: [nij] is their
    number, slot [n] holds the [n]-th of them with its type and the type of
    [gi], and [numneighsum] is (0, nij). *)
Theorem pod_pairs_are_the_kept_neighbors (c : CPairPOD.pair) (x : nat -> vec3)
    (firstneigh : nat -> nat -> nat) (atomtypes : nat -> nat) (map : nat -> Z)
    (numneigh : nat -> nat) (gi : nat) (w : CPairPOD.pairlist) :
  let w' := CPairPOD.lammpsNeighPairs c x firstneigh atomtypes map numneigh gi w in
  let K := CPairPOD.kept c x firstneigh numneigh gi in
  CPairPOD.nij w' = List.length K /\
  CPairPOD.numneighsum w' 0%nat = 0%nat /\
  CPairPOD.numneighsum w' 1%nat = CPairPOD.nij w' /\
  CPairPOD.typeai w' 0%nat = (map (atomtypes gi) + 1)%Z /\
  (forall n, (n < CPairPOD.nij w')%nat ->
    CPairPOD.aj w' n = firstneigh gi (nth n K 0%nat) /\
    CPairPOD.ai w' n = gi /\
    CPairPOD.idxi w' n = 0%Z /\
    CPairPOD.ti w' n = (map (atomtypes gi) + 1)%Z /\
    CPairPOD.tj w' n = (map (atomtypes (CPairPOD.aj w' n)) + 1)%Z) /\
  (forall l, (l < numneigh gi)%nat ->
     CPairPOD.in_range c x gi (firstneigh gi l) = true ->
     exists n, (n < CPairPOD.nij w')%nat /\ CPairPOD.aj w' n = firstneigh gi l).
Proof.
  intros w' K.
  destruct (pod_pairs_loop c x firstneigh atomtypes map numneigh gi w)
    as (Hn & Hin & _ & _ & Hta & Hns).
  fold w' in Hn, Hin, Hta, Hns. fold K in Hn, Hin.
  split; [exact Hn |]. rewrite Hns, Hta.
  split; [reflexivity |]. split; [apply store1_same |]. split; [apply store1_same |].
  split.
  - intros n Hlt. destruct (Hin n Hlt) as (E1 & E2 & E3 & E4 & E5 & _).
    repeat split; assumption.
  - intros l Hl Hr.
    assert (HK : List.In l K).
    { subst K. unfold CPairPOD.kept. apply filter_In. split; [apply in_seq; lia | exact Hr]. }
    destruct (In_nth _ _ 0%nat HK) as (n & Hn' & En).
    exists n. rewrite Hn. split; [exact Hn' |].
    destruct (Hin n) as (E1 & _); [rewrite Hn; exact Hn' |].
    now rewrite E1, En.
Qed.

(** X20.  [lammpsNeighPairs] writes only the first [numneigh[gi]] slots of
    the pair arrays, the first [3 numneigh[gi]] of [rij], [typeai[0]] and
    [numneighsum[0..1]]: arrays sized for the longest neighbor list, as
    compute() keeps them, are never overrun. *)
Theorem pod_pairs_stay_in_bounds (c : CPairPOD.pair) (x : nat -> vec3)
    (firstneigh : nat -> nat -> nat) (atomtypes : nat -> nat) (map : nat -> Z)
    (numneigh : nat -> nat) (gi : nat) (w : CPairPOD.pairlist) :
  let w' := CPairPOD.lammpsNeighPairs c x firstneigh atomtypes map numneigh gi w in
  (CPairPOD.nij w' <= numneigh gi)%nat /\
  (forall n, (numneigh gi <= n)%nat ->
     CPairPOD.aj w' n = CPairPOD.aj w n /\ CPairPOD.ai w' n = CPairPOD.ai w n /\
     CPairPOD.idxi w' n = CPairPOD.idxi w n /\
     CPairPOD.ti w' n = CPairPOD.ti w n /\ CPairPOD.tj w' n = CPairPOD.tj w n) /\
  (forall k, (3 * numneigh gi <= k)%nat -> CPairPOD.rij w' k = CPairPOD.rij w k) /\
  (forall k, (1 <= k)%nat -> CPairPOD.typeai w' k = CPairPOD.typeai w k) /\
  (forall k, (2 <= k)%nat -> CPairPOD.numneighsum w' k = CPairPOD.numneighsum w k).
Proof.
  intros w'.
  destruct (pod_pairs_loop c x firstneigh atomtypes map numneigh gi w)
    as (Hn & _ & Hout & Hr & Hta & Hns).
  fold w' in Hn, Hout, Hr, Hta, Hns.
  assert (Hle : (CPairPOD.nij w' <= numneigh gi)%nat).
  { rewrite Hn. unfold CPairPOD.kept. eapply Nat.le_trans; [apply filter_length_le |].
    rewrite length_seq. apply le_n. }
  split; [exact Hle |]. split; [| split; [| split]].
  - intros n Hge. apply Hout. lia.
  - intros k Hk. apply Hr. lia.
  - intros k Hk. rewrite Hta. apply store1_other. lia.
  - intros k Hk. rewrite Hns, !store1_other by lia. reflexivity.
Qed.

(** ** The damping sub-models *)

(** The Tsuji polynomial in the Bernstein basis of degree 6 on [0,1]: every
    coefficient lies between 0.0003 and 1.2728. *)
Lemma tsuji_bernstein (t : R) :
  GranSubModDampingTsuji.init t
  = 1591/1250 * (1 - t) ^ 6
    + 6 * (2239/4000) * (t * (1 - t) ^ 5)
    + 15 * (703/1200) * (t ^ 2 * (1 - t) ^ 4)
    + 20 * (4673/20000) * (t ^ 3 * (1 - t) ^ 3)
    + 15 * (1627/7500) * (t ^ 4 * (1 - t) ^ 2)
    + 6 * (4613/60000) * (t ^ 5 * (1 - t))
    + 3/10000 * t ^ 6.
Proof.
  unfold GranSubModDampingTsuji.init.
  rewrite !powint_pos. unfold MathSpecial.square, MathSpecial.cube.
  change (Pos.to_nat 4) with 4%nat; change (Pos.to_nat 5) with 5%nat;
    change (Pos.to_nat 6) with 6%nat.
  cbv zeta.
  replace 1.2728 with (12728/10000) by lra.
  replace 4.2783 with (42783/10000) by lra.
  replace 11.087 with (11087/1000) by lra.
  replace (-22.348) with (-(22348/1000)) by lra.
  replace 27.467 with (27467/1000) by lra.
  replace (-18.022) with (-(18022/1000)) by lra.
  replace 4.8218 with (48218/10000) by lra.
  field.
Qed.

Lemma bernstein_unit (t : R) :
  (1 - t) ^ 6 + 6 * (t * (1 - t) ^ 5) + 15 * (t ^ 2 * (1 - t) ^ 4)
  + 20 * (t ^ 3 * (1 - t) ^ 3) + 15 * (t ^ 4 * (1 - t) ^ 2) + 6 * (t ^ 5 * (1 - t)) + t ^ 6
  = 1.
Proof. ring. Qed.

(** X21.  For a coefficient between 0 and 1 the Tsuji damping factor of both
    packages lies between 0.0003 and 1.2728; in particular it is positive. *)
Theorem tsuji_damp_range (t : R) :
  0 <= t <= 1 ->
  0.0003 <= GranSubModDampingTsuji.init t <= 1.2728 /\
  0.0003 <= DampingTsuji.coeffs_to_local t <= 1.2728.
Proof.
  intros [H0 H1].
  assert (E : DampingTsuji.coeffs_to_local t = GranSubModDampingTsuji.init t) by reflexivity.
  rewrite E. clear E.
  rewrite tsuji_bernstein.
  assert (U := bernstein_unit t).
  assert (Hu : 0 <= 1 - t) by lra.
  assert (B0 : 0 <= (1 - t) ^ 6) by (apply pow_le; exact Hu).
  assert (B1 : 0 <= t * (1 - t) ^ 5) by (apply Rmult_le_pos; [| apply pow_le]; assumption).
  assert (B2 : 0 <= t ^ 2 * (1 - t) ^ 4) by (apply Rmult_le_pos; apply pow_le; assumption).
  assert (B3 : 0 <= t ^ 3 * (1 - t) ^ 3) by (apply Rmult_le_pos; apply pow_le; assumption).
  assert (B4 : 0 <= t ^ 4 * (1 - t) ^ 2) by (apply Rmult_le_pos; apply pow_le; assumption).
  assert (B5 : 0 <= t ^ 5 * (1 - t)) by (apply Rmult_le_pos; [apply pow_le |]; assumption).
  assert (B6 : 0 <= t ^ 6) by (apply pow_le; exact H0).
  set (b0 := (1 - t) ^ 6) in *. set (b1 := t * (1 - t) ^ 5) in *.
  set (b2 := t ^ 2 * (1 - t) ^ 4) in *. set (b3 := t ^ 3 * (1 - t) ^ 3) in *.
  set (b4 := t ^ 4 * (1 - t) ^ 2) in *. set (b5 := t ^ 5 * (1 - t)) in *.
  set (b6 := t ^ 6) in *.
  clearbody b0 b1 b2 b3 b4 b5 b6.
  split; split; lra.
Qed.

Section Damping.

Lemma PISQ_pos : 0 < Granular_NS.PISQ.
Proof. unfold Granular_NS.PISQ. lra. Qed.

(** [-L / sqrt (PISQ + L^2)] for [L <= 0]: between 0 and 1, zero at 0. *)
Lemma restitution_ratio_range (L : R) :
  L <= 0 ->
  0 <= - L / sqrt (Granular_NS.PISQ + L * L) < 1.
Proof.
  intros HL. assert (P := PISQ_pos).
  assert (Hpos : 0 < Granular_NS.PISQ + L * L) by nra.
  assert (Hs : 0 < sqrt (Granular_NS.PISQ + L * L)) by now apply sqrt_lt_R0.
  split.
  - apply Rmult_le_pos; [lra | left; now apply Rinv_0_lt_compat].
  - apply Rmult_lt_reg_r with (r := sqrt (Granular_NS.PISQ + L * L)); [exact Hs |].
    unfold Rdiv. rewrite Rmult_assoc, Rinv_l, Rmult_1_r, Rmult_1_l by lra.
    rewrite <- (sqrt_square (- L)) at 1 by lra.
    apply sqrt_lt_1_alt. nra.
Qed.

Lemma restitution_ratio_decreasing (L1 L2 : R) :
  L1 < L2 -> L2 <= 0 ->
  - L2 / sqrt (Granular_NS.PISQ + L2 * L2) < - L1 / sqrt (Granular_NS.PISQ + L1 * L1).
Proof.
  intros H12 H2. assert (P := PISQ_pos).
  set (s1 := sqrt (Granular_NS.PISQ + L1 * L1)).
  set (s2 := sqrt (Granular_NS.PISQ + L2 * L2)).
  assert (Hs1 : 0 < s1) by (apply sqrt_lt_R0; nra).
  assert (Hs2 : 0 < s2) by (apply sqrt_lt_R0; nra).
  assert (Q1 : s1 * s1 = Granular_NS.PISQ + L1 * L1) by (apply sqrt_sqrt; nra).
  assert (Q2 : s2 * s2 = Granular_NS.PISQ + L2 * L2) by (apply sqrt_sqrt; nra).
  (* cross-multiply *)
  apply Rmult_lt_reg_r with (r := s2); [exact Hs2 |].
  apply Rmult_lt_reg_r with (r := s1); [exact Hs1 |].
  replace (- L2 / s2 * s2 * s1) with (- L2 * s1) by (field; lra).
  replace (- L1 / s1 * s2 * s1) with (- L1 * s2) by (field; lra).
  (* compare the squares of two nonnegative numbers *)
  assert (A0 : 0 <= - L2 * s1) by nra.
  assert (B0 : 0 < - L1 * s2) by nra.
  apply Rsqr_incrst_0; [| exact A0 | lra].
  unfold Rsqr.
  replace (- L2 * s1 * (- L2 * s1)) with (L2 * L2 * (s1 * s1)) by ring.
  replace (- L1 * s2 * (- L1 * s2)) with (L1 * L1 * (s2 * s2)) by ring.
  rewrite Q1, Q2.
  assert (Hsq : L2 * L2 < L1 * L1) by nra.
  assert (Hp : 0 < Granular_NS.PISQ * (L1 * L1 - L2 * L2))
    by (apply Rmult_lt_0_compat; lra).
  assert (E : L1 * L1 * (Granular_NS.PISQ + L2 * L2) - L2 * L2 * (Granular_NS.PISQ + L1 * L1)
              = Granular_NS.PISQ * (L1 * L1 - L2 * L2)) by ring.
  lra.
Qed.

End Damping.


(** X23.  For a restitution coefficient in (0, 1] the factor [damp] of the
    models enhooke and enhertz is non-negative and below 2, respectively
    below sqrt(3/2) * 2 sqrt(5/6); it is zero for the coefficient 1 and grows
    as the coefficient falls. *)
Theorem restitution_damping_range (gm gm' : Granular_NS.GranularModel) :
  0 < Granular_NS.get_damp gm <= 1 ->
  0 <= Granular_NS.init Granular_NS.DampingEnHooke gm < 2 /\
  0 <= Granular_NS.init Granular_NS.DampingEnHertz gm
    < Granular_NS.ROOTTHREEBYTWO * Granular_NS.TWOROOTFIVEBYSIX /\
  (Granular_NS.get_damp gm = 1 ->
   Granular_NS.init Granular_NS.DampingEnHooke gm = 0 /\
   Granular_NS.init Granular_NS.DampingEnHertz gm = 0) /\
  (0 < Granular_NS.get_damp gm' < Granular_NS.get_damp gm ->
   Granular_NS.init Granular_NS.DampingEnHooke gm
   < Granular_NS.init Granular_NS.DampingEnHooke gm' /\
   Granular_NS.init Granular_NS.DampingEnHertz gm
   < Granular_NS.init Granular_NS.DampingEnHertz gm').
Proof.
  intros [H0 H1].
  assert (HL : ln (Granular_NS.get_damp gm) <= 0).
  { destruct H1 as [H1 | H1]; [| rewrite H1, ln_1; lra].
    left. rewrite <- ln_1. now apply ln_increasing. }
  destruct (restitution_ratio_range HL) as [R0 R1].
  assert (K : 0 < Granular_NS.ROOTTHREEBYTWO * Granular_NS.TWOROOTFIVEBYSIX)
    by (unfold Granular_NS.ROOTTHREEBYTWO, Granular_NS.TWOROOTFIVEBYSIX; nra).
  assert (EH : Granular_NS.init Granular_NS.DampingEnHooke gm
               = 2 * (- ln (Granular_NS.get_damp gm)
                      / sqrt (Granular_NS.PISQ
                              + ln (Granular_NS.get_damp gm) * ln (Granular_NS.get_damp gm)))).
  { cbn [Granular_NS.init]. cbv zeta. unfold Rdiv. ring. }
  assert (EZ : Granular_NS.init Granular_NS.DampingEnHertz gm
               = Granular_NS.ROOTTHREEBYTWO * Granular_NS.TWOROOTFIVEBYSIX
                 * (- ln (Granular_NS.get_damp gm)
                    / sqrt (Granular_NS.PISQ
                            + ln (Granular_NS.get_damp gm) * ln (Granular_NS.get_damp gm)))).
  { cbn [Granular_NS.init]. cbv zeta. unfold Rdiv. ring. }
  assert (EH' : Granular_NS.init Granular_NS.DampingEnHooke gm'
               = 2 * (- ln (Granular_NS.get_damp gm')
                      / sqrt (Granular_NS.PISQ
                              + ln (Granular_NS.get_damp gm') * ln (Granular_NS.get_damp gm')))).
  { cbn [Granular_NS.init]. cbv zeta. unfold Rdiv. ring. }
  assert (EZ' : Granular_NS.init Granular_NS.DampingEnHertz gm'
               = Granular_NS.ROOTTHREEBYTWO * Granular_NS.TWOROOTFIVEBYSIX
                 * (- ln (Granular_NS.get_damp gm')
                    / sqrt (Granular_NS.PISQ
                            + ln (Granular_NS.get_damp gm') * ln (Granular_NS.get_damp gm')))).
  { cbn [Granular_NS.init]. cbv zeta. unfold Rdiv. ring. }
  rewrite EH, EZ, EH', EZ'.
  set (g := - ln (Granular_NS.get_damp gm) / _) in *.
  set (g' := - ln (Granular_NS.get_damp gm') / _) in *.
  split; [lra |]. split; [nra |]. split.
  - intros E1. assert (G0 : g = 0).
    { subst g. rewrite E1, ln_1. unfold Rdiv. ring. }
    rewrite G0. split; ring.
  - intros [H0' Hlt].
    assert (Hg : g < g').
    { subst g g'. apply restitution_ratio_decreasing; [now apply ln_increasing | exact HL]. }
    split; nra.
Qed.

(** ** The rolling models *)

Section Rolling.

Variable M : MathExtra.ops.
Hypothesis len3_scale3 :
  forall s v, MathExtra.len3 M (MathExtra.scale3 M s v) = Rabs s * MathExtra.len3 M v.
Hypothesis len3_zero3 : MathExtra.len3 M (MathExtra.zero3 M) = 0.

(** The three ways the rescaling step of the rolling models ends. *)
Lemma capped_length (Frcrit s : R) (fr0 hist : vec3) (h1 h2 : vec3) :
  0 <= Frcrit ->
  (Rltb Frcrit (MathExtra.len3 M fr0) = true -> s = Frcrit / MathExtra.len3 M fr0) ->
  MathExtra.len3 M
    (snd (if Rltb Frcrit (MathExtra.len3 M fr0)
          then if negb (Reqb (MathExtra.len3 M hist) 0)
               then (h1, MathExtra.scale3 M s fr0)
               else (h2, MathExtra.zero3 M)
          else (h2, fr0)))
  <= Frcrit.
Proof.
  intros H0 Hs.
  destruct (Rltb Frcrit (MathExtra.len3 M fr0)) eqn:E.
  - apply Rltb_lt in E. destruct (negb _); cbn [snd].
    + rewrite len3_scale3, (Hs eq_refl).
      assert (Hm : 0 < MathExtra.len3 M fr0) by lra.
      rewrite Rabs_pos_eq.
      * right. field. lra.
      * apply Rmult_le_pos; [exact H0 | left; now apply Rinv_0_lt_compat].
    + rewrite len3_zero3. exact H0.
  - cbn [snd]. unfold Rltb in E. destruct (Rlt_dec Frcrit (MathExtra.len3 M fr0)); [discriminate | lra].
Qed.

End Rolling.

(** X24.  For vector helpers whose length scales with the factor and is zero
    on the zero vector, the rolling force both SDS models leave in [fr] is no
    longer than [mu * Fncrit], whenever that bound is not negative; for the
    newer model this follows from coefficients [coeffs_to_local] accepted and
    [Fncrit >= 0]. *)
Theorem rolling_force_within_coulomb_limit (M : MathExtra.ops) (EPSILON : R) :
  (forall s v, MathExtra.len3 M (MathExtra.scale3 M s v) = Rabs s * MathExtra.len3 M v) ->
  MathExtra.len3 M (MathExtra.zero3 M) = 0 ->
  (forall coeffs k gamma mu history_index garbage gm,
     Granular_NS.coeffs_to_local coeffs = OK (k, gamma, mu) ->
     0 <= Granular_NS.Fncrit gm ->
     0 <= mu /\
     MathExtra.len3 M
       (Granular_NS.fr (Granular_NS.rolling_calculate_forces M EPSILON k gamma mu
                          history_index garbage gm))
     <= mu * Granular_NS.Fncrit gm) /\
  (forall k mu gamma history_index garbage contact,
     0 <= mu * Contact.Fncrit contact ->
     MathExtra.len3 M
       (Contact.fr (Contact.rolling_calculate_forces M EPSILON k mu gamma
                      history_index garbage contact))
     <= mu * Contact.Fncrit contact).
Proof.
  intros Hscale Hzero. split.
  - intros coeffs k gamma mu hi garbage gm Hc HF.
    assert (Hmu : 0 <= mu).
    { unfold Granular_NS.coeffs_to_local in Hc. cbv zeta in Hc.
      destruct (Rltb (coeffs 0%nat) 0) eqn:E0; [discriminate |].
      destruct (Rltb (coeffs 2%nat) 0) eqn:E2; [discriminate |].
      destruct (Rltb (coeffs 1%nat) 0) eqn:E1; [discriminate |].
      cbn [orb] in Hc. injection Hc as _ _ <-.
      unfold Rltb in E2. destruct (Rlt_dec (coeffs 2%nat) 0); [discriminate | lra]. }
    split; [exact Hmu |].
    unfold Granular_NS.rolling_calculate_forces. cbv zeta. cbn [Granular_NS.fr].
    apply (@capped_length M Hscale Hzero).
    + now apply Rmult_le_pos.
    + intros _. unfold Rdiv. ring.
  - intros k mu gamma hi garbage contact HF.
    unfold Contact.rolling_calculate_forces. cbv zeta. cbn [Contact.fr].
    apply (@capped_length M Hscale Hzero); [exact HF | reflexivity].
Qed.

Lemma euclid_len3_scale3 (s : R) (v : vec3) :
  MathExtra.len3 MathExtra.euclid (MathExtra.scale3 MathExtra.euclid s v)
  = Rabs s * MathExtra.len3 MathExtra.euclid v.
Proof.
  cbn [MathExtra.len3 MathExtra.scale3 MathExtra.euclid].
  unfold normsq, c0, c1, c2. cbn [fst snd].
  destruct v as [[a b] d]. cbn [fst snd].
  replace (s * a * (s * a) + s * b * (s * b) + s * d * (s * d))
    with (s * s * (a * a + b * b + d * d)) by ring.
  rewrite sqrt_mult; [| apply Rle_0_sqr |].
  - f_equal. apply sqrt_Rsqr_abs.
  - assert (0 <= a * a) by apply Rle_0_sqr. assert (0 <= b * b) by apply Rle_0_sqr.
    assert (0 <= d * d) by apply Rle_0_sqr. lra.
Qed.

Lemma euclid_len3_zero3 : MathExtra.len3 MathExtra.euclid (MathExtra.zero3 MathExtra.euclid) = 0.
Proof.
  cbn [MathExtra.len3 MathExtra.zero3 MathExtra.euclid].
  unfold normsq, vzero, c0, c1, c2. cbn [fst snd].
  replace (0 * 0 + 0 * 0 + 0 * 0) with 0 by ring. apply sqrt_0.
Qed.

(** ** The further statements at concrete inputs *)

(** X2 at [pair_coeff 1 1 1 1 1 1 1 2 3], the first call on a pair style with
    two types, on storage that comes with every flag set. *)
Lemma coeff_sets_covered_pairs_witness :
  let c' := fst (PairSMATB.coeff_loops PairSMATB.coeff_example
                   (PairSMATB.allocate 2 PairSMATB.fresh_example PairSMATB.unset_example,
                    0%nat)) in
  PairSMATB.coeff 2 PairSMATB.fresh_example (false, PairSMATB.unset_example) 9
    PairSMATB.coeff_example
  = OK (true, c') /\
  PairSMATB.setflag c' 1 1 = 1%Z /\
  PairSMATB.tab c' PairSMATB.cutOffEnd 1 1 = 3.
Proof.
  intros c'.
  assert (E : PairSMATB.coeff 2 PairSMATB.fresh_example (false, PairSMATB.unset_example) 9
                PairSMATB.coeff_example
              = OK (true, c')) by reflexivity.
  split; [exact E |].
  destruct (@coeff_sets_covered_pairs 2 PairSMATB.fresh_example
              (false, PairSMATB.unset_example) 9 PairSMATB.coeff_example true c' E)
    as (_ & Hin & _).
  destruct (Hin 1%nat 1%nat) as (S & _ & _ & _ & _ & _ & _ & C).
  - unfold PairSMATB.covered. simpl. lia.
  - split; [exact S | exact C].
Defined.

(** X3 after the same call: the pair (1,2) was not covered. *)
Lemma coeff_then_init_one_witness :
  let c' := fst (PairSMATB.coeff_loops PairSMATB.coeff_example
                   (PairSMATB.allocate 2 PairSMATB.fresh_example PairSMATB.unset_example,
                    0%nat)) in
  PairSMATB.init_one c' 1 2 = Fatal "All pair coeffs are not set".
Proof.
  intros c'.
  refine (proj2 (@coeff_then_init_one 2 PairSMATB.fresh_example PairSMATB.unset_example 9
                   PairSMATB.coeff_example true c' 1 2 eq_refl _ _) _).
  - lia.
  - lia.
  - unfold PairSMATB.covered. simpl. lia.
Defined.

(** X4 at the example: [init_one(1,1)] on the configured example. *)
Lemma init_one_idempotent_witness :
  exists c'',
    PairSMATB.init_one PairSMATB.configured_example 1 1 = OK (3, c'') /\
    PairSMATB.same_tables PairSMATB.configured_example c''.
Proof.
  exact (@init_one_idempotent PairSMATB.raw_example PairSMATB.configured_example 1 1 3
           example_init_one).
Defined.

(** X5 at the example: [r0] of the pair (1,1) survives [init_one(1,1)]. *)
Lemma init_one_touches_only_its_pair_witness :
  PairSMATB.tab PairSMATB.configured_example PairSMATB.r0 1 1
  = PairSMATB.tab PairSMATB.raw_example PairSMATB.r0 1 1.
Proof.
  refine (proj1 (proj2 (proj2
            (@init_one_touches_only_its_pair PairSMATB.raw_example
               PairSMATB.configured_example 1 1 3 example_init_one))) PairSMATB.r0 _).
  simpl. tauto.
Defined.

(** X7 at the example with one type, read into an unconfigured pair style. *)
Lemma restart_then_init_one_witness :
  let r := PairSMATB.read_restart 1 PairSMATB.fresh_example PairSMATB.unset_example
             (PairSMATB.write_restart 1 PairSMATB.raw_example [] ++ []) in
  exists c2,
    PairSMATB.init_one (fst r) 1 1 = OK (3, c2) /\
    forall t, PairSMATB.tab c2 t 1 1 = PairSMATB.tab PairSMATB.configured_example t 1 1 /\
              PairSMATB.tab c2 t 1 1 = PairSMATB.tab PairSMATB.configured_example t 1 1.
Proof.
  intros r.
  refine (proj2 (@restart_then_init_one 1 PairSMATB.raw_example PairSMATB.unset_example
                   PairSMATB.fresh_example [] 1 1 _ _)
            3 PairSMATB.configured_example example_init_one); lia.
Defined.

(** X11 at two owned atoms at distance 1. *)
Lemma total_force_conserved_witness :
  PairSMATB.total_force
    (PairSMATB.f (PairSMATB.compute PairSMATB.mask29 true PairSMATB.configured_example
                    PairSMATB.two_local PairSMATB.one_pair [] (PairSMATB.stale 0))) 2
  = PairSMATB.total_force (PairSMATB.f (PairSMATB.stale 0)) 2.
Proof.
  refine (@total_force_conserved PairSMATB.mask29 PairSMATB.configured_example
            PairSMATB.two_local PairSMATB.one_pair [] (PairSMATB.stale 0) _ _).
  - intros ii _. simpl. lia.
  - intros ii jj _ _. vm_compute. lia.
Defined.

(** X12 at the owned atom with its image: the force of the image stays. *)
Lemma newton_off_leaves_ghost_forces_witness :
  PairSMATB.f (PairSMATB.compute PairSMATB.mask29 false PairSMATB.configured_example
                 PairSMATB.with_image PairSMATB.one_pair PairSMATB.image_swap
                 (PairSMATB.stale 0)) 1
  = PairSMATB.f (PairSMATB.stale 0) 1.
Proof.
  refine (@newton_off_leaves_ghost_forces PairSMATB.mask29 PairSMATB.configured_example
            PairSMATB.with_image PairSMATB.one_pair PairSMATB.image_swap
            (PairSMATB.stale 0) 1 _ _).
  - intros ii _. simpl. lia.
  - simpl. lia.
Defined.

(** X13 at two atoms at distance 4, beyond the cutoff 3. *)
Lemma no_force_beyond_cutoff_witness :
  PairSMATB.f (PairSMATB.compute PairSMATB.mask29 true PairSMATB.configured_example
                 PairSMATB.far_apart PairSMATB.one_pair [] (PairSMATB.stale 0))
  = PairSMATB.f (PairSMATB.stale 0).
Proof.
  refine (@no_force_beyond_cutoff PairSMATB.mask29 true PairSMATB.configured_example
            PairSMATB.far_apart PairSMATB.one_pair [] (PairSMATB.stale 0) _).
  intros ii jj _ _.
  change (PairSMATB.within PairSMATB.configured_example PairSMATB.far_apart 0 1 = false).
  destruct example_values as (_ & _ & _ & _ & _ & _ & E2).
  unfold PairSMATB.within. apply Rltb_false.
  change (PairSMATB.type PairSMATB.far_apart 0) with 1%nat.
  change (PairSMATB.type PairSMATB.far_apart 1) with 1%nat.
  rewrite E2.
  change (9 <= (0 - 4) * (0 - 4) + (0 - 0) * (0 - 0) + (0 - 0) * (0 - 0)). lra.
Defined.

(** X25 at two owned atoms at distance 1, energies requested. *)
Lemma energy_tallies_agree_witness :
  let se := (PairSMATB.stale 0, PairSMATB.mkTally (fun _ => 0) 0) in
  let r := PairSMATB.compute_ev PairSMATB.mask29 true PairSMATB.configured_example
             PairSMATB.two_local PairSMATB.one_pair [] true false
             (PairSMATB.mkFlags true true true) se in
  PairSMATB.eng_vdwl (snd r)
  = PairSMATB.total_energy (PairSMATB.eatom (snd r)) 2
    - PairSMATB.total_energy (PairSMATB.eatom (snd se)) 2.
Proof.
  intros se r.
  refine (proj2 (proj2 (@energy_tallies_agree PairSMATB.mask29 true
                          PairSMATB.configured_example PairSMATB.two_local
                          PairSMATB.one_pair [] true false
                          (PairSMATB.mkFlags true true true) se _ _))
            eq_refl eq_refl eq_refl eq_refl).
  - intros ii _. simpl. lia.
  - intros ii jj _ _. vm_compute. lia.
Defined.

(** X14 at the owned atom with its image, started from an [on_eb] full of
    5: the entry of the image. *)
Lemma on_eb_never_negative_witness :
  0 <= PairSMATB.on_eb
         (PairSMATB.compute PairSMATB.mask29 true PairSMATB.configured_example
            PairSMATB.with_image PairSMATB.one_pair PairSMATB.image_swap
            (PairSMATB.stale 5)) 1.
Proof.
  refine (proj2 (@on_eb_never_negative PairSMATB.mask29 PairSMATB.configured_example
                   PairSMATB.with_image PairSMATB.one_pair PairSMATB.image_swap
                   (PairSMATB.stale 5) _) 1%nat _).
  - intros s [<- | []]. split; [intros j [<- | []]; vm_compute; lia | vm_compute; lia].
  - simpl. lia.
Defined.

(** X26 at the owned atom with its image: a run that finds [on_eb] full of 5
    ends like a run that finds it full of 0. *)
Lemma on_eb_lifecycle_newton_on_witness :
  PairSMATB.same_upto 2
    (PairSMATB.compute PairSMATB.mask29 true PairSMATB.configured_example
       PairSMATB.with_image PairSMATB.one_pair PairSMATB.image_swap (PairSMATB.stale 0))
    (PairSMATB.compute PairSMATB.mask29 true PairSMATB.configured_example
       PairSMATB.with_image PairSMATB.one_pair PairSMATB.image_swap (PairSMATB.stale 5)).
Proof.
  refine (proj2 (proj2 (proj2 (proj2
            (@on_eb_lifecycle_newton_on PairSMATB.mask29 PairSMATB.configured_example
               PairSMATB.with_image PairSMATB.one_pair PairSMATB.image_swap
               (PairSMATB.stale 0) (PairSMATB.stale 5) _ _))))).
  - unfold PairSMATB.indices_below. split; [| split].
    + intros ii _. simpl. lia.
    + intros ii jj _ _. vm_compute. lia.
    + intros s [<- | []]. split; [intros j [<- | []]; vm_compute; lia | vm_compute; lia].
  - intros k. reflexivity.
Defined.

(** X15 at the example geometry: at most 5 * 3 * 3 entries. *)
Lemma stencil_count_bounded_witness :
  (NStencilFullMultiOld3d.nstencil_multi_old
     (NStencilFullMultiOld3d.create 1 NStencilFullMultiOld3d.example) 1 <= 45)%nat.
Proof.
  refine (@stencil_count_bounded NStencilFullMultiOld3d.example 1 1 _). lia.
Defined.

(** X16 at the example geometry with two types of equal cutoff. *)
Lemma stencil_grows_with_cutoff_witness :
  (NStencilFullMultiOld3d.nstencil_multi_old
     (NStencilFullMultiOld3d.create 2 NStencilFullMultiOld3d.example) 1
   <= NStencilFullMultiOld3d.nstencil_multi_old
        (NStencilFullMultiOld3d.create 2 NStencilFullMultiOld3d.example) 2)%nat.
Proof.
  refine (proj1 (@stencil_grows_with_cutoff NStencilFullMultiOld3d.example 2 1 2 _ _ _)).
  - lia.
  - lia.
  - simpl. lra.
Defined.

(** X17 at the example geometry, built on clean rows and on used ones. *)
Lemma create_ignores_previous_rows_witness :
  NStencilFullMultiOld3d.nstencil_multi_old
    (NStencilFullMultiOld3d.create 1 NStencilFullMultiOld3d.example_rebuilt) 1
  = NStencilFullMultiOld3d.nstencil_multi_old
      (NStencilFullMultiOld3d.create 1 NStencilFullMultiOld3d.example) 1.
Proof.
  refine (proj1 (@create_ignores_previous_rows NStencilFullMultiOld3d.example
                   NStencilFullMultiOld3d.example_rebuilt 1 1 _ _)).
  - unfold NStencilFullMultiOld3d.same_geometry. simpl. repeat split.
  - lia.
Defined.

(** X21 at the coefficient 1/2. *)
Lemma tsuji_damp_range_witness :
  0.0003 <= GranSubModDampingTsuji.init (1 / 2) <= 1.2728.
Proof.
  refine (proj1 (@tsuji_damp_range (1 / 2) _)). lra.
Defined.

(** X23 at the restitution coefficient 1/2. *)
Lemma restitution_damping_range_witness :
  0 <= Granular_NS.init Granular_NS.DampingEnHooke Granular_NS.example < 2.
Proof.
  refine (proj1 (@restitution_damping_range Granular_NS.example Granular_NS.example _)).
  simpl. lra.
Defined.

(** X24 with the Euclidean helpers and unit coefficients. *)
Lemma rolling_force_within_coulomb_limit_witness :
  MathExtra.len3 MathExtra.euclid
    (Granular_NS.fr (Granular_NS.rolling_calculate_forces MathExtra.euclid 0 1 1 1 0 vzero
                       Granular_NS.example))
  <= 1 * Granular_NS.Fncrit Granular_NS.example.
Proof.
  refine (proj2 (proj1 (@rolling_force_within_coulomb_limit MathExtra.euclid 0
                          euclid_len3_scale3 euclid_len3_zero3)
                   (fun _ => 1) 1 1 1 0%nat vzero Granular_NS.example _ _)).
  - unfold Granular_NS.coeffs_to_local. cbv zeta.
    rewrite (@Rltb_false 1 0) by lra. reflexivity.
  - simpl. lra.
Defined.
